(** * bulletverse: the multiplayer simulation server and its client

    A shallow embedding of [GameServer] and [NetworkClient] of [play.py]
    (world state, connection handler, world tick, combat and progression
    rules, snapshot reception) and of the rules of [Game] for the local
    player, the properties of the specification proved or refuted on it,
    and further properties of the code.

    Conventions of the embedding.
    - Python dictionaries used as records ("pos", "health", ...) are Rocq
      records; a key the code tests with [in] or reads with [get] is an
      [option] field, a key it reads unguarded is a plain field.  The one
      key read both ways, "level", is optional, and the unguarded read of
      an absent "level" raises [KeyError].
    - The [players] dictionary is an association list in insertion order:
      the code iterates it and stops at the first match, so order matters.
    - [list.remove(x)] removes the first element equal to [x] by value and
      raises [ValueError] when there is none.
    - Objects mutated in place while a copy of their list is being
      iterated (bullets, enemies) are written back at their place in the
      live list; section [Places] shows that the place tracked for a
      bullet is where the live list holds it.
    - Floating-point values (coordinates, angles, speeds, times) are kept
      abstract behind the class [Float]; the results of [random] and
      [time.time] come from an [Oracle] indexed by a call counter.
    - Health, shield, damage, penetration, level and experience are
      integers.

    What the embedding covers.  The server stores what clients send
    unchecked, and Python raises where a value has not the shape the code
    expects.  The records of the embedding have the shape of the payloads
    of the game's own client:
    - a player record holds "pos", "angle" and "health", and an entry of
      "new_bullets" has five elements, penetration and damage being ints
      (1 and 10 plus the upgrades).  A payload that cannot be unpickled
      or has a shorter entry ends its handler; [end_of_handler] is that
      path.  A record without "pos" or "health" makes the tick raise
      [KeyError]; such records are not expressed.
    - [math.cos] and [math.sin] raise [ValueError] on an infinite angle;
      [fcos] and [fsin] are total, so that the angles are taken to be
      finite, as those of the enemies and of the game's client are.
    - [int(threshold * 1.5)] is the exact [int_times_1_5]; Python's
      value is [int_times_1_5_rounded], the same up to thresholds of
      3 * 10^15.
    - [int] on the latency raises when the time stamps are not finite;
      such a round of the receive loop is [Unmeasured].
    A property below that says a computation returns says so of values
    of this shape. *)

From Stdlib Require Import ZArith QArith Qround Qabs.
From stdpp Require Import base list strings option.

Local Open Scope Z_scope.

(** ** Floating point, randomness and time *)

(** The float operations the code uses.  Nothing is assumed about them:
    every general theorem below holds whatever they compute. *)
Class Float := {
  float : Type;
  float_eq_dec :: EqDecision float;
  of_int : Z → float;                 (* an int where a float is expected *)
  flit : Q → float;                   (* a float literal such as 0.05 *)
  fadd : float → float → float;
  fsub : float → float → float;
  fmul : float → float → float;
  fdiv : float → float → float;
  fmod : float → float → float;       (* Python's % on floats *)
  fneg : float → float;
  fltb : float → float → bool;
  fleb : float → float → bool;
  fcos : float → float;
  fsin : float → float;
  fatan2 : float → float → float;
  fhypot : float → float → float;
  fpi : float;
  finf : float;                       (* float('inf') *)
  ftrunc : float → Z                  (* int(x) *)
}.

(** [random.random()], [random.uniform], [random.randint], the index drawn
    by [random.choice]/[random.choices], and [time.time()], each as a
    function of the number of oracle calls made so far. *)
Class Oracle `{Float} := {
  rand_unit : nat → float;
  rand_uniform : nat → float → float → float;
  rand_int : nat → Z → Z → Z;
  rand_index : nat → nat → nat;
  clock : nat → float
}.

(** ** Constants *)

Definition BULLET_SPEED : Z := 7.
Definition ENEMY_BULLET_SPEED : Z := 5.
Definition ENEMY_FIRE_RATE : Z := 80.
Definition NUM_ENEMIES : nat := 6.

Inductive Difficulty := easy | normal | hard.

Definition enemy_speed (d : Difficulty) : Q :=
  match d with easy => 15 # 10 | normal => 2 # 1 | hard => 25 # 10 end.
Definition enemy_health (d : Difficulty) : Z :=
  match d with easy => 25 | normal => 30 | hard => 40 end.
Definition enemy_damage (d : Difficulty) : Z :=
  match d with easy => 8 | normal => 10 | hard => 15 end.
Definition xp_multiplier (d : Difficulty) : Q :=
  match d with easy => 12 # 10 | normal => 1 # 1 | hard => 8 # 10 end.

(** [10 * DIFFICULTY_SETTINGS[d]["xp_multiplier"]]: the floats 12.0, 10.0
    and 8.0, kept as the integers they are equal to. *)
Definition kill_xp (d : Difficulty) : Z :=
  match d with easy => 12 | normal => 10 | hard => 8 end.

(** [int(t * 1.5)] for an int [t], as the exact product truncated toward
    zero.  Python multiplies in binary64: the two agree as long as [3 t]
    has at most 53 bits, which the thresholds of a game do; beyond, the
    product is rounded, and a [t] too large for a double raises
    [OverflowError] ([int_times_1_5_rounded] below).  The rules of the
    progression are modelled with the exact value. *)
Definition int_times_1_5 (t : Z) : Z := Z.quot (3 * t) 2.

(** The integer nearest to [n] that has at most 53 significant bits, a
    tie going to the one whose last kept bit is 0: the rounding of
    binary64, applied to an integer. *)
Definition round53 (n : Z) : Z :=
  let a := Z.abs n in
  let k := Z.log2 a - 52 in
  if decide (k ≤ 0) then n
  else
    let q := Z.shiftr a k in
    let r := a - Z.shiftl q k in
    let half := Z.shiftl 1 (k - 1) in
    let q' := if decide (half < r ∨ (r = half ∧ Z.odd q = true))
              then q + 1 else q in
    Z.sgn n * Z.shiftl q' k.

(** [int(t * 1.5)] as Python computes it for an int [t]: [t] is
    converted to a double, the product is rounded to a double, and [int]
    truncates toward zero.  [None] stands for the [OverflowError] of a
    [t] too large for a double, or of a product that is infinite.  The
    product of the double [f] by 1.5 is [3 f / 2], and halving is exact,
    so that the rounded product is half the rounding of [3 f]. *)
Definition int_times_1_5_rounded (t : Z) : option Z :=
  let f := round53 t in
  if decide (2 ^ 1024 ≤ Z.abs f) then None
  else
    let m := round53 (3 * f) in
    if decide (2 ^ 1025 ≤ Z.abs m) then None else Some (Z.quot m 2).

(** ** Entities *)

Inductive PowerupType := health_up | shield_up | speed_up | damage_up | xp_up.

Global Instance PowerupType_eq_dec : EqDecision PowerupType.
Proof. solve_decision. Defined.

Global Instance Difficulty_eq_dec : EqDecision Difficulty.
Proof. solve_decision. Defined.

(** ["enemy"], the owner tag of bullets fired by enemies. *)
Definition ENEMY_OWNER : string := "enemy".

(** An entry of "new_bullets": [[x, y, angle, penetration, damage]],
    with the ints that the game's client sends for the last two. *)
Module NewBullet.
Record t `{Float} := mk {
  x : float; y : float; angle : float; penetration : Z; damage : Z }.
Arguments mk {_}.
End NewBullet.

Module Bullet.
Record t `{Float} := mk {
  pos : float * float; angle : float;
  penetration : Z; damage : Z; owner : string }.
Arguments mk {_}.
End Bullet.

Inductive EnemyType := normal_enemy | fast_enemy | tank_enemy.

Global Instance EnemyType_eq_dec : EqDecision EnemyType.
Proof. solve_decision. Defined.

Module Enemy.
Record t `{Float} := mk {
  pos : float * float; angle : float; speed : float;
  health : Z; max_health : Z; fire_timer : float;
  type : EnemyType; size : float }.
Arguments mk {_}.
End Enemy.

Module Powerup.
Record t `{Float} := mk {
  pos : float * float; type : PowerupType; creation_time : float }.
Arguments mk {_}.
End Powerup.

(** A player record as the server stores it: the client's last payload,
    plus the keys the tick adds. *)
Module Player.
Record t `{Float} := mk {
  pos : float * float;
  angle : float;
  health : Z;
  shield : option Z;
  level : option Z;
  xp : option Z;
  xp_to_next_level : option Z;
  new_bullets : option (list NewBullet.t);
  upgrade_points : option Z;
  send_time : option float;
  max_health : option Z;
  shield_end_time : option float;
  movement_speed_boost : option float;
  speed_end_time : option float;
  damage_boost : option Z;
  damage_end_time : option float }.
Arguments mk {_}.
End Player.

Global Instance NewBullet_eq_dec `{Float} : EqDecision NewBullet.t.
Proof. solve_decision. Defined.
Global Instance Bullet_eq_dec `{Float} : EqDecision Bullet.t.
Proof. solve_decision. Defined.
Global Instance Enemy_eq_dec `{Float} : EqDecision Enemy.t.
Proof. solve_decision. Defined.
Global Instance Powerup_eq_dec `{Float} : EqDecision Powerup.t.
Proof. solve_decision. Defined.
Global Instance Player_eq_dec `{Float} : EqDecision Player.t.
Proof. solve_decision. Defined.

(** [self.game_state] of the server, and the snapshot a client receives. *)
Module GameState.
Record t `{Float} := mk {
  players : list (string * Player.t);
  enemies : list Enemy.t;
  bullets : list Bullet.t;
  powerups : list Powerup.t;
  send_time : option float;
  last_ping : option float }.
Arguments mk {_}.
End GameState.

(** The fields of [GameServer] the simulation reads or writes.  [clients]
    keeps the identifiers only; [calls] counts the oracle calls made. *)
Module GameServer.
Record t `{Float} := mk {
  clients : list string;
  game_state : GameState.t;
  last_powerup_time : float;
  difficulty : Difficulty;
  calls : nat }.
Arguments mk {_}.
End GameServer.

(** The module globals [WIDTH] and [HEIGHT]. *)
Class Screen := { WIDTH : Z; HEIGHT : Z }.

(** ** Python containers *)

Inductive Exn := KeyError (key : string) | ValueError (what : string).

(** [d[k]] or [d.get(k)] on a dictionary kept in insertion order. *)
Fixpoint dict_get {V} (k : string) (d : list (string * V)) : option V :=
  match d with
  | [] => None
  | (k', v) :: d' => if decide (k' = k) then Some v else dict_get k d'
  end.

(** [d[k] = v]: an existing key keeps its place, a new one goes last. *)
Fixpoint dict_set {V} (k : string) (v : V) (d : list (string * V))
  : list (string * V) :=
  match d with
  | [] => [(k, v)]
  | (k', v') :: d' =>
      if decide (k' = k) then (k, v) :: d' else (k', v') :: dict_set k v d'
  end.

(** [del d[k]], guarded by [k in d] at each use in the code. *)
Fixpoint dict_del {V} (k : string) (d : list (string * V))
  : list (string * V) :=
  match d with
  | [] => []
  | (k', v') :: d' =>
      if decide (k' = k) then d' else (k', v') :: dict_del k d'
  end.

Definition dict_keys {V} (d : list (string * V)) : list string := d.*1.

(** [l.remove(x)]: [None] stands for the [ValueError] of an absent [x]. *)
Definition list_remove {A} `{EqDecision A} (x : A) (l : list A)
  : option (list A) :=
  match list_find (λ y, y = x) l with
  | Some (i, _) => Some (delete i l)
  | None => None
  end.

(** ** The server as a state and exception monad *)

Inductive Res (A : Type) := Ok (a : A) | Raise (e : Exn).
Arguments Ok {A} a.
Arguments Raise {A} e.

(** A computation runs on the server object and either returns or raises;
    in both cases the mutations made so far stay. *)
Definition M `{Float} (A : Type) : Type :=
  GameServer.t → Res A * GameServer.t.

Global Instance M_ret `{Float} : MRet M := λ A a s, (Ok a, s).
Global Instance M_bind `{Float} : MBind M := λ A B f m s,
  match m s with
  | (Ok a, s') => f a s'
  | (Raise e, s') => (Raise e, s')
  end.

Definition raise `{Float} {A} (e : Exn) : M A := λ s, (Raise e, s).
Definition get `{Float} : M GameServer.t := λ s, (Ok s, s).
Definition gets `{Float} {A} (f : GameState.t → A) : M A :=
  λ s, (Ok (f (GameServer.game_state s)), s).
Definition modify `{Float} (f : GameState.t → GameState.t) : M unit :=
  λ s, (Ok tt, GameServer.mk (GameServer.clients s)
                 (f (GameServer.game_state s))
                 (GameServer.last_powerup_time s)
                 (GameServer.difficulty s) (GameServer.calls s)).

(** [for x in l: body(x)] over a list that is a copy, or is not resized. *)
Fixpoint for_each `{Float} {A} (l : list A) (body : A → M unit) : M unit :=
  match l with
  | [] => mret tt
  | x :: l' => body x ;; for_each l' body
  end.

Section Setters.
Context `{Float}.

Definition set_players (v : list (string * Player.t)) (g : GameState.t) :=
  GameState.mk v (GameState.enemies g) (GameState.bullets g)
    (GameState.powerups g) (GameState.send_time g) (GameState.last_ping g).
Definition set_enemies (v : list Enemy.t) (g : GameState.t) :=
  GameState.mk (GameState.players g) v (GameState.bullets g)
    (GameState.powerups g) (GameState.send_time g) (GameState.last_ping g).
Definition set_bullets (v : list Bullet.t) (g : GameState.t) :=
  GameState.mk (GameState.players g) (GameState.enemies g) v
    (GameState.powerups g) (GameState.send_time g) (GameState.last_ping g).
Definition set_powerups (v : list Powerup.t) (g : GameState.t) :=
  GameState.mk (GameState.players g) (GameState.enemies g)
    (GameState.bullets g) v (GameState.send_time g) (GameState.last_ping g).
Definition set_send_time (v : float) (g : GameState.t) :=
  GameState.mk (GameState.players g) (GameState.enemies g)
    (GameState.bullets g) (GameState.powerups g) (Some v)
    (GameState.last_ping g).
Definition set_last_ping (v : float) (g : GameState.t) :=
  GameState.mk (GameState.players g) (GameState.enemies g)
    (GameState.bullets g) (GameState.powerups g) (GameState.send_time g)
    (Some v).

Definition set_last_powerup_time (v : float) : M unit :=
  λ s, (Ok tt, GameServer.mk (GameServer.clients s) (GameServer.game_state s)
                 v (GameServer.difficulty s) (GameServer.calls s)).
Definition set_clients (v : list string) : M unit :=
  λ s, (Ok tt, GameServer.mk v (GameServer.game_state s)
                 (GameServer.last_powerup_time s) (GameServer.difficulty s)
                 (GameServer.calls s)).

(** The next oracle index; the call is counted. *)
Definition next_call : M nat :=
  λ s, (Ok (GameServer.calls s),
        GameServer.mk (GameServer.clients s) (GameServer.game_state s)
          (GameServer.last_powerup_time s) (GameServer.difficulty s)
          (S (GameServer.calls s))).

Definition with_health (v : Z) (p : Player.t) : Player.t :=
  Player.mk (Player.pos p) (Player.angle p) v (Player.shield p)
    (Player.level p) (Player.xp p) (Player.xp_to_next_level p)
    (Player.new_bullets p) (Player.upgrade_points p) (Player.send_time p)
    (Player.max_health p) (Player.shield_end_time p)
    (Player.movement_speed_boost p) (Player.speed_end_time p)
    (Player.damage_boost p) (Player.damage_end_time p).
Definition with_shield (v : Z) (p : Player.t) : Player.t :=
  Player.mk (Player.pos p) (Player.angle p) (Player.health p) (Some v)
    (Player.level p) (Player.xp p) (Player.xp_to_next_level p)
    (Player.new_bullets p) (Player.upgrade_points p) (Player.send_time p)
    (Player.max_health p) (Player.shield_end_time p)
    (Player.movement_speed_boost p) (Player.speed_end_time p)
    (Player.damage_boost p) (Player.damage_end_time p).
Definition with_level (v : Z) (p : Player.t) : Player.t :=
  Player.mk (Player.pos p) (Player.angle p) (Player.health p)
    (Player.shield p) (Some v) (Player.xp p) (Player.xp_to_next_level p)
    (Player.new_bullets p) (Player.upgrade_points p) (Player.send_time p)
    (Player.max_health p) (Player.shield_end_time p)
    (Player.movement_speed_boost p) (Player.speed_end_time p)
    (Player.damage_boost p) (Player.damage_end_time p).
Definition with_xp (v : Z) (p : Player.t) : Player.t :=
  Player.mk (Player.pos p) (Player.angle p) (Player.health p)
    (Player.shield p) (Player.level p) (Some v) (Player.xp_to_next_level p)
    (Player.new_bullets p) (Player.upgrade_points p) (Player.send_time p)
    (Player.max_health p) (Player.shield_end_time p)
    (Player.movement_speed_boost p) (Player.speed_end_time p)
    (Player.damage_boost p) (Player.damage_end_time p).
Definition with_xp_to_next_level (v : Z) (p : Player.t) : Player.t :=
  Player.mk (Player.pos p) (Player.angle p) (Player.health p)
    (Player.shield p) (Player.level p) (Player.xp p) (Some v)
    (Player.new_bullets p) (Player.upgrade_points p) (Player.send_time p)
    (Player.max_health p) (Player.shield_end_time p)
    (Player.movement_speed_boost p) (Player.speed_end_time p)
    (Player.damage_boost p) (Player.damage_end_time p).
Definition with_upgrade_points (v : Z) (p : Player.t) : Player.t :=
  Player.mk (Player.pos p) (Player.angle p) (Player.health p)
    (Player.shield p) (Player.level p) (Player.xp p)
    (Player.xp_to_next_level p) (Player.new_bullets p) (Some v)
    (Player.send_time p) (Player.max_health p) (Player.shield_end_time p)
    (Player.movement_speed_boost p) (Player.speed_end_time p)
    (Player.damage_boost p) (Player.damage_end_time p).
Definition with_shield_end_time (v : float) (p : Player.t) : Player.t :=
  Player.mk (Player.pos p) (Player.angle p) (Player.health p)
    (Player.shield p) (Player.level p) (Player.xp p)
    (Player.xp_to_next_level p) (Player.new_bullets p)
    (Player.upgrade_points p) (Player.send_time p) (Player.max_health p)
    (Some v) (Player.movement_speed_boost p) (Player.speed_end_time p)
    (Player.damage_boost p) (Player.damage_end_time p).
Definition with_speed_boost (b e : float) (p : Player.t) : Player.t :=
  Player.mk (Player.pos p) (Player.angle p) (Player.health p)
    (Player.shield p) (Player.level p) (Player.xp p)
    (Player.xp_to_next_level p) (Player.new_bullets p)
    (Player.upgrade_points p) (Player.send_time p) (Player.max_health p)
    (Player.shield_end_time p) (Some b) (Some e)
    (Player.damage_boost p) (Player.damage_end_time p).
Definition with_damage_boost (b : Z) (e : float) (p : Player.t) : Player.t :=
  Player.mk (Player.pos p) (Player.angle p) (Player.health p)
    (Player.shield p) (Player.level p) (Player.xp p)
    (Player.xp_to_next_level p) (Player.new_bullets p)
    (Player.upgrade_points p) (Player.send_time p) (Player.max_health p)
    (Player.shield_end_time p) (Player.movement_speed_boost p)
    (Player.speed_end_time p) (Some b) (Some e).

End Setters.

(** ** The server *)

Section Server.
Context `{Oracle} `{Screen}.

(** *** [random] and [time] *)

Definition random_random : M float :=
  i ← next_call; mret (rand_unit i).
Definition random_uniform (a b : float) : M float :=
  i ← next_call; mret (rand_uniform i a b).
(** [random.randint(a, b)] raises on an empty range. *)
Definition random_randint (a b : Z) : M Z :=
  if decide (b < a) then raise (ValueError "empty range")
  else i ← next_call; mret (rand_int i a b).
(** [random.choice(l)] and [random.choices(l, weights)[0]] on a non-empty
    literal list [d :: l]; the weights only shape the distribution. *)
Definition random_choice {A} (d : A) (l : list A) : M A :=
  i ← next_call;
  mret (nth (rand_index i (S (length l)) mod S (length l))%nat (d :: l) d).
Definition time_time : M float :=
  i ← next_call; mret (clock i).

(** *** [spawn_enemy] and [GameServer.__init__] *)

Definition settings_enemy_speed (d : Difficulty) : float :=
  match d with
  | easy => flit (15 # 10) | normal => of_int 2 | hard => flit (25 # 10)
  end.

Definition spawn_enemy (d : Difficulty) : M Enemy.t :=
  x ← random_randint 50 (WIDTH - 50);
  y ← random_randint 50 (HEIGHT - 50);
  a ← random_uniform (of_int 0) (fmul (of_int 2) fpi);
  u ← random_uniform (flit (8 # 10)) (flit (12 # 10));
  ft ← random_randint 0 ENEMY_FIRE_RATE;
  ty ← random_choice normal_enemy [fast_enemy; tank_enemy];
  sz ← random_uniform (flit (8 # 10)) (flit (12 # 10));
  mret (Enemy.mk (of_int x, of_int y) a (fmul (settings_enemy_speed d) u)
          (enemy_health d) (enemy_health d) (of_int ft) ty
          (fmul sz (of_int 20))).

(** [[spawn_enemy() for _ in range(n)]] *)
Fixpoint spawn_enemies (n : nat) : M (list Enemy.t) :=
  match n with
  | O => mret []
  | S n' => e ← spawn_enemy normal; es ← spawn_enemies n'; mret (e :: es)
  end.

(** The object before [__init__] has assigned anything, after [n] oracle
    calls made elsewhere. *)
Definition blank_server (n : nat) : GameServer.t :=
  GameServer.mk [] (GameState.mk [] [] [] [] None None) (of_int 0) normal n.

Definition GameServer_init : M unit :=
  es ← spawn_enemies NUM_ENEMIES;
  t ← time_time;
  modify (λ _, GameState.mk [] es [] [] (Some t) None) ;;
  t' ← time_time;
  set_last_powerup_time t'.

(** *** [run]: a connection is accepted *)

Definition accept (player_id : string) : M unit :=
  s ← get;
  set_clients
    (if decide (player_id ∈ GameServer.clients s) then GameServer.clients s
     else GameServer.clients s ++ [player_id]).

(** *** [handle_client] *)

Definition to_bullet (player_id : string) (b : NewBullet.t) : Bullet.t :=
  Bullet.mk (NewBullet.x b, NewBullet.y b) (NewBullet.angle b)
    (NewBullet.penetration b) (NewBullet.damage b) player_id.

Definition append_bullet (b : Bullet.t) : M unit :=
  modify (λ g, set_bullets (GameState.bullets g ++ [b]) g).

(** One round of the handler's loop after a payload has been received and
    unpickled to a record of the embedding; the result is the snapshot
    sent back.  The rounds that fail are in [last_round]. *)
Definition handle_message (player_id : string) (player_data : Player.t)
  : M GameState.t :=
  modify (λ g, set_players
                 (dict_set player_id player_data (GameState.players g)) g) ;;
  match Player.new_bullets player_data with
  | Some (b :: bs) =>
      for_each (b :: bs) (λ bullet, append_bullet (to_bullet player_id bullet))
  | _ => mret tt
  end ;;
  t ← time_time;
  modify (set_send_time t) ;;
  match Player.send_time player_data with
  | Some st => t' ← time_time; modify (set_last_ping (fsub t' st))
  | None => mret tt
  end ;;
  gets id.

(** The [finally] block of the handler. *)
Definition disconnect (player_id : string) : M unit :=
  s ← get;
  (if decide (player_id ∈ GameServer.clients s)
   then set_clients (filter (λ c, c ≠ player_id) (GameServer.clients s))
   else mret tt) ;;
  ps ← gets GameState.players;
  if decide (player_id ∈ dict_keys ps)
  then modify (set_players (dict_del player_id ps))
  else mret tt.

(** *** [spawn_powerup] *)

Definition append_powerup (p : Powerup.t) : M unit :=
  modify (λ g, set_powerups (GameState.powerups g ++ [p]) g).

Definition spawn_powerup : M unit :=
  pus ← gets GameState.powerups;
  if decide (5 ≤ length pus)%nat then mret tt
  else
    x ← random_randint 50 (WIDTH - 50);
    y ← random_randint 50 (HEIGHT - 50);
    ty ← random_choice health_up [shield_up; speed_up; damage_up; xp_up];
    t ← time_time;
    append_powerup (Powerup.mk (of_int x, of_int y) ty t).

End Server.

(** ** [update_game_state]: one world tick *)

Section Tick.
Context `{Oracle} `{Screen}.

(** [math.hypot(a[0] - b[0], a[1] - b[1])] *)
Definition dist (a b : float * float) : float :=
  fhypot (fsub a.1 b.1) (fsub a.2 b.2).

(** [l.remove(x)] on one of the world's lists. *)
Definition remove_powerup (pu : Powerup.t) : M unit :=
  pus ← gets GameState.powerups;
  match list_remove pu pus with
  | Some pus' => modify (set_powerups pus')
  | None => raise (ValueError "list.remove(x): x not in list")
  end.
Definition remove_enemy (e : Enemy.t) : M unit :=
  es ← gets GameState.enemies;
  match list_remove e es with
  | Some es' => modify (set_enemies es')
  | None => raise (ValueError "list.remove(x): x not in list")
  end.
Definition remove_bullet (b : Bullet.t) : M unit :=
  bs ← gets GameState.bullets;
  match list_remove b bs with
  | Some bs' => modify (set_bullets bs')
  | None => raise (ValueError "list.remove(x): x not in list")
  end.

(** [if bullet in bullets: bullets.remove(bullet)]; tells whether an
    element was removed. *)
Definition remove_bullet_if_present (b : Bullet.t) : M bool :=
  bs ← gets GameState.bullets;
  match list_remove b bs with
  | Some bs' => modify (set_bullets bs') ;; mret true
  | None => mret false
  end.

(** The mutated object written back at its place in the live list. *)
Definition store_bullet (i : nat) (b : Bullet.t) : M unit :=
  modify (λ g, set_bullets (<[i := b]> (GameState.bullets g)) g).
Definition store_enemy (i : nat) (e : Enemy.t) : M unit :=
  modify (λ g, set_enemies (<[i := e]> (GameState.enemies g)) g).
Definition store_player (i : nat) (id : string) (p : Player.t) : M unit :=
  modify (λ g, set_players (<[i := (id, p)]> (GameState.players g)) g).

(** *** Powerup expiry *)

Definition expire_powerups (current_time : float) : M unit :=
  pus ← gets GameState.powerups;
  for_each pus (λ powerup,
    if fltb (of_int 30) (fsub current_time (Powerup.creation_time powerup))
    then remove_powerup powerup
    else mret tt).

(** *** Enemies: movement, targeting, firing *)

(** The search for the closest player: [(closest_player, min_dist)]. *)
Definition closest_player (pos : float * float)
    (ps : list (string * Player.t)) : option Player.t * float :=
  fold_left
    (λ (acc : option Player.t * float) (kv : string * Player.t),
       let d := dist (Player.pos kv.2) pos in
       if fltb d acc.2 then (Some kv.2, d) else acc)
    ps (None, finf).

(** [math.atan2(p[1] - e[1], p[0] - e[0])] *)
Definition angle_to (p e : float * float) : float :=
  fatan2 (fsub p.2 e.2) (fsub p.1 e.1).

Definition enemy_step (i : nat) (enemy : Enemy.t) : M unit :=
  let x := fadd (Enemy.pos enemy).1
             (fmul (Enemy.speed enemy) (fcos (Enemy.angle enemy))) in
  let y := fadd (Enemy.pos enemy).2
             (fmul (Enemy.speed enemy) (fsin (Enemy.angle enemy))) in
  let a1 := if fleb x (of_int 20) || fleb (of_int (WIDTH - 20)) x
            then fsub fpi (Enemy.angle enemy) else Enemy.angle enemy in
  let a2 := if fleb y (of_int 20) || fleb (of_int (HEIGHT - 20)) y
            then fneg a1 else a1 in
  r ← random_random;
  a3 ← (if fltb r (flit (1 # 100))
        then u ← random_uniform (flit (-5 # 10)) (flit (5 # 10));
             mret (fadd a2 u)
        else mret a2);
  ps ← gets GameState.players;
  a4 ← (match ps with
        | [] => mret a3
        | _ :: _ =>
            r' ← random_random;
            if fltb r' (flit (5 # 100)) then
              match (closest_player (x, y) ps).1 with
              | Some cp =>
                  let target_angle := angle_to (Player.pos cp) (x, y) in
                  let angle_diff :=
                    fsub (fmod (fadd (fsub target_angle a3) fpi)
                            (fmul (of_int 2) fpi)) fpi in
                  mret (fadd a3 (fmul angle_diff (flit (1 # 10))))
              | None => mret a3
              end
            else mret a3
        end);
  let timer := fsub (Enemy.fire_timer enemy) (of_int 1) in
  let moved t := Enemy.mk (x, y) a4 (Enemy.speed enemy) (Enemy.health enemy)
                   (Enemy.max_health enemy) t (Enemy.type enemy)
                   (Enemy.size enemy) in
  if fleb timer (of_int 0) then
    u ← random_uniform (flit (8 # 10)) (flit (12 # 10));
    store_enemy i (moved (fmul (of_int ENEMY_FIRE_RATE) u)) ;;
    match ps with
    | [] => mret tt
    | _ :: _ =>
        match closest_player (x, y) ps with
        | (Some cp, min_dist) =>
            if fltb min_dist (of_int 400) then
              let angle_to_player := angle_to (Player.pos cp) (x, y) in
              let d := fdiv min_dist (of_int 2000) in
              let inaccuracy :=
                if fltb d (flit (2 # 10)) then d else flit (2 # 10) in
              u' ← random_uniform (fneg inaccuracy) inaccuracy;
              s ← get;
              append_bullet
                (Bullet.mk (x, y) (fadd angle_to_player u') 1
                   (enemy_damage (GameServer.difficulty s)) ENEMY_OWNER)
            else mret tt
        | (None, _) => mret tt
        end
    end
  else store_enemy i (moved timer).

Fixpoint enemies_loop (i : nat) (es : list Enemy.t) : M unit :=
  match es with
  | [] => mret tt
  | e :: es' => enemy_step i e ;; enemies_loop (S i) es'
  end.

(** *** Progression *)

(** The experience award of a kill, on the player record of the owner. *)
Definition award_kill_xp (d : Difficulty) (player : Player.t) : Player.t :=
  let xp_gain := kill_xp d in
  let xp0 := default 0 (Player.xp player) in
  let threshold := default 100 (Player.xp_to_next_level player) in
  let level0 := default 1 (Player.level player) in
  let xp1 := xp0 + xp_gain in
  let p := with_level level0 (with_xp_to_next_level threshold
             (with_xp xp1 player)) in
  if decide (threshold ≤ xp1) then
    with_upgrade_points (default 0 (Player.upgrade_points player) + 1)
      (with_xp_to_next_level (int_times_1_5 threshold)
         (with_xp (xp1 - threshold) (with_level (level0 + 1) p)))
  else p.

(** The effect of a powerup on the player at place [i] of [players].  The
    "xp" branch reads "level" without a default. *)
Definition apply_powerup (i : nat) (id : string) (ty : PowerupType)
    (player : Player.t) : M unit :=
  match ty with
  | health_up =>
      store_player i id
        (with_health (Z.min (Player.health player + 25)
                        (default 100 (Player.max_health player))) player)
  | shield_up =>
      t ← time_time;
      store_player i id
        (with_shield_end_time (fadd t (of_int 10)) (with_shield 30 player))
  | speed_up =>
      t ← time_time;
      store_player i id
        (with_speed_boost (flit (15 # 10)) (fadd t (of_int 5)) player)
  | damage_up =>
      t ← time_time;
      store_player i id (with_damage_boost 5 (fadd t (of_int 8)) player)
  | xp_up =>
      let xp_gain := 30 in
      let xp0 := default 0 (Player.xp player) in
      let threshold := default 100 (Player.xp_to_next_level player) in
      let xp1 := xp0 + xp_gain in
      let p := with_xp_to_next_level threshold (with_xp xp1 player) in
      store_player i id p ;;
      if decide (threshold ≤ xp1) then
        match Player.level player with
        | None => raise (KeyError "level")
        | Some level0 =>
            store_player i id
              (with_upgrade_points
                 (default 0 (Player.upgrade_points player) + 1)
                 (with_xp_to_next_level (int_times_1_5 threshold)
                    (with_xp (xp1 - threshold) (with_level (level0 + 1) p))))
        end
      else mret tt
  end.

(** The first entry of [players.items()] within [r] of [pos]. *)
Definition first_player_within (r : Z) (pos : float * float)
    (ps : list (string * Player.t)) : option (nat * (string * Player.t)) :=
  list_find (λ kv, fltb (dist pos (Player.pos kv.2)) (of_int r) = true) ps.

(** The body of the loop over [list(powerups)]: the first player in reach
    takes the powerup. *)
Definition pick_up (powerup : Powerup.t) : M unit :=
  ps ← gets GameState.players;
  match first_player_within 25 (Powerup.pos powerup) ps with
  | Some (i, (id, player)) =>
      apply_powerup i id (Powerup.type powerup) player ;;
      remove_powerup powerup
  | None => mret tt
  end.

(** The pass over the powerups; in the code it sits inside the loop over
    the bullets. *)
Definition powerup_pass : M unit :=
  pus ← gets GameState.powerups;
  for_each pus pick_up.

(** *** Combat *)

Definition damage_player (damage : Z) (player : Player.t) : Player.t :=
  match Player.shield player with
  | Some sh =>
      if decide (0 < sh) then
        let sh' := sh - damage in
        if decide (sh' < 0)
        then with_shield 0 (with_health (Player.health player + sh') player)
        else with_shield sh' player
      else with_health (Player.health player - damage) player
  | None => with_health (Player.health player - damage) player
  end.

Definition hits_enemy (b : Bullet.t) (e : Enemy.t) : bool :=
  fltb (dist (Bullet.pos b) (Enemy.pos e)) (Enemy.size e).

(** With probability 0.1 the dead enemy leaves a powerup where it stood. *)
Definition drop_powerup (enemy : Enemy.t) : M unit :=
  r ← random_random;
  if fltb r (flit (1 # 10)) then
    ty ← random_choice health_up [shield_up; speed_up; damage_up; xp_up];
    t ← time_time;
    append_powerup (Powerup.mk (Enemy.pos enemy) ty t)
  else mret tt.

(** The owner of the bullet, if a player, is awarded the kill. *)
Definition reward_kill (d : Difficulty) (owner : string) : M unit :=
  ps ← gets GameState.players;
  match list_find (λ kv, kv.1 = owner) ps with
  | Some (j, (id, player)) => store_player j id (award_kill_xp d player)
  | None => mret tt
  end.

(** The branch [if enemy["health"] <= 0]. *)
Definition kill_enemy (bullet : Bullet.t) (enemy : Enemy.t) : M unit :=
  drop_powerup enemy ;;
  remove_enemy enemy ;;
  s ← get;
  fresh ← spawn_enemy (GameServer.difficulty s);
  modify (λ g, set_enemies (GameState.enemies g ++ [fresh]) g) ;;
  reward_kill (GameServer.difficulty s) (Bullet.owner bullet).

(** The enemy and the bullet after the hit. *)
Definition hit_enemy (bullet : Bullet.t) (e : Enemy.t) : Enemy.t :=
  Enemy.mk (Enemy.pos e) (Enemy.angle e) (Enemy.speed e)
    (Enemy.health e - Bullet.damage bullet) (Enemy.max_health e)
    (Enemy.fire_timer e) (Enemy.type e) (Enemy.size e).
Definition spent (bullet : Bullet.t) : Bullet.t :=
  Bullet.mk (Bullet.pos bullet) (Bullet.angle bullet)
    (Bullet.penetration bullet - 1) (Bullet.damage bullet)
    (Bullet.owner bullet).

(** [bullet["penetration"] -= 1] and the test [bullet["penetration"] <= 0]
    on a counter that is a float, which the handler stores as it stores
    an int: the counter after the hit, and whether the bullet goes. *)
Definition float_counter_after_hit (p : float) : float * bool :=
  let p' := fsub p (of_int 1) in (p', fleb p' (of_int 0)).

(** A player's bullet against the enemies; the bullet is at place [i] of
    the live list.  Tells whether an element left [bullets]. *)
Definition bullet_vs_enemies (i : nat) (bullet : Bullet.t) : M bool :=
  es ← gets GameState.enemies;
  match list_find (λ e, hits_enemy bullet e = true) es with
  | None => mret false
  | Some (k, e) =>
      let enemy := hit_enemy bullet e in
      store_enemy k enemy ;;
      let bullet' := spent bullet in
      store_bullet i bullet' ;;
      removed ← (if decide (Bullet.penetration bullet' ≤ 0)
                 then remove_bullet_if_present bullet'
                 else mret false);
      (if decide (Enemy.health enemy ≤ 0)
       then kill_enemy bullet enemy
       else mret tt) ;;
      mret removed
  end.

(** An enemy's bullet against the players. *)
Definition bullet_vs_players (bullet : Bullet.t) : M bool :=
  ps ← gets GameState.players;
  match first_player_within 20 (Bullet.pos bullet) ps with
  | Some (j, (id, player)) =>
      store_player j id (damage_player (Bullet.damage bullet) player) ;;
      remove_bullet_if_present bullet
  | None => mret false
  end.

Definition move_bullet (b : Bullet.t) : Bullet.t :=
  let speed := if decide (Bullet.owner b = ENEMY_OWNER)
               then ENEMY_BULLET_SPEED else BULLET_SPEED in
  Bullet.mk
    (fadd (Bullet.pos b).1 (fmul (of_int speed) (fcos (Bullet.angle b))),
     fadd (Bullet.pos b).2 (fmul (of_int speed) (fsin (Bullet.angle b))))
    (Bullet.angle b) (Bullet.penetration b) (Bullet.damage b)
    (Bullet.owner b).

Definition out_of_bounds (b : Bullet.t) : bool :=
  fltb (Bullet.pos b).1 (of_int 0) || fltb (of_int WIDTH) (Bullet.pos b).1
  || fltb (Bullet.pos b).2 (of_int 0) || fltb (of_int HEIGHT) (Bullet.pos b).2.

(** The body of the loop over [list(bullets)] for the bullet that stands at
    place [i] of the live list; the result is the place of the next one. *)
Definition bullet_step (i : nat) (b : Bullet.t) : M nat :=
  let bullet := move_bullet b in
  store_bullet i bullet ;;
  if out_of_bounds bullet then remove_bullet bullet ;; mret i
  else
    hit_enemy ← (if decide (Bullet.owner bullet ≠ ENEMY_OWNER)
                 then bullet_vs_enemies i bullet else mret false);
    hit_player ← (if decide (Bullet.owner bullet = ENEMY_OWNER)
                  then bullet_vs_players bullet else mret false);
    powerup_pass ;;
    mret (if hit_enemy || hit_player then i else S i).

Fixpoint bullets_loop (i : nat) (snapshot : list Bullet.t) : M unit :=
  match snapshot with
  | [] => mret tt
  | b :: rest => i' ← bullet_step i b; bullets_loop i' rest
  end.

Definition update_game_state : M unit :=
  current_time ← time_time;
  modify (set_send_time current_time) ;;
  s ← get;
  (if fltb (of_int 10) (fsub current_time (GameServer.last_powerup_time s))
   then spawn_powerup ;; set_last_powerup_time current_time
   else mret tt) ;;
  expire_powerups current_time ;;
  es ← gets GameState.enemies;
  enemies_loop 0 es ;;
  bs ← gets GameState.bullets;
  bullets_loop 0 bs.

End Tick.

(** ** [NetworkClient] *)

Module NetworkClient.
Record t `{Float} := mk {
  connected : bool;
  game_state : GameState.t;
  last_received : float;
  ping : Z }.
Arguments mk {_}.
End NetworkClient.

Section Client.
Context `{Float}.

(** [NetworkClient.__init__]; [now] is the reading of [time.time()]. *)
Definition NetworkClient_init (now : float) : NetworkClient.t :=
  NetworkClient.mk false (GameState.mk [] [] [] [] None None) now 0.

(** [connect], by whether the socket calls succeed. *)
Definition connect (ok : bool) (c : NetworkClient.t) : NetworkClient.t :=
  NetworkClient.mk ok (NetworkClient.game_state c)
    (NetworkClient.last_received c) (NetworkClient.ping c).

(** [send_data]: the payload put on the wire, if any, and the client
    afterwards.  [now] is [time.time()], [sent] whether [socket.send]
    returns.  The stamp goes into the payload only. *)
Definition send_data (now : float) (sent : bool) (data : Player.t)
    (c : NetworkClient.t) : option Player.t * NetworkClient.t :=
  if NetworkClient.connected c then
    let stamped :=
      Player.mk (Player.pos data) (Player.angle data) (Player.health data)
        (Player.shield data) (Player.level data) (Player.xp data)
        (Player.xp_to_next_level data) (Player.new_bullets data)
        (Player.upgrade_points data) (Some now) (Player.max_health data)
        (Player.shield_end_time data) (Player.movement_speed_boost data)
        (Player.speed_end_time data) (Player.damage_boost data)
        (Player.damage_end_time data) in
    if sent then (Some stamped, c)
    else (None, NetworkClient.mk false (NetworkClient.game_state c)
                  (NetworkClient.last_received c) (NetworkClient.ping c))
  else (None, c).

(** How one round of the receive loop goes.  An exception ends the loop
    wherever it is raised, and what the round has assigned before stays
    assigned: [last_received] once the read has returned data, the cache
    once [pickle.loads] has returned.  [Unmeasured g] is the round in
    which the snapshot [g] is stored and the computation of the latency
    then raises, as [int] does on an infinity or a NaN; a snapshot
    without "send_time" has no latency computed, and cannot fail so. *)
Inductive Received :=
| Closed                             (* empty read *)
| Failed                             (* [socket.recv] raises *)
| Undecodable                        (* [pickle.loads] raises *)
| Unmeasured (g : GameState.t)       (* the latency cannot be computed *)
| Snapshot (g : GameState.t).

(** One round of the loop of [receive_data]; [receive_time] is
    [time.time()] after the read. *)
Definition receive_data (r : Received) (receive_time : float)
    (c : NetworkClient.t) : NetworkClient.t :=
  match r with
  | Closed | Failed =>
      NetworkClient.mk false (NetworkClient.game_state c)
        (NetworkClient.last_received c) (NetworkClient.ping c)
  | Undecodable =>
      NetworkClient.mk false (NetworkClient.game_state c) receive_time
        (NetworkClient.ping c)
  | Unmeasured g =>
      NetworkClient.mk
        (match GameState.send_time g with
         | Some _ => false
         | None => NetworkClient.connected c
         end)
        g receive_time (NetworkClient.ping c)
  | Snapshot g =>
      NetworkClient.mk (NetworkClient.connected c) g receive_time
        (match GameState.send_time g with
         | Some st => ftrunc (fmul (fsub receive_time st) (of_int 1000))
         | None => NetworkClient.ping c
         end)
  end.

End Client.

(** ** Runs of the server *)

Section Runs.
Context `{Oracle} `{Screen}.

Definition set_difficulty (d : Difficulty) : M unit :=
  λ s, (Ok tt, GameServer.mk (GameServer.clients s) (GameServer.game_state s)
                 (GameServer.last_powerup_time s) d (GameServer.calls s)).

(** What the threads of the server do to the server object: a tick, an
    accepted connection, a merged payload, a handler's cleanup, and the
    host setting the difficulty. *)
Inductive Event :=
| Tick
| Accept (player_id : string)
| Message (player_id : string) (player_data : Player.t)
| Disconnect (player_id : string)
| SetDifficulty (d : Difficulty).

Definition perform (ev : Event) (s : GameServer.t) : GameServer.t :=
  match ev with
  | Tick => (update_game_state s).2
  | Accept id => (accept id s).2
  | Message id data => (handle_message id data s).2
  | Disconnect id => (disconnect id s).2
  | SetDifficulty d => (set_difficulty d s).2
  end.

Definition run (evs : list Event) (s : GameServer.t) : GameServer.t :=
  fold_left (λ s ev, perform ev s) evs s.

(** The servers a run can reach after a constructor that returned. *)
Inductive reachable : GameServer.t → Prop :=
| reachable_init n s :
    GameServer_init (blank_server n) = (Ok tt, s) → reachable s
| reachable_step ev s : reachable s → reachable (perform ev s).

End Runs.

(** ** An exact fragment of float arithmetic, for the scenarios

    Rationals in lowest terms, square roots of rationals (the distances),
    and an infinity.  An operation whose float result this fragment cannot
    give exactly (a cosine away from 0, the sum of two roots) yields
    [NaN], on which every test is false.  On the integers and halves the
    scenarios use, it computes what binary64 does, and it compares
    distances exactly. *)

Inductive xfloat :=
| Fin (q : Q)
| Root (q : Q)       (* the square root of [q], for [0 <= q] *)
| Inf
| NaN.

Global Instance Q_eq_dec : EqDecision Q.
Proof. solve_decision. Defined.
Global Instance xfloat_eq_dec : EqDecision xfloat.
Proof. solve_decision. Defined.

Definition qlt (x y : Q) : bool := negb (Qle_bool y x).

Definition xlift2 (f : Q → Q → Q) (a b : xfloat) : xfloat :=
  match a, b with Fin x, Fin y => Fin (Qred (f x y)) | _, _ => NaN end.

Definition xadd (a b : xfloat) : xfloat :=
  match a, b with
  | Inf, Fin _ | Fin _, Inf | Inf, Inf => Inf
  | _, _ => xlift2 Qplus a b
  end.
Definition xsub (a b : xfloat) : xfloat :=
  match a, b with
  | Inf, Fin _ => Inf
  | _, _ => xlift2 Qminus a b
  end.
Definition xdiv (a b : xfloat) : xfloat :=
  match a, b with
  | Fin x, Fin y => if decide (Qnum y = 0) then NaN else Fin (Qred (x / y))
  | Root x, Fin y => if qlt 0 y then Root (Qred (x / (y * y))) else NaN
  | _, _ => NaN
  end.
Definition xmod (a b : xfloat) : xfloat :=
  match b with
  | Fin y =>
      if decide (Qnum y = 0) then NaN
      else xlift2 (λ x y, x - y * inject_Z (Qfloor (x / y)))%Q a b
  | _ => NaN
  end.
Definition xneg (a : xfloat) : xfloat :=
  match a with Fin x => Fin (Qred (- x)) | _ => NaN end.
Definition xltb (a b : xfloat) : bool :=
  match a, b with
  | Fin x, Fin y => qlt x y
  | Root x, Fin y => qlt 0 y && qlt x (y * y)
  | Fin x, Root y => qlt x 0 || qlt (x * x) y
  | Root x, Root y => qlt x y
  | Fin _, Inf | Root _, Inf => true
  | _, _ => false
  end.
Definition xleb (a b : xfloat) : bool :=
  match a, b with
  | Fin x, Fin y => Qle_bool x y
  | Root x, Fin y => Qle_bool 0 y && Qle_bool x (y * y)
  | Fin x, Root y => qlt x 0 || Qle_bool (x * x) y
  | Root x, Root y => Qle_bool x y
  | Fin _, Inf | Root _, Inf | Inf, Inf => true
  | _, _ => false
  end.
Definition xcos (a : xfloat) : xfloat :=
  match a with
  | Fin x => if decide (Qnum x = 0) then Fin 1 else NaN
  | _ => NaN
  end.
Definition xsin (a : xfloat) : xfloat :=
  match a with
  | Fin x => if decide (Qnum x = 0) then Fin 0 else NaN
  | _ => NaN
  end.
Definition xatan2 (y x : xfloat) : xfloat :=
  match y, x with
  | Fin b, Fin a =>
      if decide (Qnum b = 0 ∧ 0 < Qnum a) then Fin 0 else NaN
  | _, _ => NaN
  end.
Definition xhypot (a b : xfloat) : xfloat :=
  match a, b with
  | Fin x, Fin y => Root (Qred (x * x + y * y))
  | _, _ => NaN
  end.
Definition xtrunc (a : xfloat) : Z :=
  match a with Fin x => Z.quot (Qnum x) (Zpos (Qden x)) | _ => 0 end.

(** [math.pi] is the double 884279719003555 / 2^48. *)
Definition xpi : xfloat := Fin (884279719003555 # 281474976710656).

Global Instance ExactFloat : Float := {|
  float := xfloat;
  of_int z := Fin (inject_Z z);
  flit q := Fin (Qred q);
  fadd := xadd; fsub := xsub; fmul := xlift2 Qmult; fdiv := xdiv;
  fmod := xmod; fneg := xneg; fltb := xltb; fleb := xleb;
  fcos := xcos; fsin := xsin; fatan2 := xatan2; fhypot := xhypot;
  fpi := xpi; finf := Inf; ftrunc := xtrunc
|}.

(** An oracle that answers [random.random()] with [unit i] at call [i],
    gives every range its lower end and every choice its first element,
    and reads [now i] on the clock. *)
Definition script (unit now : nat → Q) : @Oracle ExactFloat := {|
  rand_unit i := Fin (Qred (unit i));
  rand_uniform i a b := a;
  rand_int i a b := a;
  rand_index i n := 0%nat;
  clock i := Fin (Qred (now i))
|}.

Definition screen_1280x720 : Screen := {| WIDTH := 1280; HEIGHT := 720 |}.

(** * The vocabulary of the properties *)

Section Vocabulary.
Context `{Float}.

(** [wp m Q E s]: run from [s], [m] returns a value and a state in [Q], or
    raises in a state in [E]. *)
Definition wp {A} (m : M A) (Q : A → GameServer.t → Prop)
    (E : GameServer.t → Prop) (s : GameServer.t) : Prop :=
  match m s with
  | (Ok a, s') => Q a s'
  | (Raise _, s') => E s'
  end.

(** [keeps I m]: [I] survives [m], whether [m] returns or raises. *)
Definition keeps {A} (I : GameServer.t → Prop) (m : M A) : Prop :=
  ∀ s, I s → I (m s).2.

Definition set_calls (n : nat) (s : GameServer.t) : GameServer.t :=
  GameServer.mk (GameServer.clients s) (GameServer.game_state s)
    (GameServer.last_powerup_time s) (GameServer.difficulty s) n.

(** An invariant of the world alone is blind to the other fields. *)
Definition on_world (P : GameState.t → Prop) : GameServer.t → Prop :=
  λ s, P (GameServer.game_state s).

(** The bullets a payload brings, tagged with the sender. *)
Definition fired (player_id : string) (player_data : Player.t)
  : list Bullet.t :=
  to_bullet player_id <$> default [] (Player.new_bullets player_data).

(** Every bullet of the world can still pierce an enemy. *)
Definition live_bullets (g : GameState.t) : Prop :=
  Forall (λ b, 1 ≤ Bullet.penetration b) (GameState.bullets g).

(** The players after the award of a kill to [owner]. *)
Definition rewarded (d : Difficulty) (owner : string)
    (ps : list (string * Player.t)) : list (string * Player.t) :=
  match list_find (λ kv : string * Player.t, kv.1 = owner) ps with
  | Some (j, (id, player)) => <[j := (id, award_kill_xp d player)]> ps
  | None => ps
  end.

(** The player after a level-up from experience [xp1] over [threshold]. *)
Definition levelled (level0 xp1 threshold : Z) (player player' : Player.t)
  : Prop :=
  Player.level player' = Some (level0 + 1)
  ∧ Player.xp player' = Some (xp1 - threshold)
  ∧ Player.xp_to_next_level player' = Some (int_times_1_5 threshold)
  ∧ Player.upgrade_points player'
    = Some (default 0 (Player.upgrade_points player) + 1)
  ∧ Player.health player' = Player.health player
  ∧ Player.shield player' = Player.shield player
  ∧ Player.pos player' = Player.pos player.

End Vocabulary.

(** The loop over the bullets, reading each bullet from the live list at
    its place instead of from the copy [list(bullets)]; [n] is the number
    of bullets still to process. *)
Fixpoint bullets_loop_live `{Oracle} `{Screen} (i n : nat) : M unit :=
  match n with
  | O => mret tt
  | S n' =>
      bs ← gets GameState.bullets;
      match bs !! i with
      | Some b => i' ← bullet_step i b; bullets_loop_live i' n'
      | None => raise (ValueError "no bullet at this place")
      end
  end.

(** The play field leaves room for [randint(50, WIDTH - 50)] and
    [randint(50, HEIGHT - 50)]. *)
Definition screen_ok `{Screen} : Prop := 100 ≤ WIDTH ∧ 100 ≤ HEIGHT.

(** The reception as the specification words it: the latency is computed
    only when the snapshot's time stamp and the client's last send time
    stamp are both present.  [last_send] stands for the stamp of the
    client's last [send_data], [None] before the first; the code keeps no
    such value. *)
Definition receive_data_as_specified `{Float} (last_send : option float)
    (r : Received) (receive_time : float) (c : NetworkClient.t)
  : NetworkClient.t :=
  match r with
  | Closed | Failed | Undecodable | Unmeasured _ =>
      receive_data r receive_time c
  | Snapshot g =>
      NetworkClient.mk (NetworkClient.connected c) g receive_time
        (match GameState.send_time g, last_send with
         | Some st, Some _ =>
             ftrunc (fmul (fsub receive_time st) (of_int 1000))
         | _, _ => NetworkClient.ping c
         end)
  end.

(** * Scenarios

    Concrete worlds on the exact fragment, on a 1280 x 720 play field. *)

(** [random.random()] always answers 0.5: no random event happens.  The
    clock reads the number of oracle calls made. *)
Definition calm : @Oracle ExactFloat :=
  script (λ _, 1 # 2)%Q (λ i, inject_Z (Z.of_nat i)).

(** [random.random()] always answers 0: every random event happens. *)
Definition eager : @Oracle ExactFloat :=
  script (λ _, 0)%Q (λ i, inject_Z (Z.of_nat i)).

Definition at_xy (x y : Z) : xfloat * xfloat :=
  (Fin (inject_Z x), Fin (inject_Z y)).

Definition a_player (pos : xfloat * xfloat) (health : Z)
    (shield level xp threshold : option Z) : Player.t :=
  Player.mk pos (Fin 0) health shield level xp threshold
    None None None None None None None None None.

(** An enemy of radius 20 heading east at speed 2, 40 ticks from firing. *)
Definition an_enemy (pos : xfloat * xfloat) (health : Z) : Enemy.t :=
  Enemy.mk pos (Fin 0) (Fin 2) health 30 (Fin 40) normal_enemy (Fin 20).

Definition a_world (players : list (string * Player.t))
    (enemies : list Enemy.t) (bullets : list Bullet.t)
    (powerups : list Powerup.t) : GameServer.t :=
  GameServer.mk (dict_keys players)
    (GameState.mk players enemies bullets powerups (Some (Fin 0)) None)
    (Fin 0) normal 0.

Definition tick (o : @Oracle ExactFloat) (w : GameServer.t)
  : Res unit * GameServer.t :=
  @update_game_state ExactFloat o screen_1280x720 w.

(** The server a constructor leaves, under the calm oracle. *)
Definition fresh_server : GameServer.t :=
  (@GameServer_init ExactFloat calm screen_1280x720 (blank_server 0)).2.

(** A player with shield 10 and health 100, and an enemy's bullet of
    damage 15 that its next move brings 5 away from the player. *)
Definition shielded : Player.t :=
  a_player (at_xy 100 100) 100 (Some 10) (Some 1) (Some 0) (Some 100).
Definition shot (x : Z) : Bullet.t :=
  Bullet.mk (at_xy x 100) (Fin 0) 1 15 ENEMY_OWNER.
Definition shield_world (x : Z) : GameServer.t :=
  a_world [("p1", shielded)] [an_enemy (at_xy 500 500) 30] [shot x] [].

(** Player "p1" with no experience, an enemy at health 5, and a bullet of
    "p1" with damage 10 and penetration 1 that its next move brings into
    the enemy. *)
Definition novice : Player.t :=
  a_player (at_xy 100 100) 100 (Some 0) (Some 1) (Some 0) (Some 100).
Definition round (x : Z) : Bullet.t :=
  Bullet.mk (at_xy x 500) (Fin 0) 1 10 "p1".
Definition kill_world (ex bx : Z) (powerups : list Powerup.t)
  : GameServer.t :=
  a_world [("p1", novice)] [an_enemy (at_xy ex 500) 5] [round bx] powerups.

Definition five_powerups : list Powerup.t :=
  (λ y, Powerup.mk (at_xy 300 y) health_up (Fin 0))
    <$> [300; 350; 400; 450; 550].

(** A wounded player standing 10 away from a health powerup. *)
Definition wounded : Player.t :=
  a_player (at_xy 100 100) 50 (Some 0) (Some 1) (Some 0) (Some 100).
Definition medkit : Powerup.t := Powerup.mk (at_xy 100 110) health_up (Fin 0).
Definition pickup_world (bullets : list Bullet.t) : GameServer.t :=
  a_world [("p1", wounded)] [an_enemy (at_xy 500 500) 30] bullets [medkit].

(** A payload that fires one bullet of penetration -1. *)
Definition rogue_payload : Player.t :=
  Player.mk (at_xy 100 100) (Fin 0) 100 (Some 0) (Some 1) (Some 0)
    (Some 100) (Some [NewBullet.mk (Fin 100) (Fin 100) (Fin 0) (-1) 10])
    (Some 0) (Some (Fin 0)) None None None None None None.

(** A payload without new bullets. *)
Definition idle_payload : Player.t :=
  Player.mk (at_xy 100 100) (Fin 0) 100 (Some 0) (Some 1) (Some 0)
    (Some 100) (Some []) (Some 0) (Some (Fin 0)) None None None None None
    None.

(** A payload whose bullet, of damage 30, its first move brings into the
    enemies that the constructor has placed under the calm oracle. *)
Definition lethal_payload : Player.t :=
  Player.mk (at_xy 600 600) (Fin 0) 100 (Some 0) (Some 1) (Some 0)
    (Some 100) (Some [NewBullet.mk (Fin 40) (Fin 50) (Fin 0) 1 30])
    (Some 0) (Some (Fin 0)) None None None None None None.

(** What a scenario observes of a powerup: its type and its place. *)
Definition seen (p : @Powerup.t ExactFloat) : PowerupType * Z * Z :=
  (Powerup.type p, xtrunc (Powerup.pos p).1, xtrunc (Powerup.pos p).2).

(** The progression of a player: level, experience, threshold and
    upgrade points, each as the record has it. *)
Definition progress `{Float} (p : Player.t)
  : option Z * option Z * option Z * option Z :=
  (Player.level p, Player.xp p, Player.xp_to_next_level p,
   Player.upgrade_points p).

(** A player record that holds no key "level", at experience 90 of 100,
    an "xp" powerup 10 away from it, and a bullet in flight far from
    everything, so that the pass over the powerups runs. *)
Definition rookie : Player.t :=
  a_player (at_xy 100 100) 100 None None (Some 90) (Some 100).
Definition gem : Powerup.t := Powerup.mk (at_xy 100 110) xp_up (Fin 0).
Definition xp_world (player : Player.t) : GameServer.t :=
  a_world [("p1", player)] [an_enemy (at_xy 500 500) 30]
    [Bullet.mk (at_xy 900 300) (Fin 0) 1 10 "p1"] [gem].

(** * The local player

    The receive loop of [NetworkClient] as a whole, and the rules of
    [Game] for the local player: experience, powerups, the hit of an
    enemy's bullet, the frame of [update_multiplayer], the respawn.
    Health, shield and experience are integers here as on the server;
    the regeneration upgrade, which makes health fractional, is not
    modelled.  Sounds and particles are left out. *)

(** The loop [while self.connected] of [receive_data] over the reads the
    socket yields, each with the clock reading that follows it. *)
Fixpoint receive_loop `{Float} (reads : list (Received * float))
    (c : NetworkClient.t) : NetworkClient.t :=
  match reads with
  | [] => c
  | (r, t) :: rest =>
      if NetworkClient.connected c then receive_loop rest (receive_data r t c)
      else c
  end.

(** An entry of [self.active_effects]. *)
Module Effect.
Record t `{Float} := mk { active : bool; end_time : float }.
Arguments mk {_}.
End Effect.

(** The attributes of [Game] that the rules of the local player read or
    write.  [max_health] is [self.player_stats["max_health"]], [shield],
    [speed_boost] and [damage_boost] are the entries of
    [self.active_effects], [enemies] is [self.enemies], [calls] counts the
    readings of the clock and the random draws. *)
Module Game.
Record t `{Float} := mk {
  player_pos : float * float;
  player_angle : float;
  player_health : Z;
  player_shield : Z;
  player_xp : Z;
  player_level : Z;
  xp_to_next_level : Z;
  player_upgrade_points : Z;
  max_health : Z;
  shield : Effect.t;
  speed_boost : Effect.t;
  damage_boost : Effect.t;
  is_dead : bool;
  respawn_time : float;
  new_bullets : list NewBullet.t;
  multiplayer_mode : bool;
  difficulty : Difficulty;
  client : NetworkClient.t;
  enemies : list Enemy.t;
  calls : nat }.
Arguments mk {_}.
End Game.

Section LocalPlayer.
Context `{Oracle}.

Definition with_vitals (health shield : Z) (g : Game.t) : Game.t :=
  Game.mk (Game.player_pos g) (Game.player_angle g) health shield
    (Game.player_xp g) (Game.player_level g) (Game.xp_to_next_level g)
    (Game.player_upgrade_points g) (Game.max_health g) (Game.shield g)
    (Game.speed_boost g) (Game.damage_boost g) (Game.is_dead g)
    (Game.respawn_time g) (Game.new_bullets g) (Game.multiplayer_mode g)
    (Game.difficulty g) (Game.client g) (Game.enemies g) (Game.calls g).
Definition with_progress (xp level threshold points : Z) (g : Game.t)
  : Game.t :=
  Game.mk (Game.player_pos g) (Game.player_angle g) (Game.player_health g)
    (Game.player_shield g) xp level threshold points (Game.max_health g)
    (Game.shield g) (Game.speed_boost g) (Game.damage_boost g)
    (Game.is_dead g) (Game.respawn_time g) (Game.new_bullets g)
    (Game.multiplayer_mode g) (Game.difficulty g) (Game.client g)
    (Game.enemies g) (Game.calls g).
Definition with_effects (shield speed_boost damage_boost : Effect.t)
    (g : Game.t) : Game.t :=
  Game.mk (Game.player_pos g) (Game.player_angle g) (Game.player_health g)
    (Game.player_shield g) (Game.player_xp g) (Game.player_level g)
    (Game.xp_to_next_level g) (Game.player_upgrade_points g)
    (Game.max_health g) shield speed_boost damage_boost (Game.is_dead g)
    (Game.respawn_time g) (Game.new_bullets g) (Game.multiplayer_mode g)
    (Game.difficulty g) (Game.client g) (Game.enemies g) (Game.calls g).
Definition with_death (is_dead : bool) (respawn_time : float) (g : Game.t)
  : Game.t :=
  Game.mk (Game.player_pos g) (Game.player_angle g) (Game.player_health g)
    (Game.player_shield g) (Game.player_xp g) (Game.player_level g)
    (Game.xp_to_next_level g) (Game.player_upgrade_points g)
    (Game.max_health g) (Game.shield g) (Game.speed_boost g)
    (Game.damage_boost g) is_dead respawn_time (Game.new_bullets g)
    (Game.multiplayer_mode g) (Game.difficulty g) (Game.client g)
    (Game.enemies g) (Game.calls g).
Definition with_network (new_bullets : list NewBullet.t)
    (client : NetworkClient.t) (g : Game.t) : Game.t :=
  Game.mk (Game.player_pos g) (Game.player_angle g) (Game.player_health g)
    (Game.player_shield g) (Game.player_xp g) (Game.player_level g)
    (Game.xp_to_next_level g) (Game.player_upgrade_points g)
    (Game.max_health g) (Game.shield g) (Game.speed_boost g)
    (Game.damage_boost g) (Game.is_dead g) (Game.respawn_time g) new_bullets
    (Game.multiplayer_mode g) (Game.difficulty g) client (Game.enemies g)
    (Game.calls g).

(** A reading of the clock or a random draw is counted. *)
Definition count_call (g : Game.t) : Game.t :=
  Game.mk (Game.player_pos g) (Game.player_angle g) (Game.player_health g)
    (Game.player_shield g) (Game.player_xp g) (Game.player_level g)
    (Game.xp_to_next_level g) (Game.player_upgrade_points g)
    (Game.max_health g) (Game.shield g) (Game.speed_boost g)
    (Game.damage_boost g) (Game.is_dead g) (Game.respawn_time g)
    (Game.new_bullets g) (Game.multiplayer_mode g) (Game.difficulty g)
    (Game.client g) (Game.enemies g) (S (Game.calls g)).

(** [time.time()] in a method of [Game]. *)
Definition Game_time (g : Game.t) : float * Game.t :=
  (clock (Game.calls g), count_call g).

(** [Game.add_xp] *)
Definition add_xp (amount : Z) (g : Game.t) : Game.t :=
  let xp1 := Game.player_xp g + amount in
  let threshold := Game.xp_to_next_level g in
  if decide (threshold ≤ xp1) then
    with_progress (xp1 - threshold) (Game.player_level g + 1)
      (int_times_1_5 threshold) (Game.player_upgrade_points g + 1) g
  else
    with_progress xp1 (Game.player_level g) threshold
      (Game.player_upgrade_points g) g.

(** [Game.apply_powerup] *)
Definition Game_apply_powerup (ty : PowerupType) (g : Game.t) : Game.t :=
  match ty with
  | health_up =>
      with_vitals (Z.min (Game.player_health g + 25) (Game.max_health g))
        (Game.player_shield g) g
  | shield_up =>
      let g1 := with_vitals (Game.player_health g) 30 g in
      let (t, g2) := Game_time g1 in
      with_effects (Effect.mk true (fadd t (of_int 10))) (Game.speed_boost g2)
        (Game.damage_boost g2) g2
  | speed_up =>
      let (t, g1) := Game_time g in
      with_effects (Game.shield g1) (Effect.mk true (fadd t (of_int 5)))
        (Game.damage_boost g1) g1
  | damage_up =>
      let (t, g1) := Game_time g in
      with_effects (Game.shield g1) (Game.speed_boost g1)
        (Effect.mk true (fadd t (of_int 8))) g1
  | xp_up => add_xp 30 g
  end.

(** [Game.player_died], sounds and particles apart. *)
Definition player_died (g : Game.t) : Game.t :=
  let (t, g1) := Game_time (with_death true (Game.respawn_time g) g) in
  with_death true (fadd t (of_int 5)) g1.

(** What [move_bullets] does to the player that an enemy's bullet has
    reached. *)
Definition enemy_bullet_hit (g : Game.t) : Game.t :=
  let damage := enemy_damage (Game.difficulty g) in
  let g1 :=
    if decide (0 < Game.player_shield g) then
      let sh := Game.player_shield g - damage in
      if decide (sh < 0)
      then with_vitals (Game.player_health g + sh) 0 g
      else with_vitals (Game.player_health g) sh g
    else with_vitals (Game.player_health g - damage) (Game.player_shield g) g
  in
  if decide (Game.player_health g1 ≤ 0) then player_died g1 else g1.

(** The payload [update_multiplayer] builds. *)
Definition player_data (send_time : float) (g : Game.t) : Player.t :=
  Player.mk (Game.player_pos g) (Game.player_angle g) (Game.player_health g)
    (Some (Game.player_shield g)) (Some (Game.player_level g))
    (Some (Game.player_xp g)) (Some (Game.xp_to_next_level g))
    (Some (Game.new_bullets g)) (Some (Game.player_upgrade_points g))
    (Some send_time) None None None None None None.

(** The loop of [update_multiplayer] over the powerups of the cached
    snapshot. *)
Definition apply_cached_powerups (pus : list Powerup.t) (g : Game.t)
  : Game.t :=
  fold_left
    (λ g powerup,
       if fltb (dist (Powerup.pos powerup) (Game.player_pos g)) (of_int 25)
       then Game_apply_powerup (Powerup.type powerup) g else g)
    pus g.

(** [Game.update_multiplayer]; [sent] tells whether [socket.send]
    returns.  The result holds what went on the wire, if anything. *)
Definition update_multiplayer (sent : bool) (g : Game.t)
  : option Player.t * Game.t :=
  if Game.multiplayer_mode g then
    let (t0, g1) := Game_time g in
    let data := player_data t0 g1 in
    let (t1, g2) := if NetworkClient.connected (Game.client g1)
                    then Game_time g1 else (t0, g1) in
    let (wire, client) := send_data t1 sent data (Game.client g2) in
    let g3 := with_network [] client g2 in
    (wire,
     apply_cached_powerups
       (GameState.powerups (NetworkClient.game_state (Game.client g3))) g3)
  else (None, g).

(** [k] frames of [update_multiplayer] with no snapshot arriving. *)
Fixpoint frames (k : nat) (sent : bool) (g : Game.t) : Game.t :=
  match k with
  | O => g
  | S k' => frames k' sent (update_multiplayer sent g).2
  end.

End LocalPlayer.

(** What no powerup changes of the local player. *)
Definition untouched_by_powerups `{Float} (g g' : Game.t) : Prop :=
  Game.player_pos g' = Game.player_pos g
  ∧ Game.max_health g' = Game.max_health g
  ∧ Game.new_bullets g' = Game.new_bullets g
  ∧ Game.multiplayer_mode g' = Game.multiplayer_mode g
  ∧ Game.client g' = Game.client g.

Section Respawn.
Context `{Oracle} `{Screen}.

(** Some enemy stands within 200 of [pos]: the inner loop of
    [check_respawn]. *)
Definition unsafe (pos : float * float) (es : list Enemy.t) : bool :=
  existsb (λ e, fltb (dist pos (Enemy.pos e)) (of_int 200)) es.

(** [random.randint(a, b)] in a method of [Game]. *)
Definition Game_randint (a b : Z) (g : Game.t) : Res Z * Game.t :=
  if decide (b < a) then (Raise (ValueError "empty range"), g)
  else (Ok (rand_int (Game.calls g) a b), count_call g).

Definition with_player_pos (pos : float * float) (g : Game.t) : Game.t :=
  Game.mk pos (Game.player_angle g) (Game.player_health g)
    (Game.player_shield g) (Game.player_xp g) (Game.player_level g)
    (Game.xp_to_next_level g) (Game.player_upgrade_points g)
    (Game.max_health g) (Game.shield g) (Game.speed_boost g)
    (Game.damage_boost g) (Game.is_dead g) (Game.respawn_time g)
    (Game.new_bullets g) (Game.multiplayer_mode g) (Game.difficulty g)
    (Game.client g) (Game.enemies g) (Game.calls g).

(** The loop [while not safe_respawn and tries < 10] of [check_respawn],
    with [left] tries left. *)
Fixpoint respawn_tries (left : nat) (g : Game.t) : Res unit * Game.t :=
  match left with
  | O => (Ok tt, g)
  | S left' =>
      match Game_randint 100 (WIDTH - 100) g with
      | (Raise e, g1) => (Raise e, g1)
      | (Ok x, g1) =>
          match Game_randint 100 (HEIGHT - 100) g1 with
          | (Raise e, g2) => (Raise e, g2)
          | (Ok y, g2) =>
              let g3 := with_player_pos (of_int x, of_int y) g2 in
              if unsafe (Game.player_pos g3) (Game.enemies g3)
              then respawn_tries left' g3 else (Ok tt, g3)
          end
      end
  end.

(** [Game.check_respawn] *)
Definition check_respawn (g : Game.t) : Res unit * Game.t :=
  if Game.is_dead g then
    let (t, g1) := Game_time g in
    if fleb (Game.respawn_time g1) t then
      respawn_tries 10
        (with_vitals (Game.max_health g1) 0
           (with_death false (Game.respawn_time g1) g1))
    else (Ok tt, g1)
  else (Ok tt, g).

(** The play field leaves room for [randint(100, WIDTH - 100)] and
    [randint(100, HEIGHT - 100)]. *)
Definition room_to_respawn : Prop := 200 ≤ WIDTH ∧ 200 ≤ HEIGHT.

End Respawn.

(** * The end of a handler *)

Section HandlerEnd.
Context `{Oracle}.

(** How the last round of a handler's loop goes.  [Truncated data] is a
    payload that unpickles to a record like [data] whose "new_bullets"
    goes on, after the entries of [data], with an entry of fewer than
    five elements: the record is stored and the entries before the short
    one are appended before [bullet[2]], [bullet[3]] or [bullet[4]]
    raises.  [Unsent data] is a payload that is merged and whose
    snapshot [socket.send] fails to send. *)
Inductive Ending :=
| Hangup                             (* empty read *)
| Garbled                            (* [recv] or [pickle.loads] raises *)
| Truncated (data : Player.t)
| Unsent (data : Player.t).

(** What the last round does before its exception, if any, is caught and
    the loop left. *)
Definition last_round (player_id : string) (e : Ending) : M unit :=
  match e with
  | Hangup | Garbled => mret tt
  | Truncated data =>
      modify (λ g, set_players
                     (dict_set player_id data (GameState.players g)) g) ;;
      for_each (default [] (Player.new_bullets data))
        (λ bullet, append_bullet (to_bullet player_id bullet))
  | Unsent data => handle_message player_id data ;; mret tt
  end.

(** The end of [handle_client]: the last round, then the [finally]
    block. *)
Definition end_of_handler (player_id : string) (e : Ending) : M unit :=
  last_round player_id e ;; disconnect player_id.

(** The bullets that the last round has put into the world. *)
Definition left_behind (player_id : string) (e : Ending) : list Bullet.t :=
  match e with
  | Hangup | Garbled => []
  | Truncated data | Unsent data => fired player_id data
  end.

End HandlerEnd.

(** * The vocabulary of the further properties *)

(** [current_time - powerup["creation_time"] > 30] *)
Definition expired `{Float} (current_time : float) (pu : Powerup.t) : bool :=
  fltb (of_int 30) (fsub current_time (Powerup.creation_time pu)).

(** What the enemy phase of a tick leaves of an enemy as it found it. *)
Definition enemy_stats `{Float} (e : Enemy.t)
  : Z * Z * float * EnemyType * float :=
  (Enemy.health e, Enemy.max_health e, Enemy.speed e, Enemy.type e,
   Enemy.size e).

(** A bullet as an enemy fires it at difficulty [d]. *)
Definition enemy_fired `{Float} (d : Difficulty) (b : Bullet.t) : Prop :=
  Bullet.owner b = ENEMY_OWNER ∧ Bullet.penetration b = 1
  ∧ Bullet.damage b = enemy_damage d.

(** Where an enemy stands after its move: its speed along its angle. *)
Definition advanced `{Float} (e : Enemy.t) : float * float :=
  (fadd (Enemy.pos e).1 (fmul (Enemy.speed e) (fcos (Enemy.angle e))),
   fadd (Enemy.pos e).2 (fmul (Enemy.speed e) (fsin (Enemy.angle e)))).

(** The fire timer runs out on this turn. *)
Definition fires_now `{Float} (e : Enemy.t) : bool :=
  fleb (fsub (Enemy.fire_timer e) (of_int 1)) (of_int 0).

(** The enemy [e'] that a turn makes of [e]: moved, with the fields of
    [enemy_stats] as they were, and its fire timer one lower, or, when
    that is 0 or below, reset to [ENEMY_FIRE_RATE] times a draw between
    0.8 and 1.2. *)
Definition turned `{Oracle} (e e' : Enemy.t) : Prop :=
  Enemy.pos e' = advanced e
  ∧ enemy_stats e' = enemy_stats e
  ∧ if fires_now e
    then ∃ n, Enemy.fire_timer e'
              = fmul (of_int ENEMY_FIRE_RATE)
                  (rand_uniform n (flit (8 # 10)) (flit (12 # 10)))
    else Enemy.fire_timer e' = fsub (Enemy.fire_timer e) (of_int 1).

(** A bullet as the enemy [e] fires it on its turn, at difficulty [d]:
    from where the enemy stands after its move. *)
Definition fired_by `{Float} (d : Difficulty) (e : Enemy.t) (b : Bullet.t)
  : Prop :=
  enemy_fired d b ∧ Bullet.pos b = advanced e ∧ fires_now e = true.

(** No identifier stands twice among the players or in the registry of
    clients. *)
Definition ids_unique_in `{Float} (s : GameServer.t) : Prop :=
  NoDup (dict_keys (GameState.players (GameServer.game_state s)))
  ∧ NoDup (GameServer.clients s).

(** The exceptions that the data of the world can cause in a tick: a
    [list.remove] that misses its element, a [randint] on an empty range,
    a record without the key "level". *)
Definition tick_errors : list Exn :=
  [ValueError "list.remove(x): x not in list"; ValueError "empty range";
   KeyError "level"].

(** Every player record has the key "level", as every payload of the
    game's client has. *)
Definition has_level `{Float} (g : GameState.t) : Prop :=
  Forall (λ kv : string * Player.t, is_Some (Player.level kv.2))
    (GameState.players g).

(** Some player of [ps] stands within 25 of the powerup. *)
Definition in_reach `{Float} (ps : list (string * Player.t))
    (pu : Powerup.t) : Prop :=
  is_Some (first_player_within 25 (Powerup.pos pu) ps).

(** Where the players stand. *)
Definition positions `{Float} (ps : list (string * Player.t))
  : list (float * float) :=
  (λ kv, Player.pos kv.2) <$> ps.

(** Where a player stands and how it fares, under its identifier. *)
Definition vitals `{Float} (kv : string * Player.t)
  : string * (float * float) * Z * option Z :=
  (kv.1, Player.pos kv.2, Player.health kv.2, Player.shield kv.2).

(** A read that ends the loop: the peer closed, or an exception. *)
Definition ends_reception `{Float} (r : Received) : Prop :=
  match r with
  | Snapshot _ => False
  | Unmeasured g => is_Some (GameState.send_time g)
  | _ => True
  end.

(** The distances the search of an enemy at [pos] compares: infinity and
    the distance of every player. *)
Definition distances `{Float} (pos : float * float)
    (ps : list (string * Player.t)) : list float :=
  finf :: ((λ kv, dist (Player.pos kv.2) pos) <$> ps).

(** [<] orders the values of [D]: no value is below itself, and below is
    transitive.  The comparison of floating-point numbers is such an
    order. *)
Definition ordered_by_lt `{Float} (D : list float) : Prop :=
  Forall (λ a, fltb a a = false) D
  ∧ Forall (λ a, Forall (λ b, Forall (λ c,
      fltb a b = true → fltb b c = true → fltb a c = true) D) D) D.

(** * Further scenarios *)

(** The module's globals before any display is opened:
    [WIDTH, HEIGHT = 0, 0]. *)
Definition no_display : Screen := {| WIDTH := 0; HEIGHT := 0 |}.

(** A player's bullet of damage 10 next to an enemy at health 30. *)
Definition skirmish : GameServer.t :=
  a_world [("p1", novice)] [an_enemy (at_xy 470 500) 30] [round 460] [].

(** Two players, 50 and 30 away from the point (100, 100). *)
Definition two_players : list (string * Player.t) :=
  [("p1", a_player (at_xy 150 100) 100 None None None None);
   ("p2", a_player (at_xy 100 130) 100 None None None None)].

(** A local player in multiplayer mode, wounded, 10 away from the health
    powerup its cache holds. *)
Definition a_game : Game.t :=
  Game.mk (at_xy 100 100) (Fin 0) 50 0 0 1 100 3 100
    (Effect.mk false (Fin 0)) (Effect.mk false (Fin 0))
    (Effect.mk false (Fin 0)) false (Fin 0)
    [NewBullet.mk (Fin 125) (Fin 100) (Fin 0) 1 10] true normal
    (NetworkClient.mk true (GameState.mk [] [] [] [medkit] None None)
       (Fin 0) 0)
    [] 0.

(** A local player that died at time 0, with an enemy at the place every
    scripted draw leads to. *)
Definition a_dead_game : Game.t :=
  Game.mk (at_xy 300 300) (Fin 0) 0 0 40 2 150 1 120
    (Effect.mk false (Fin 0)) (Effect.mk false (Fin 0))
    (Effect.mk false (Fin 0)) true (Fin 0) [] false normal
    (NetworkClient.mk false (GameState.mk [] [] [] [] None None) (Fin 0) 0)
    [an_enemy (at_xy 100 100) 30] 0.

(** Every enemy of the world has positive health. *)
Definition all_alive `{Float} (g : GameState.t) : Prop :=
  Forall (λ e, 0 < Enemy.health e) (GameState.enemies g).

(** Where the players stand: identifier and position of every player, in
    the order of [players]. *)
Definition standing `{Float} (g : GameState.t)
  : list (string * (float * float)) :=
  (λ kv, (kv.1, Player.pos kv.2)) <$> GameState.players g.

(** * Reasoning about computations of the server *)

Section Logic.
Context `{Float}.

Lemma returned {A} (m : M A) (a : A) s :
  (m s).1 = Ok a → m s = (Ok a, (m s).2).
Proof. destruct (m s) as [r s']. cbn. by intros ->. Qed.

Lemma wp_ret {A} (a : A) Q E s : Q a s → wp (mret a) Q E s.
Proof. done. Qed.

Lemma wp_bind {A B} (m : M A) (f : A → M B) Q E s :
  wp m (λ a s', wp (f a) Q E s') E s → wp (m ≫= f) Q E s.
Proof.
  unfold wp, mbind, M_bind. destruct (m s) as [[a|e] s']; done.
Qed.

Lemma wp_raise {A} e (Q : A → _) E s : E s → wp (raise e) Q E s.
Proof. done. Qed.

Lemma wp_get Q E s : Q s s → wp get Q E s.
Proof. done. Qed.

Lemma wp_gets {A} (f : GameState.t → A) Q E s :
  Q (f (GameServer.game_state s)) s → wp (gets f) Q E s.
Proof. done. Qed.

Lemma wp_modify f Q E s : Q tt (modify f s).2 → wp (modify f) Q E s.
Proof. done. Qed.

Lemma wp_set_clients c Q E s :
  Q tt (set_clients c s).2 → wp (set_clients c) Q E s.
Proof. done. Qed.

Lemma wp_set_last_powerup_time t Q E s :
  Q tt (set_last_powerup_time t s).2 → wp (set_last_powerup_time t) Q E s.
Proof. done. Qed.

Lemma wp_next_call Q E s :
  Q (GameServer.calls s) (set_calls (S (GameServer.calls s)) s) →
  wp next_call Q E s.
Proof. done. Qed.

Lemma wp_mono {A} (m : M A) (Q Q' : A → _) (E E' : _ → Prop) s :
  wp m Q E s → (∀ a s', Q a s' → Q' a s') → (∀ s', E s' → E' s') →
  wp m Q' E' s.
Proof.
  unfold wp. destruct (m s) as [[a|e] s']; auto.
Qed.

Lemma wp_for_each {A} (Inv : GameServer.t → Prop) (l : list A) body Q E s :
  Inv s →
  (∀ x s', x ∈ l → Inv s' → wp (body x) (λ _, Inv) E s') →
  (∀ s', Inv s' → Q tt s') →
  wp (for_each l body) Q E s.
Proof.
  intros HI Hbody HQ. revert s HI.
  induction l as [|x l IH]; intros s HI; simpl.
  - apply wp_ret; auto.
  - apply wp_bind.
    eapply wp_mono; [apply Hbody; [left | done] | | done].
    intros [] s' HI'. apply IH; [|done].
    intros y s'' Hy. apply Hbody. by right.
Qed.

Lemma keeps_wp {A} I (m : M A) :
  keeps I m ↔ ∀ s, I s → wp m (λ _, I) I s.
Proof.
  unfold keeps, wp. split; intros Hk s HI; specialize (Hk s HI);
    destruct (m s) as [[a|e] s']; done.
Qed.

Lemma keeps_run {A} I (m : M A) s :
  keeps I m → I s → wp m (λ _, I) I s.
Proof. intros Hk. by apply keeps_wp. Qed.

Lemma keeps_ret {A} I (a : A) : keeps I (mret a).
Proof. by intros s. Qed.

Lemma keeps_raise {A} I e : keeps I (raise (A:=A) e).
Proof. by intros s. Qed.

Lemma keeps_bind {A B} I (m : M A) (f : A → M B) :
  keeps I m → (∀ a, keeps I (f a)) → keeps I (m ≫= f).
Proof.
  intros Hm Hf s HI. specialize (Hm s HI).
  unfold mbind, M_bind. destruct (m s) as [[a|e] s']; simpl in *; [|done].
  by apply Hf.
Qed.

Lemma keeps_get I : keeps I get.
Proof. by intros s. Qed.

Lemma keeps_gets {A} I (f : GameState.t → A) : keeps I (gets f).
Proof. by intros s. Qed.

Lemma keeps_for_each {A} I (l : list A) body :
  (∀ x, x ∈ l → keeps I (body x)) → keeps I (for_each l body).
Proof.
  induction l as [|x l IH]; intros Hb; simpl.
  - apply keeps_ret.
  - apply keeps_bind; [apply Hb; left|].
    intros _. apply IH. intros y Hy. apply Hb. by right.
Qed.

Lemma keeps_next_call P : keeps (on_world P) next_call.
Proof. by intros s. Qed.

Lemma keeps_set_last_powerup_time P t :
  keeps (on_world P) (set_last_powerup_time t).
Proof. by intros s. Qed.

Lemma keeps_set_clients P c : keeps (on_world P) (set_clients c).
Proof. by intros s. Qed.

Lemma keeps_modify P f :
  (∀ g, P g → P (f g)) → keeps (on_world P) (modify f).
Proof. intros Hf s. apply Hf. Qed.

End Logic.

(** * Lemmas on the containers *)

Section Containers.
Context {A : Type} `{EqDecision A}.

Lemma list_remove_Some (x : A) (l l' : list A) :
  list_remove x l = Some l' →
  ∃ i, l !! i = Some x ∧ l' = delete i l
       ∧ ∀ j y, l !! j = Some y → (j < i)%nat → y ≠ x.
Proof.
  unfold list_remove. intros Hr.
  destruct (list_find (λ y, y = x) l) as [[i y]|] eqn:Hf; [|done].
  apply list_find_Some in Hf as (Hi & -> & Hlt).
  exists i. by simplify_eq.
Qed.

Lemma list_remove_None (x : A) (l : list A) :
  list_remove x l = None ↔ x ∉ l.
Proof.
  unfold list_remove.
  destruct (list_find (λ y, y = x) l) as [[i y]|] eqn:Hf.
  - apply list_find_Some in Hf as (Hi & -> & _).
    split; [done|]. intros []. by eapply list_elem_of_lookup_2.
  - split; [|done]. intros _ Hin.
    eapply list_find_None in Hf. rewrite Forall_forall in Hf.
    exact (Hf x (proj1 (list_elem_of_In _ _) Hin) eq_refl).
Qed.

Lemma list_remove_length (x : A) (l l' : list A) :
  list_remove x l = Some l' → S (length l') = length l.
Proof.
  intros (i & Hi & -> & _)%list_remove_Some.
  rewrite length_delete by eauto.
  apply lookup_lt_Some in Hi. lia.
Qed.

Lemma list_remove_Forall (P : A → Prop) (x : A) (l l' : list A) :
  list_remove x l = Some l' → Forall P l → Forall P l'.
Proof.
  intros (i & Hi & -> & _)%list_remove_Some Hall.
  by apply Forall_delete.
Qed.

(** Removing the only element that fails [P] leaves a list that satisfies
    it: the element removed is the one at [i]. *)
Lemma list_remove_restores (P : A → Prop) (x : A) (i : nat) (l l' : list A) :
  Forall P l → ¬ P x →
  list_remove x (<[i := x]> l) = Some l' → Forall P l'.
Proof.
  intros Hall Hx (k & Hk & -> & _)%list_remove_Some.
  assert (k = i) as ->.
  { destruct (decide (k = i)) as [|Hne]; [done|].
    rewrite list_lookup_insert_ne in Hk by done.
    exfalso. apply Hx. eapply Forall_lookup_1; eauto. }
  rewrite Forall_lookup in Hall |- *. intros j y.
  rewrite list_lookup_delete. case_match.
  - rewrite list_lookup_insert_ne by lia. apply Hall.
  - rewrite list_lookup_insert_ne by lia. apply Hall.
Qed.

End Containers.

Section Dicts.
Context {V : Type}.

Lemma dict_keys_store (d : list (string * V)) (j : nat) (k : string)
    (v v' : V) :
  d !! j = Some (k, v) → dict_keys (<[j := (k, v')]> d) = dict_keys d.
Proof.
  unfold dict_keys. intros Hj.
  rewrite list_fmap_insert. simpl.
  apply list_insert_id. by rewrite list_lookup_fmap, Hj.
Qed.

Lemma dict_get_set_eq (k : string) (v : V) d :
  dict_get k (dict_set k v d) = Some v.
Proof.
  induction d as [|[k' v'] d IH]; csimpl.
  - by rewrite decide_True.
  - destruct (decide (k' = k)); csimpl.
    + by rewrite decide_True.
    + by rewrite decide_False.
Qed.

Lemma dict_get_set_ne (k k0 : string) (v : V) d :
  k ≠ k0 → dict_get k0 (dict_set k v d) = dict_get k0 d.
Proof.
  intros Hne. induction d as [|[k' v'] d IH]; csimpl.
  - by rewrite decide_False.
  - destruct (decide (k' = k)) as [->|]; csimpl.
    + by rewrite !decide_False.
    + destruct (decide (k' = k0)); [done|]. apply IH.
Qed.

Lemma dict_set_set (k : string) (v v' : V) d :
  dict_set k v' (dict_set k v d) = dict_set k v' d.
Proof.
  induction d as [|[k' w] d IH]; csimpl.
  - by rewrite decide_True.
  - destruct (decide (k' = k)) as [->|]; csimpl.
    + by rewrite decide_True.
    + rewrite decide_False by done. by rewrite IH.
Qed.

Lemma dict_keys_set (k : string) (v : V) d :
  dict_keys (dict_set k v d)
  = if decide (k ∈ dict_keys d) then dict_keys d else dict_keys d ++ [k].
Proof.
  unfold dict_keys. induction d as [|[k' w] d IH]; csimpl.
  - destruct (decide (k ∈ [])) as [Hin|]; [|done].
    by apply elem_of_nil in Hin.
  - destruct (decide (k' = k)) as [->|Hne]; csimpl.
    + destruct (decide (k ∈ k :: d.*1)) as [|Hnin]; [done|].
      exfalso. apply Hnin. left.
    + rewrite IH.
      destruct (decide (k ∈ d.*1)) as [Hin|Hnin];
        destruct (decide (k ∈ k' :: d.*1)) as [Hin'|Hnin']; try done.
      * exfalso. apply Hnin'. by right.
      * apply elem_of_cons in Hin' as [?|?]; [by subst|done].
Qed.

Lemma dict_keys_del_subseteq (k : string) (d : list (string * V)) :
  dict_keys (dict_del k d) ⊆ dict_keys d.
Proof.
  unfold dict_keys. induction d as [|[k' w] d IH]; csimpl; [done|].
  destruct (decide (k' = k)); csimpl.
  - intros x Hx. by right.
  - intros x [->|Hx]%elem_of_cons; [left|right; by apply IH].
Qed.

Lemma dict_keys_del_other (k k0 : string) (d : list (string * V)) :
  k0 ≠ k → k0 ∈ dict_keys d → k0 ∈ dict_keys (dict_del k d).
Proof.
  unfold dict_keys. intros Hne. induction d as [|[k' w] d IH]; csimpl; [done|].
  intros [->|Hin]%elem_of_cons.
  - rewrite decide_False by done. left.
  - destruct (decide (k' = k)); [done|]. right. by apply IH.
Qed.

Lemma dict_find_key (d : list (string * V)) (k : string) j kv :
  list_find (λ kv : string * V, kv.1 = k) d = Some (j, kv) →
  d !! j = Some kv ∧ kv.1 = k.
Proof. intros (Hj & Hk & _)%list_find_Some. done. Qed.

End Dicts.

(** * Invariants of the tick *)

(** Decomposes a goal [keeps I m] along the structure of [m]. *)
Ltac keeps_step :=
  lazymatch goal with
  | |- keeps _ (mret _) => apply keeps_ret
  | |- keeps _ (raise _) => apply keeps_raise
  | |- keeps _ get => apply keeps_get
  | |- keeps _ (gets _) => apply keeps_gets
  | |- keeps _ next_call => apply keeps_next_call
  | |- keeps _ (set_last_powerup_time _) => apply keeps_set_last_powerup_time
  | |- keeps _ (set_clients _) => apply keeps_set_clients
  | |- keeps _ (mbind _ _) => apply keeps_bind; [|intros ?]
  | |- keeps _ (for_each _ _) => apply keeps_for_each; intros ? ?
  | |- keeps _ (if ?c then _ else _) => destruct c
  | |- keeps _ (match ?x with _ => _ end) => destruct x
  | |- keeps _ (let _ := _ in _) => cbv zeta
  end.

Ltac keeps_tac :=
  repeat first [ assumption | solve [eauto with keeps] | keeps_step ].

Create HintDb keeps discriminated.

(** Decomposes [keeps (on_world P) m] for a [P] that the writes of [m]
    cannot reach: after each write [P] holds as it held before. *)
Ltac keeps_apart :=
  repeat first
    [ progress keeps_tac
    | apply keeps_modify; intros ? ?; assumption
    | progress unfold store_bullet, store_enemy, store_player, append_bullet,
        append_powerup, remove_powerup, remove_enemy, remove_bullet,
        remove_bullet_if_present, drop_powerup, kill_enemy, apply_powerup,
        pick_up, powerup_pass, bullet_vs_players, bullet_vs_enemies,
        bullet_step ].

Section Oracles.
Context `{Oracle} `{Screen}.
Variable P : GameState.t → Prop.

Lemma keeps_random_random : keeps (on_world P) random_random.
Proof. unfold random_random. keeps_tac. Qed.

Lemma keeps_random_uniform a b : keeps (on_world P) (random_uniform a b).
Proof. unfold random_uniform. keeps_tac. Qed.

Lemma keeps_random_randint a b : keeps (on_world P) (random_randint a b).
Proof. unfold random_randint. keeps_tac. Qed.

Lemma keeps_random_choice {A} (d : A) l :
  keeps (on_world P) (random_choice d l).
Proof. unfold random_choice. keeps_tac. Qed.

Lemma keeps_time_time : keeps (on_world P) time_time.
Proof. unfold time_time. keeps_tac. Qed.

Hint Resolve keeps_random_random keeps_random_uniform keeps_random_randint
  keeps_random_choice keeps_time_time : keeps.

Lemma keeps_spawn_enemy d : keeps (on_world P) (spawn_enemy d).
Proof. unfold spawn_enemy. keeps_tac. Qed.

End Oracles.

Global Hint Resolve keeps_random_random keeps_random_uniform
  keeps_random_randint keeps_random_choice keeps_time_time
  keeps_spawn_enemy : keeps.

Section Spawning.
Context `{Oracle} `{Screen}.

Lemma spawn_enemy_world d s :
  GameServer.game_state (spawn_enemy d s).2 = GameServer.game_state s.
Proof.
  by apply (keeps_spawn_enemy (λ g, g = GameServer.game_state s) d s).
Qed.

Lemma spawn_enemy_returns d s :
  screen_ok → ∃ e, (spawn_enemy d s).1 = Ok e.
Proof.
  intros [Hw Hh]. unfold spawn_enemy, random_randint.
  rewrite !decide_False by (unfold ENEMY_FIRE_RATE; lia).
  eexists. reflexivity.
Qed.

Lemma spawn_enemy_Ok d s e s' :
  spawn_enemy d s = (Ok e, s') → screen_ok.
Proof.
  unfold spawn_enemy, random_randint, screen_ok. intros Hs.
  destruct (decide (WIDTH - 50 < 50)); [done|].
  destruct (decide (HEIGHT - 50 < 50)); [done|]. lia.
Qed.

End Spawning.

(** The oracle calls and [spawn_enemy] change the call counter only. *)
Section OracleStates.
Context `{Oracle} `{Screen}.

Lemma set_calls_id (s : GameServer.t) : set_calls (GameServer.calls s) s = s.
Proof. by destruct s. Qed.

Lemma set_calls_twice n m (s : GameServer.t) :
  set_calls n (set_calls m s) = set_calls n s.
Proof. done. Qed.

Lemma wp_random_random Q E s :
  Q (rand_unit (GameServer.calls s)) (set_calls (S (GameServer.calls s)) s) →
  wp random_random Q E s.
Proof. done. Qed.

Lemma wp_random_uniform a b Q E s :
  Q (rand_uniform (GameServer.calls s) a b)
    (set_calls (S (GameServer.calls s)) s) →
  wp (random_uniform a b) Q E s.
Proof. done. Qed.

Lemma wp_time_time Q E s :
  Q (clock (GameServer.calls s)) (set_calls (S (GameServer.calls s)) s) →
  wp time_time Q E s.
Proof. done. Qed.

Lemma wp_random_choice {A} (d : A) l Q E s :
  (∀ x, x ∈ d :: l → Q x (set_calls (S (GameServer.calls s)) s)) →
  wp (random_choice d l) Q E s.
Proof.
  intros HQ. apply HQ. apply list_elem_of_In, nth_In.
  apply Nat.mod_upper_bound. done.
Qed.

Lemma wp_random_randint a b Q E s :
  (¬ b < a →
   Q (rand_int (GameServer.calls s) a b)
     (set_calls (S (GameServer.calls s)) s)) →
  (b < a → E s) →
  wp (random_randint a b) Q E s.
Proof.
  intros HQ HE. unfold random_randint.
  destruct (decide (b < a)); [by apply HE|]. by apply HQ.
Qed.

Lemma wp_spawn_enemy d Q E s :
  (∀ e n, Enemy.health e = enemy_health d → Q e (set_calls n s)) →
  (¬ screen_ok → ∀ n, E (set_calls n s)) →
  wp (spawn_enemy d) Q E s.
Proof.
  intros HQ HE. unfold spawn_enemy.
  apply wp_bind, wp_random_randint.
  2:{ intros ?. rewrite <- set_calls_id. apply HE. unfold screen_ok. lia. }
  intros ?. apply wp_bind, wp_random_randint.
  2:{ intros ?. apply HE. unfold screen_ok. lia. }
  intros ?. apply wp_bind, wp_random_uniform.
  apply wp_bind, wp_random_uniform.
  apply wp_bind, wp_random_randint; [|unfold ENEMY_FIRE_RATE; lia].
  intros _. apply wp_bind, wp_random_choice. intros ty _.
  apply wp_bind, wp_random_uniform.
  apply wp_ret. by apply HQ.
Qed.

Lemma wp_keeps {A} I (m : M A) Q E s :
  keeps I m → I s → (∀ a s', I s' → Q a s') → (∀ s', I s' → E s') →
  wp m Q E s.
Proof.
  intros Hk HI HQ HE. specialize (Hk s HI). unfold wp.
  destruct (m s) as [[a|e] s']; auto.
Qed.

End OracleStates.

(** Runs the head of a computation under [wp]. *)
Ltac wp_step :=
  lazymatch goal with
  | |- wp (mret _) _ _ _ => apply wp_ret
  | |- wp (raise _) _ _ _ => apply wp_raise
  | |- wp get _ _ _ => apply wp_get
  | |- wp (gets _) _ _ _ => apply wp_gets
  | |- wp (modify _) _ _ _ => apply wp_modify
  | |- wp next_call _ _ _ => apply wp_next_call
  | |- wp (set_clients _) _ _ _ => apply wp_set_clients
  | |- wp (set_last_powerup_time _) _ _ _ => apply wp_set_last_powerup_time
  | |- wp (mbind _ _) _ _ _ => apply wp_bind
  | |- wp random_random _ _ _ => apply wp_random_random
  | |- wp (random_uniform _ _) _ _ _ => apply wp_random_uniform
  | |- wp time_time _ _ _ => apply wp_time_time
  | |- wp (random_choice _ _) _ _ _ => apply wp_random_choice; intros ? ?
  | |- wp (store_bullet _ _) _ _ _ => apply wp_modify
  | |- wp (store_enemy _ _) _ _ _ => apply wp_modify
  | |- wp (store_player _ _ _) _ _ _ => apply wp_modify
  | |- wp (append_bullet _) _ _ _ => apply wp_modify
  | |- wp (append_powerup _) _ _ _ => apply wp_modify
  | |- wp (let _ := _ in _) _ _ _ => cbv zeta
  end; cbv beta.

(** ** Properties of the players and the enemies

    A property [P] of the world that ignores bullets, powerups and time
    stamps, survives an enemy or a player being rewritten in place, and
    survives the replacement of a removed enemy by a fresh one, survives a
    tick.  Between the removal and the respawn [spawn_enemy] may raise, on
    a play field too small; [P] then has to hold without the enemy. *)

Section Shape.
Context `{Oracle} `{Screen}.
Variable P : GameState.t → Prop.
Hypothesis P_send_time : ∀ g t, P g → P (set_send_time t g).
Hypothesis P_bullets : ∀ g v, P g → P (set_bullets v g).
Hypothesis P_powerups : ∀ g v, P g → P (set_powerups v g).
Hypothesis P_store_enemy : ∀ g i e,
  P g → P (set_enemies (<[i := e]> (GameState.enemies g)) g).
Hypothesis P_store_player : ∀ g j id p p',
  GameState.players g !! j = Some (id, p) →
  P g → P (set_players (<[j := (id, p')]> (GameState.players g)) g).
Hypothesis P_kill : ∀ g e es',
  list_remove e (GameState.enemies g) = Some es' → P g →
  (∀ fresh, P (set_enemies (es' ++ [fresh]) g))
  ∧ (screen_ok ∨ P (set_enemies es' g)).

Local Abbreviation I := (on_world P).

Lemma shape_store_bullet i b : keeps I (store_bullet i b).
Proof. apply keeps_modify. auto. Qed.

Lemma shape_append_bullet b : keeps I (append_bullet b).
Proof. apply keeps_modify. auto. Qed.

Lemma shape_append_powerup p : keeps I (append_powerup p).
Proof. apply keeps_modify. auto. Qed.

Lemma shape_store_enemy i e : keeps I (store_enemy i e).
Proof. apply keeps_modify. auto. Qed.

Lemma shape_set_send_time t : keeps I (modify (set_send_time t)).
Proof. apply keeps_modify. auto. Qed.

Lemma shape_set_bullets v : keeps I (modify (set_bullets v)).
Proof. apply keeps_modify. auto. Qed.

Lemma shape_set_powerups v : keeps I (modify (set_powerups v)).
Proof. apply keeps_modify. auto. Qed.

Hint Resolve shape_store_bullet shape_append_bullet shape_append_powerup
  shape_store_enemy shape_set_send_time shape_set_bullets
  shape_set_powerups : keeps.

Lemma shape_remove_powerup pu : keeps I (remove_powerup pu).
Proof. unfold remove_powerup. keeps_tac. Qed.

Lemma shape_remove_bullet b : keeps I (remove_bullet b).
Proof. unfold remove_bullet. keeps_tac. Qed.

Lemma shape_remove_bullet_if_present b :
  keeps I (remove_bullet_if_present b).
Proof. unfold remove_bullet_if_present. keeps_tac. Qed.

Hint Resolve shape_remove_powerup shape_remove_bullet
  shape_remove_bullet_if_present : keeps.

Lemma shape_spawn_powerup : keeps I spawn_powerup.
Proof. unfold spawn_powerup. keeps_tac. Qed.

Lemma shape_expire_powerups t : keeps I (expire_powerups t).
Proof. unfold expire_powerups. keeps_tac. Qed.

Lemma shape_enemy_step i e : keeps I (enemy_step i e).
Proof. unfold enemy_step. keeps_tac. Qed.

Lemma shape_enemies_loop es : ∀ i, keeps I (enemies_loop i es).
Proof.
  induction es as [|e es IH]; intros i; simpl; keeps_tac.
  all: first [apply shape_enemy_step | apply IH].
Qed.

Lemma shape_store_player_at j id p p' s :
  GameState.players (GameServer.game_state s) !! j = Some (id, p) →
  I s → I (store_player j id p' s).2.
Proof. intros Hj HP. by eapply P_store_player. Qed.

Lemma shape_apply_powerup i id ty player s :
  GameState.players (GameServer.game_state s) !! i = Some (id, player) →
  I s → I (apply_powerup i id ty player s).2.
Proof.
  intros Hi HP.
  assert (∀ p' p'' n,
    I (store_player i id p'' (store_player i id p' (set_calls n s)).2).2)
    as Htwice.
  { intros p' p'' n. eapply shape_store_player_at.
    - cbn. apply list_lookup_insert_eq. by eapply lookup_lt_Some.
    - by eapply shape_store_player_at. }
  destruct ty; cbn.
  - by eapply shape_store_player_at.
  - by eapply P_store_player.
  - by eapply P_store_player.
  - by eapply P_store_player.
  - case_decide; [destruct (Player.level player)|]; cbn.
    + rewrite <- (set_calls_id s). apply Htwice.
    + by eapply P_store_player.
    + by eapply P_store_player.
Qed.

Lemma first_player_within_lookup r pos (ps : list (string * Player.t))
    j kv :
  first_player_within r pos ps = Some (j, kv) → ps !! j = Some kv.
Proof. by intros (? & _)%list_find_Some. Qed.

Lemma shape_pick_up pu : keeps I (pick_up pu).
Proof.
  apply keeps_wp. intros s HP. unfold pick_up. wp_step. wp_step.
  destruct (first_player_within _ _ _) as [[j [id player]]|] eqn:Hf;
    [|by wp_step].
  apply first_player_within_lookup in Hf.
  wp_step.
  eapply wp_mono with (Q := λ _, I) (E := I).
  - pose proof (shape_apply_powerup j id (Powerup.type pu) player s Hf HP).
    unfold wp. by destruct (apply_powerup _ _ _ _ _) as [[[]|?] ?].
  - intros [] s' HP'. apply keeps_run; [apply shape_remove_powerup|done].
  - done.
Qed.

Lemma shape_powerup_pass : keeps I powerup_pass.
Proof.
  unfold powerup_pass. keeps_tac. apply shape_pick_up.
Qed.

Lemma shape_bullet_vs_players b : keeps I (bullet_vs_players b).
Proof.
  apply keeps_wp. intros s HP. unfold bullet_vs_players.
  wp_step. wp_step.
  destruct (first_player_within _ _ _) as [[j [id player]]|] eqn:Hf;
    [|by wp_step].
  apply first_player_within_lookup in Hf.
  wp_step. wp_step.
  apply keeps_run; [apply shape_remove_bullet_if_present|].
  by eapply shape_store_player_at.
Qed.

Lemma shape_drop_powerup e : keeps I (drop_powerup e).
Proof. unfold drop_powerup. keeps_tac. Qed.

Lemma shape_reward_kill d owner : keeps I (reward_kill d owner).
Proof.
  apply keeps_wp. intros s HP. unfold reward_kill. repeat wp_step.
  destruct (list_find _ _) as [[j [id player]]|] eqn:Hown;
    repeat wp_step; [|done].
  apply dict_find_key in Hown as [Hj _]. by eapply shape_store_player_at.
Qed.

Lemma shape_kill_enemy b e : keeps I (kill_enemy b e).
Proof.
  apply keeps_wp. intros s HP. unfold kill_enemy. wp_step.
  apply wp_keeps with (I := I); [apply shape_drop_powerup|done| |done].
  intros [] s1 HP1. wp_step. unfold remove_enemy. repeat wp_step.
  destruct (list_remove _ _) as [es'|] eqn:Hrm; [|by wp_step].
  destruct (P_kill _ _ _ Hrm HP1) as [Hfresh Hgone].
  repeat wp_step.
  apply wp_spawn_enemy.
  2:{ intros Hscreen n'. by destruct Hgone. }
  intros fresh n' _. repeat wp_step.
  apply keeps_run; [apply shape_reward_kill|]. apply Hfresh.
Qed.

Lemma shape_bullet_vs_enemies i b : keeps I (bullet_vs_enemies i b).
Proof.
  unfold bullet_vs_enemies. keeps_tac. apply shape_kill_enemy.
Qed.

Hint Resolve shape_powerup_pass shape_bullet_vs_players
  shape_bullet_vs_enemies : keeps.

Lemma shape_bullet_step i b : keeps I (bullet_step i b).
Proof. unfold bullet_step. keeps_tac. Qed.

Lemma shape_bullets_loop bs : ∀ i, keeps I (bullets_loop i bs).
Proof.
  induction bs as [|b bs IH]; intros i; simpl; keeps_tac.
  all: first [apply shape_bullet_step | apply IH].
Qed.

Lemma shape_update_game_state : keeps I update_game_state.
Proof.
  unfold update_game_state. keeps_tac.
  - apply shape_spawn_powerup.
  - apply shape_expire_powerups.
  - apply shape_enemies_loop.
  - apply shape_bullets_loop.
Qed.

End Shape.

(** ** The handler, the accept loop and the cleanup on the world *)

Section Handler.
Context `{Oracle} `{Screen}.

Lemma for_each_append_bullets {A} (f : A → Bullet.t) (l : list A) s :
  for_each l (λ b, append_bullet (f b)) s
  = (Ok tt, (modify (λ g, set_bullets (GameState.bullets g ++ (f <$> l)) g)
               s).2).
Proof.
  revert s. induction l as [|x l IH]; intros s.
  - destruct s as [c [ps es bs pus st lp] t d n]. cbn.
    by rewrite app_nil_r.
  - cbn [for_each]. unfold mbind, M_bind at 1. cbn -[for_each].
    rewrite IH. cbn. by rewrite <- app_assoc.
Qed.

Lemma wp_for_each_append {A} (f : A → Bullet.t) (l : list A) Q E s :
  Q tt (modify (λ g, set_bullets (GameState.bullets g ++ (f <$> l)) g) s).2 →
  wp (for_each l (λ b, append_bullet (f b))) Q E s.
Proof. intros HQ. unfold wp. by rewrite for_each_append_bullets. Qed.

(** What a merged payload leaves in the world: the handler returns, and
    the snapshot it sends is the world it leaves. *)
Lemma handle_message_spec id data s :
  wp (handle_message id data)
    (λ snapshot s',
       let g := GameServer.game_state s in
       snapshot = GameServer.game_state s'
       ∧ GameState.players snapshot = dict_set id data (GameState.players g)
       ∧ GameState.enemies snapshot = GameState.enemies g
       ∧ GameState.bullets snapshot = GameState.bullets g ++ fired id data
       ∧ GameState.powerups snapshot = GameState.powerups g
       ∧ GameState.send_time snapshot = Some (clock (GameServer.calls s)))
    (λ _, False) s.
Proof.
  unfold handle_message, fired. repeat wp_step.
  destruct (Player.new_bullets data) as [[|b l]|]; cbn [default].
  - repeat wp_step. destruct (Player.send_time data); repeat wp_step.
    all: cbn; by rewrite app_nil_r.
  - apply wp_for_each_append. repeat wp_step.
    destruct (Player.send_time data); repeat wp_step; done.
  - repeat wp_step. destruct (Player.send_time data); repeat wp_step.
    all: cbn; by rewrite app_nil_r.
Qed.

Lemma handle_message_world id data s :
  let g := GameServer.game_state s in
  let g' := GameServer.game_state (handle_message id data s).2 in
  GameState.players g' = dict_set id data (GameState.players g)
  ∧ GameState.enemies g' = GameState.enemies g
  ∧ GameState.bullets g' = GameState.bullets g ++ fired id data
  ∧ GameState.powerups g' = GameState.powerups g.
Proof.
  pose proof (handle_message_spec id data s) as Hs. unfold wp in Hs.
  destruct (handle_message id data s) as [[g'|e] s']; [|done].
  cbn in *. by destruct Hs as (-> & ? & ? & ? & ? & _).
Qed.

(** The handler never raises on a payload of the modelled shape. *)
Lemma handle_message_returns id data s :
  ∃ g, (handle_message id data s).1 = Ok g.
Proof.
  pose proof (handle_message_spec id data s) as Hs. unfold wp in Hs.
  destruct (handle_message id data s) as [[g'|e] s']; [by eexists|done].
Qed.

Lemma accept_world id s :
  GameServer.game_state (accept id s).2 = GameServer.game_state s.
Proof. done. Qed.

Lemma dict_del_absent {V} (id : string) (d : list (string * V)) :
  id ∉ dict_keys d → dict_del id d = d.
Proof.
  unfold dict_keys. induction d as [|[k v] d IH]; csimpl; [done|].
  intros [Hne Hin]%not_elem_of_cons.
  rewrite decide_False by done. by rewrite IH.
Qed.

Lemma disconnect_spec id s :
  wp (disconnect id)
    (λ _ s',
       let g := GameServer.game_state s in
       let g' := GameServer.game_state s' in
       GameState.players g' = dict_del id (GameState.players g)
       ∧ GameState.enemies g' = GameState.enemies g
       ∧ GameState.bullets g' = GameState.bullets g
       ∧ GameState.powerups g' = GameState.powerups g)
    (λ _, False) s.
Proof.
  unfold disconnect. repeat wp_step.
  destruct (decide (id ∈ GameServer.clients s)); repeat wp_step.
  all: destruct (decide (id ∈ _)); repeat wp_step; cbn.
  all: try done.
  all: by rewrite dict_del_absent.
Qed.

Lemma disconnect_world id s :
  let g := GameServer.game_state s in
  let g' := GameServer.game_state (disconnect id s).2 in
  GameState.players g' = dict_del id (GameState.players g)
  ∧ GameState.enemies g' = GameState.enemies g
  ∧ GameState.bullets g' = GameState.bullets g
  ∧ GameState.powerups g' = GameState.powerups g.
Proof.
  pose proof (disconnect_spec id s) as Hs. unfold wp in Hs.
  by destruct (disconnect id s) as [[[]|e] s'].
Qed.

End Handler.

(** * The enemy collection keeps its length *)

Section EnemyCount.
Context `{Oracle} `{Screen}.

Lemma spawn_enemies_Ok n : ∀ s es s',
  spawn_enemies n s = (Ok es, s') →
  length es = n ∧ (n ≠ 0%nat → screen_ok)
  ∧ GameServer.game_state s' = GameServer.game_state s.
Proof.
  induction n as [|n IH]; intros s es s' Hs.
  - cbv in Hs. by simplify_eq.
  - cbn [spawn_enemies] in Hs. unfold mbind, M_bind in Hs.
    destruct (spawn_enemy normal s) as [[e|x] s1] eqn:He; [|done].
    destruct (spawn_enemies n s1) as [[es1|x] s2] eqn:Hes; [|done].
    cbv in Hs. simplify_eq. apply IH in Hes as (<- & _ & ->).
    apply (f_equal snd) in He as Hw. simpl in Hw.
    rewrite <- Hw, spawn_enemy_world.
    split_and!; [done| |done]. intros _. by eapply spawn_enemy_Ok.
Qed.

Lemma GameServer_init_Ok n s :
  GameServer_init (blank_server n) = (Ok tt, s) →
  screen_ok
  ∧ length (GameState.enemies (GameServer.game_state s)) = NUM_ENEMIES
  ∧ GameState.players (GameServer.game_state s) = []
  ∧ GameState.bullets (GameServer.game_state s) = []
  ∧ GameState.powerups (GameServer.game_state s) = [].
Proof.
  unfold GameServer_init, mbind, M_bind. intros Hs.
  destruct (spawn_enemies NUM_ENEMIES (blank_server n)) as [[es|x] s1] eqn:He;
    [|done].
  apply spawn_enemies_Ok in He as (Hlen & Hscreen & _).
  cbv [time_time next_call mbind M_bind mret M_ret modify
       set_last_powerup_time] in Hs.
  simplify_eq. cbn. split_and!; auto.
Qed.

Section Ticks.
Hypothesis Hscreen : screen_ok.

Lemma update_game_state_enemy_count s :
  length (GameState.enemies (GameServer.game_state (update_game_state s).2))
  = length (GameState.enemies (GameServer.game_state s)).
Proof.
  apply (shape_update_game_state
           (λ g, length (GameState.enemies g)
                 = length (GameState.enemies (GameServer.game_state s))));
    try done.
  - intros g i e Hg. cbn. by rewrite length_insert.
  - intros g e es' Hrm Hg. split; [|by left].
    intros fresh. cbn. rewrite length_app. cbn.
    apply list_remove_length in Hrm. lia.
Qed.

Lemma perform_enemy_count ev s :
  length (GameState.enemies (GameServer.game_state (perform ev s)))
  = length (GameState.enemies (GameServer.game_state s)).
Proof.
  destruct ev as [|id|id data|id|d]; cbn [perform].
  - apply update_game_state_enemy_count.
  - done.
  - by destruct (handle_message_world id data s) as (_ & -> & _).
  - by destruct (disconnect_world id s) as (_ & -> & _).
  - done.
Qed.

Lemma run_enemy_count evs : ∀ s,
  length (GameState.enemies (GameServer.game_state (run evs s)))
  = length (GameState.enemies (GameServer.game_state s)).
Proof.
  induction evs as [|ev evs IH]; intros s; [done|].
  cbn. unfold run in IH. by rewrite IH, perform_enemy_count.
Qed.

End Ticks.

Lemma reachable_screen_ok s : reachable s → screen_ok.
Proof.
  induction 1 as [n s Hinit|]; [|done].
  by apply GameServer_init_Ok in Hinit as [? _].
Qed.

End EnemyCount.

(** * Properties of the bullets

    A property of the world that only looks at [bullets] survives every
    part of the tick that leaves the bullets alone. *)

Section BulletFrame.
Context `{Oracle} `{Screen}.
Variable P : GameState.t → Prop.
Hypothesis P_players : ∀ g v, P g → P (set_players v g).
Hypothesis P_enemies : ∀ g v, P g → P (set_enemies v g).
Hypothesis P_powerups : ∀ g v, P g → P (set_powerups v g).
Hypothesis P_send_time : ∀ g t, P g → P (set_send_time t g).

Local Abbreviation I := (on_world P).

Lemma frame_store_player j id p : keeps I (store_player j id p).
Proof. apply keeps_modify. auto. Qed.
Lemma frame_store_enemy i e : keeps I (store_enemy i e).
Proof. apply keeps_modify. auto. Qed.
Lemma frame_append_powerup p : keeps I (append_powerup p).
Proof. apply keeps_modify. auto. Qed.
Lemma frame_set_players v : keeps I (modify (set_players v)).
Proof. apply keeps_modify. auto. Qed.
Lemma frame_set_enemies v : keeps I (modify (set_enemies v)).
Proof. apply keeps_modify. auto. Qed.
Lemma frame_set_powerups v : keeps I (modify (set_powerups v)).
Proof. apply keeps_modify. auto. Qed.
Lemma frame_set_send_time t : keeps I (modify (set_send_time t)).
Proof. apply keeps_modify. auto. Qed.
Lemma frame_append_enemy e :
  keeps I (modify (λ g, set_enemies (GameState.enemies g ++ [e]) g)).
Proof. apply keeps_modify. auto. Qed.

Hint Resolve frame_store_player frame_store_enemy frame_append_powerup
  frame_set_players frame_set_enemies frame_set_powerups
  frame_set_send_time frame_append_enemy : keeps.

Lemma frame_remove_powerup pu : keeps I (remove_powerup pu).
Proof. unfold remove_powerup. keeps_tac. Qed.
Lemma frame_remove_enemy e : keeps I (remove_enemy e).
Proof. unfold remove_enemy. keeps_tac. Qed.

Hint Resolve frame_remove_powerup frame_remove_enemy : keeps.

Lemma frame_spawn_powerup : keeps I spawn_powerup.
Proof. unfold spawn_powerup. keeps_tac. Qed.
Lemma frame_expire_powerups t : keeps I (expire_powerups t).
Proof. unfold expire_powerups. keeps_tac. Qed.
Lemma frame_apply_powerup i id ty p : keeps I (apply_powerup i id ty p).
Proof. unfold apply_powerup. keeps_tac. Qed.

Hint Resolve frame_apply_powerup : keeps.

Lemma frame_pick_up pu : keeps I (pick_up pu).
Proof. unfold pick_up. keeps_tac. Qed.

Hint Resolve frame_pick_up : keeps.

Lemma frame_powerup_pass : keeps I powerup_pass.
Proof. unfold powerup_pass. keeps_tac. Qed.
Lemma frame_drop_powerup e : keeps I (drop_powerup e).
Proof. unfold drop_powerup. keeps_tac. Qed.
Lemma frame_reward_kill d o : keeps I (reward_kill d o).
Proof. unfold reward_kill. keeps_tac. Qed.

Hint Resolve frame_drop_powerup frame_reward_kill : keeps.

Lemma frame_kill_enemy b e : keeps I (kill_enemy b e).
Proof. unfold kill_enemy. keeps_tac. Qed.

End BulletFrame.

Section Penetration.
Context `{Oracle} `{Screen}.

Local Abbreviation J := (on_world live_bullets).

Local Ltac frame lem := apply lem; unfold live_bullets; auto.

Lemma live_enemy_step i e : keeps J (enemy_step i e).
Proof.
  assert (∀ b, Bullet.penetration b = 1 → keeps J (append_bullet b)) as Happ.
  { intros b Hb. apply keeps_modify. unfold live_bullets. intros g Hg. cbn.
    apply Forall_app. split; [done|]. apply Forall_singleton. lia. }
  unfold enemy_step. keeps_tac.
  all: first [by frame frame_store_enemy | by apply Happ].
Qed.

Lemma live_enemies_loop es : ∀ i, keeps J (enemies_loop i es).
Proof.
  induction es as [|e es IH]; intros i; simpl; keeps_tac.
  all: first [apply live_enemy_step | apply IH].
Qed.

Lemma live_remove_bullet b : keeps J (remove_bullet b).
Proof.
  apply keeps_wp. intros s HJ. unfold remove_bullet. repeat wp_step.
  destruct (list_remove _ _) as [bs'|] eqn:Hrm; repeat wp_step; [|done].
  unfold on_world, live_bullets. cbn. by eapply list_remove_Forall.
Qed.

Lemma live_remove_bullet_if_present b :
  keeps J (remove_bullet_if_present b).
Proof.
  apply keeps_wp. intros s HJ. unfold remove_bullet_if_present.
  repeat wp_step.
  destruct (list_remove _ _) as [bs'|] eqn:Hrm; repeat wp_step; [|done].
  unfold on_world, live_bullets. cbn. by eapply list_remove_Forall.
Qed.

Lemma live_bullet_vs_players b : keeps J (bullet_vs_players b).
Proof.
  unfold bullet_vs_players. keeps_tac.
  - by frame frame_store_player.
  - apply live_remove_bullet_if_present.
Qed.

(** The hit of a bullet that could still pierce: stored with its counter
    one lower, it goes at once if the counter is spent. *)
Lemma live_spend i b s :
  1 ≤ Bullet.penetration b → J s →
  wp (store_bullet i (spent b) ;;
      if decide (Bullet.penetration (spent b) ≤ 0)
      then remove_bullet_if_present (spent b) else mret false)
    (λ _, J) J s.
Proof.
  intros Hb HJ. repeat wp_step. unfold on_world, live_bullets in *.
  case_decide as Hpen; repeat wp_step.
  - unfold remove_bullet_if_present. repeat wp_step. cbn.
    destruct (list_remove _ _) as [bs'|] eqn:Hrm; repeat wp_step; cbn.
    + eapply (list_remove_restores _ (spent b) i); [exact HJ| |exact Hrm].
      lia.
    + apply list_remove_None in Hrm.
      destruct (decide (i < length (GameState.bullets
                                      (GameServer.game_state s)))%nat).
      * exfalso. apply Hrm. eapply list_elem_of_lookup_2.
        by apply list_lookup_insert_eq.
      * rewrite list_insert_ge by lia. done.
  - cbn. apply Forall_insert; [done|]. cbn in *. lia.
Qed.

Lemma live_bullet_vs_enemies i b :
  1 ≤ Bullet.penetration b → keeps J (bullet_vs_enemies i b).
Proof.
  intros Hb. apply keeps_wp. intros s HJ. unfold bullet_vs_enemies.
  repeat wp_step.
  destruct (list_find _ _) as [[k e]|] eqn:Hfind; [|by wp_step].
  repeat wp_step.
  pose proof (live_spend i b (store_enemy k (hit_enemy b e) s).2 Hb HJ)
    as Hspend.
  unfold wp in Hspend |- *. unfold mbind, M_bind in Hspend |- *.
  cbn -[decide remove_bullet_if_present kill_enemy] in Hspend |- *.
  destruct (decide _);
    [destruct (remove_bullet_if_present _ _) as [[r|x] s1]|]; try done.
  all: cbn -[decide kill_enemy].
  all: destruct (decide _); [|done].
  all: match goal with
       | |- context [kill_enemy ?b ?e ?s] =>
           pose proof (frame_kill_enemy live_bullets) as Hk;
           specialize (Hk ltac:(done) ltac:(done) ltac:(done) b e s Hspend);
           destruct (kill_enemy b e s) as [[[]|x'] s2]; done
       end.
Qed.

Lemma live_bullet_step i b :
  1 ≤ Bullet.penetration b → keeps J (bullet_step i b).
Proof.
  intros Hb. unfold bullet_step. keeps_tac.
  all: first [ by apply live_bullet_vs_enemies
             | apply live_bullet_vs_players
             | apply live_remove_bullet
             | by frame frame_powerup_pass
             | idtac ].
  apply keeps_modify. unfold live_bullets. intros g Hg. cbn.
  by apply Forall_insert.
Qed.

Lemma live_bullets_loop bs : ∀ i,
  Forall (λ b, 1 ≤ Bullet.penetration b) bs → keeps J (bullets_loop i bs).
Proof.
  induction bs as [|b bs IH]; intros i Hbs; simpl; keeps_tac.
  - apply live_bullet_step. by inversion Hbs.
  - apply IH. by inversion Hbs.
Qed.

Lemma live_update_game_state : keeps J update_game_state.
Proof.
  apply keeps_wp. intros s HJ. unfold update_game_state. wp_step.
  apply wp_keeps with (I := J); [keeps_tac|done| |done].
  intros t s1 HJ1. wp_step.
  apply wp_keeps with (I := J); [by frame frame_set_send_time|done| |done].
  intros [] s2 HJ2. repeat wp_step.
  apply wp_keeps with (I := J); [|done| |done].
  { keeps_tac. by frame frame_spawn_powerup. }
  intros [] s3 HJ3. wp_step.
  apply wp_keeps with (I := J); [by frame frame_expire_powerups|done| |done].
  intros [] s4 HJ4. repeat wp_step.
  apply wp_keeps with (I := J); [apply live_enemies_loop|done| |done].
  intros [] s5 HJ5. repeat wp_step.
  apply keeps_run; [|done]. by apply live_bullets_loop.
Qed.

End Penetration.

(** * Combat resolution, step by step *)

Section Combat.
Context `{Oracle} `{Screen}.

Lemma delete_insert_same {A} (l : list A) (i : nat) (x : A) :
  delete i (<[i := x]> l) = delete i l.
Proof.
  revert i. induction l as [|y l IH]; intros [|i]; cbn; try done.
  f_equal. apply IH.
Qed.

(** Among bullets that can all still pierce, the spent bullet written at
    place [i] is the element [remove] finds. *)
Lemma list_remove_spent (bs : list Bullet.t) i b b' :
  Forall (λ b, 1 ≤ Bullet.penetration b) bs →
  bs !! i = Some b → Bullet.penetration b' ≤ 0 →
  list_remove b' (<[i := b']> bs) = Some (delete i bs).
Proof.
  intros Hall Hi Hb'.
  destruct (list_remove b' (<[i := b']> bs)) as [l|] eqn:Hrm.
  - apply list_remove_Some in Hrm as (k & Hk & -> & _).
    destruct (decide (k = i)) as [->|Hne]; [by rewrite delete_insert_same|].
    rewrite list_lookup_insert_ne in Hk by done.
    eapply Forall_lookup_1 in Hall; [|exact Hk]. cbn in Hall. lia.
  - apply list_remove_None in Hrm. exfalso. apply Hrm.
    eapply list_elem_of_lookup_2, list_lookup_insert_eq.
    by eapply lookup_lt_Some.
Qed.

Lemma bullets_kept_by_kill {C : Prop} (c : {C} + {¬ C}) b e
    (X : list Bullet.t) :
  keeps (on_world (λ g, GameState.bullets g = X))
    (if c then kill_enemy b e else mret tt).
Proof. keeps_tac. by apply frame_kill_enemy. Qed.

(** The bullets a hit leaves: the spent bullet is written at place [i]
    and, if its counter is at or below zero, the first element equal to
    it is removed.  The rest of the resolution leaves [bullets] alone,
    also when it raises. *)
Lemma bullet_vs_enemies_bullets i b s k e :
  list_find (λ e, hits_enemy b e = true)
    (GameState.enemies (GameServer.game_state s)) = Some (k, e) →
  GameState.bullets (GameServer.game_state (bullet_vs_enemies i b s).2)
  = let bs := <[i := spent b]> (GameState.bullets (GameServer.game_state s)) in
    if decide (Bullet.penetration (spent b) ≤ 0)
    then default bs (list_remove (spent b) bs) else bs.
Proof.
  intros Hfind. cbv zeta.
  match goal with |- _ = ?rhs => set (X := rhs) end.
  assert (wp (bullet_vs_enemies i b)
            (λ _, on_world (λ g, GameState.bullets g = X))
            (on_world (λ g, GameState.bullets g = X)) s) as Hwp.
  { unfold bullet_vs_enemies. repeat wp_step. rewrite Hfind.
    repeat wp_step.
    destruct (decide (Bullet.penetration (spent b) ≤ 0)) as [Hp|Hp].
    - unfold remove_bullet_if_present. repeat wp_step. cbn.
      destruct (list_remove _ _) as [l|] eqn:Hrm; repeat wp_step.
      all: apply wp_keeps with (I := on_world (λ g, GameState.bullets g = X));
        [apply bullets_kept_by_kill| |done|done].
      all: unfold on_world, X; cbn.
      all: try rewrite decide_True by done; by try rewrite Hrm.
    - repeat wp_step.
      apply wp_keeps with (I := on_world (λ g, GameState.bullets g = X));
        [apply bullets_kept_by_kill| |done|done].
      unfold on_world, X. cbn. by try rewrite decide_False by done. }
  unfold wp in Hwp. by destruct (bullet_vs_enemies i b s) as [[r|x] s'].
Qed.

(** *** An enemy's bullet reaches a player *)

Lemma bullet_vs_players_spec bullet s j id player :
  first_player_within 20 (Bullet.pos bullet)
    (GameState.players (GameServer.game_state s)) = Some (j, (id, player)) →
  let g := GameServer.game_state s in
  let r := bullet_vs_players bullet s in
  let g' := GameServer.game_state r.2 in
  r.1 = Ok (bool_decide (bullet ∈ GameState.bullets g))
  ∧ GameState.players g'
    = <[j := (id, damage_player (Bullet.damage bullet) player)]>
        (GameState.players g)
  ∧ GameState.bullets g'
    = default (GameState.bullets g) (list_remove bullet (GameState.bullets g))
  ∧ GameState.enemies g' = GameState.enemies g
  ∧ GameState.powerups g' = GameState.powerups g.
Proof.
  intros Hfirst. cbv zeta.
  unfold bullet_vs_players, remove_bullet_if_present, mbind, M_bind.
  cbn. rewrite Hfirst. cbn.
  destruct (list_remove _ _) as [l|] eqn:Hrm; cbn.
  - rewrite bool_decide_eq_true_2; [done|].
    apply list_remove_Some in Hrm as (k & Hk & _).
    by eapply list_elem_of_lookup_2.
  - apply list_remove_None in Hrm. by rewrite bool_decide_eq_false_2.
Qed.

End Combat.

(** * The death of an enemy *)

Section Kill.
Context `{Oracle} `{Screen}.

(** On a play field with room to spawn, the death branch returns: the
    dead enemy is out, a fresh one at full health is last in the list,
    the owner is rewarded, and at most one powerup is added. *)
Lemma kill_enemy_spec bullet enemy s :
  screen_ok →
  enemy ∈ GameState.enemies (GameServer.game_state s) →
  wp (kill_enemy bullet enemy)
    (λ _ s',
       let g := GameServer.game_state s in
       let g' := GameServer.game_state s' in
       (∃ es' fresh,
           list_remove enemy (GameState.enemies g) = Some es'
           ∧ GameState.enemies g' = es' ++ [fresh]
           ∧ Enemy.health fresh = enemy_health (GameServer.difficulty s))
       ∧ GameState.players g'
         = rewarded (GameServer.difficulty s) (Bullet.owner bullet)
             (GameState.players g)
       ∧ GameState.bullets g' = GameState.bullets g
       ∧ (GameState.powerups g' = GameState.powerups g
          ∨ ∃ ty t, GameState.powerups g'
                    = GameState.powerups g
                      ++ [Powerup.mk (Enemy.pos enemy) ty t]))
    (λ _, False) s.
Proof.
  intros Hscreen Hin. unfold kill_enemy, drop_powerup, remove_enemy, reward_kill.
  repeat wp_step.
  destruct (list_remove enemy (GameState.enemies (GameServer.game_state s)))
    as [es'|] eqn:Hrm; [|by apply list_remove_None in Hrm].
  destruct (fltb _ _); repeat wp_step.
  - cbn. rewrite Hrm. repeat wp_step.
    apply wp_spawn_enemy; [|done]. intros fresh n Hfresh.
    repeat wp_step. cbn. unfold rewarded.
    destruct (list_find _ _) as [[j [id player]]|]; repeat wp_step; cbn.
    all: split_and!; eauto.
  - cbn. rewrite Hrm. repeat wp_step.
    apply wp_spawn_enemy; [|done]. intros fresh n Hfresh.
    repeat wp_step. cbn. unfold rewarded.
    destruct (list_find _ _) as [[j [id player]]|]; repeat wp_step; cbn.
    all: split_and!; eauto.
Qed.

(** A hit that brings an enemy to zero health or below, as a whole. *)
Lemma bullet_vs_enemies_kill i bullet s k e :
  screen_ok →
  list_find (λ e, hits_enemy bullet e = true)
    (GameState.enemies (GameServer.game_state s)) = Some (k, e) →
  Enemy.health e - Bullet.damage bullet ≤ 0 →
  let g := GameServer.game_state s in
  let r := bullet_vs_enemies i bullet s in
  let g' := GameServer.game_state r.2 in
  (∃ removed, r.1 = Ok removed)
  ∧ (∃ es' fresh,
        list_remove (hit_enemy bullet e)
          (<[k := hit_enemy bullet e]> (GameState.enemies g)) = Some es'
        ∧ GameState.enemies g' = es' ++ [fresh]
        ∧ Enemy.health fresh = enemy_health (GameServer.difficulty s))
  ∧ GameState.players g'
    = rewarded (GameServer.difficulty s) (Bullet.owner bullet)
        (GameState.players g).
Proof.
  intros Hscreen Hfind Hdead. cbv zeta.
  set (Q := λ (_ : bool) (s' : GameServer.t),
         (∃ es' fresh,
             list_remove (hit_enemy bullet e)
               (<[k := hit_enemy bullet e]>
                  (GameState.enemies (GameServer.game_state s))) = Some es'
             ∧ GameState.enemies (GameServer.game_state s') = es' ++ [fresh]
             ∧ Enemy.health fresh = enemy_health (GameServer.difficulty s))
         ∧ GameState.players (GameServer.game_state s')
           = rewarded (GameServer.difficulty s) (Bullet.owner bullet)
               (GameState.players (GameServer.game_state s))).
  assert (wp (bullet_vs_enemies i bullet) Q (λ _, False) s) as Hwp.
  { apply list_find_Some in Hfind as Hk. destruct Hk as (Hk & _ & _).
    assert (∀ s1,
      GameState.enemies (GameServer.game_state s1)
        = <[k := hit_enemy bullet e]>
            (GameState.enemies (GameServer.game_state s)) →
      GameState.players (GameServer.game_state s1)
        = GameState.players (GameServer.game_state s) →
      GameServer.difficulty s1 = GameServer.difficulty s →
      ∀ removed,
      wp (if decide (Enemy.health (hit_enemy bullet e) ≤ 0)
          then kill_enemy bullet (hit_enemy bullet e) else mret tt)
        (λ _ s', wp (mret removed) Q (λ _, False) s') (λ _, False) s1)
      as Hkill.
    { intros s1 Hes Hps Hd removed. rewrite decide_True by done.
      eapply wp_mono; [apply kill_enemy_spec; [done|]| |done].
      - rewrite Hes. eapply list_elem_of_lookup_2, list_lookup_insert_eq.
        by eapply lookup_lt_Some.
      - intros [] s' ((es' & fresh & Hrm & Hes' & Hfresh) & Hps' & _).
        cbn in *. unfold Q. rewrite Hes, Hps, Hd in *. eauto 10. }
    unfold bullet_vs_enemies. repeat wp_step. rewrite Hfind.
    repeat wp_step.
    destruct (decide (Bullet.penetration (spent bullet) ≤ 0)).
    - unfold remove_bullet_if_present. repeat wp_step. cbn.
      destruct (list_remove (spent bullet) _); repeat wp_step.
      all: by apply Hkill.
    - repeat wp_step. by apply Hkill. }
  unfold wp, Q in Hwp.
  destruct (bullet_vs_enemies i bullet s) as [[r|x] s']; [|done].
  cbn. split; [by eexists|done].
Qed.

End Kill.

(** * The players' identifiers *)

Section Identifiers.
Context `{Oracle} `{Screen}.

Lemma update_game_state_keys s :
  dict_keys (GameState.players (GameServer.game_state (update_game_state s).2))
  = dict_keys (GameState.players (GameServer.game_state s)).
Proof.
  apply (shape_update_game_state
           (λ g, dict_keys (GameState.players g)
                 = dict_keys (GameState.players (GameServer.game_state s))));
    try done.
  - intros g j id p p' Hj Hg. etrans; [|exact Hg].
    exact (dict_keys_store _ _ _ p p' Hj).
  - intros g e es' _ Hg. split; [done|by right].
Qed.

Lemma perform_keeps_player ev s id :
  id ∈ dict_keys (GameState.players (GameServer.game_state s)) →
  ev ≠ Disconnect id →
  id ∈ dict_keys (GameState.players (GameServer.game_state (perform ev s))).
Proof.
  intros Hin Hev. destruct ev as [|id'|id' data|id'|d]; cbn [perform].
  - by rewrite update_game_state_keys.
  - done.
  - destruct (handle_message_world id' data s) as (-> & _).
    rewrite dict_keys_set. case_decide; [done|].
    apply elem_of_app. by left.
  - destruct (disconnect_world id' s) as (-> & _).
    apply dict_keys_del_other; [congruence|done].
  - done.
Qed.

End Identifiers.

(** * Progression *)

Section Progression.
Context `{Oracle} `{Screen}.

Lemma award_kill_xp_levels d player :
  let xp1 := default 0 (Player.xp player) + kill_xp d in
  let threshold := default 100 (Player.xp_to_next_level player) in
  threshold ≤ xp1 →
  levelled (default 1 (Player.level player)) xp1 threshold player
    (award_kill_xp d player).
Proof.
  cbv zeta. intros Hge. unfold award_kill_xp.
  rewrite decide_True by done. by repeat split.
Qed.

Lemma award_kill_xp_below d player :
  let xp1 := default 0 (Player.xp player) + kill_xp d in
  let threshold := default 100 (Player.xp_to_next_level player) in
  xp1 < threshold →
  let player' := award_kill_xp d player in
  Player.xp player' = Some xp1
  ∧ Player.level player' = Some (default 1 (Player.level player))
  ∧ Player.xp_to_next_level player' = Some threshold
  ∧ Player.upgrade_points player' = Player.upgrade_points player.
Proof.
  cbv zeta. intros Hlt. unfold award_kill_xp.
  rewrite decide_False by lia. by repeat split.
Qed.

Lemma apply_xp_powerup_levels i id player level0 s :
  Player.level player = Some level0 →
  let xp1 := default 0 (Player.xp player) + 30 in
  let threshold := default 100 (Player.xp_to_next_level player) in
  threshold ≤ xp1 →
  ∃ player',
    apply_powerup i id xp_up player s
    = (Ok tt, (store_player i id player' s).2)
    ∧ levelled level0 xp1 threshold player player'.
Proof.
  cbv zeta. intros Hlevel Hge. unfold apply_powerup.
  rewrite decide_True by done. rewrite Hlevel.
  set (xp1 := default 0 (Player.xp player) + 30).
  set (threshold := default 100 (Player.xp_to_next_level player)).
  exists (with_upgrade_points (default 0 (Player.upgrade_points player) + 1)
            (with_xp_to_next_level (int_times_1_5 threshold)
               (with_xp (xp1 - threshold)
                  (with_level (level0 + 1)
                     (with_xp_to_next_level threshold
                        (with_xp xp1 player)))))).
  split; [|by repeat split].
  unfold mbind, M_bind, store_player, modify, set_players. cbn.
  by rewrite list_insert_insert_eq.
Qed.

End Progression.

(** * The place of a bullet in the live list

    The loop walks a copy of [bullets] while the body mutates and removes
    elements of the live list.  The bullet in hand is always the element
    at the place the embedding tracks: what is left of the copy is what
    the live list holds from that place on. *)

Section Places.
Context `{Oracle} `{Screen}.

Lemma drop_delete_le {A} (l : list A) k i :
  (k ≤ i)%nat → drop i (delete k l) = drop (S i) l.
Proof.
  revert k i. induction l as [|x l IH]; intros k i Hle.
  - by destruct k, i.
  - destruct k as [|k]; cbn.
    + done.
    + destruct i as [|i]; [lia|]. cbn. apply IH. lia.
Qed.

Lemma list_remove_placed {A} `{EqDecision A} (x : A) (l rest : list A) i :
  drop i l = x :: rest →
  ∃ l', list_remove x l = Some l' ∧ drop i l' = rest.
Proof.
  intros Hdrop.
  assert (l !! i = Some x) as Hi.
  { rewrite <- (Nat.add_0_r i), <- lookup_drop, Hdrop. done. }
  destruct (list_remove x l) as [l'|] eqn:Hrm.
  - exists l'. split; [done|].
    apply list_remove_Some in Hrm as (k & Hk & -> & Hmin).
    assert (k ≤ i)%nat as Hle.
    { destruct (decide (k ≤ i)%nat); [done|].
      exfalso. apply (Hmin i x Hi); [lia|done]. }
    rewrite drop_delete_le by done.
    by rewrite (drop_S _ x _ Hi) in Hdrop; simplify_eq.
  - apply list_remove_None in Hrm. exfalso. apply Hrm.
    by eapply list_elem_of_lookup_2.
Qed.

Lemma drop_insert_place {A} (l rest : list A) i (x y : A) :
  drop i l = x :: rest → drop i (<[i := y]> l) = y :: rest.
Proof.
  intros Hdrop. rewrite drop_insert_ge by lia.
  by rewrite Nat.sub_diag, Hdrop.
Qed.

Lemma drop_place_next {A} (l rest : list A) i (x : A) :
  drop i l = x :: rest → drop (S i) l = rest.
Proof.
  intros Hdrop.
  assert (l !! i = Some x) as Hi.
  { rewrite <- (Nat.add_0_r i), <- lookup_drop, Hdrop. done. }
  rewrite (drop_S _ x _ Hi) in Hdrop. by simplify_eq.
Qed.

(** [placed j rest]: the live list holds [rest] from place [j] on. *)
Local Abbreviation placed j rest :=
  (on_world (λ g, drop j (GameState.bullets g) = rest)).

Lemma placed_remove_bullet_if_present b i rest s :
  placed i (b :: rest) s →
  wp (remove_bullet_if_present b)
    (λ removed, placed (if removed then i else S i) rest) (λ _, True) s.
Proof.
  intros Hp. unfold remove_bullet_if_present. repeat wp_step.
  destruct (list_remove_placed _ _ _ _ Hp) as (l' & -> & Hl').
  by repeat wp_step.
Qed.

Lemma placed_remove_bullet b i rest s :
  placed i (b :: rest) s →
  wp (remove_bullet b) (λ _, placed i rest) (λ _, False) s.
Proof.
  intros Hp. unfold remove_bullet. repeat wp_step.
  destruct (list_remove_placed _ _ _ _ Hp) as (l' & -> & Hl').
  by repeat wp_step.
Qed.

Lemma placed_frame {A} j rest (m : M A) Q s :
  (∀ P : GameState.t → Prop,
     (∀ g v, P g → P (set_players v g)) →
     (∀ g v, P g → P (set_enemies v g)) →
     (∀ g v, P g → P (set_powerups v g)) →
     (∀ g t, P g → P (set_send_time t g)) →
     keeps (on_world P) m) →
  placed j rest s → (∀ a s', placed j rest s' → Q a s') →
  wp m Q (λ _, True) s.
Proof.
  intros Hframe Hp HQ.
  eapply wp_keeps with (I := placed j rest); [|done|done|done].
  by apply Hframe.
Qed.

Lemma placed_bullet_vs_enemies i b rest s :
  placed i (b :: rest) s →
  wp (bullet_vs_enemies i b)
    (λ removed, placed (if removed then i else S i) rest) (λ _, True) s.
Proof.
  intros Hp. unfold bullet_vs_enemies. repeat wp_step.
  destruct (list_find _ _) as [[k e]|]; repeat wp_step.
  2:{ by eapply drop_place_next. }
  assert (placed i (spent b :: rest)
            (store_bullet i (spent b)
               (store_enemy k (hit_enemy b e) s).2).2) as Hp'.
  { unfold on_world. cbn. by eapply drop_insert_place. }
  assert (∀ (removed : bool) s1,
    placed (if removed then i else S i) rest s1 →
    wp ((if decide (Enemy.health (hit_enemy b e) ≤ 0)
         then kill_enemy b (hit_enemy b e) else mret tt))
      (λ _ s2, wp (mret removed)
                 (λ removed, placed (if removed then i else S i) rest)
                 (λ _, True) s2)
      (λ _, True) s1) as Hrest.
  { intros removed s1 Hs1. eapply placed_frame; [|exact Hs1|done].
    intros P ? ? ? ?. keeps_tac. by apply frame_kill_enemy. }
  destruct (decide (Bullet.penetration (spent b) ≤ 0)).
  - eapply wp_mono; [by apply placed_remove_bullet_if_present| |done].
    intros removed s1 Hs1. repeat wp_step. by apply Hrest.
  - repeat wp_step. apply (Hrest false). by eapply drop_place_next.
Qed.

Lemma placed_bullet_vs_players i b rest s :
  placed i (b :: rest) s →
  wp (bullet_vs_players b)
    (λ removed, placed (if removed then i else S i) rest) (λ _, True) s.
Proof.
  intros Hp. unfold bullet_vs_players. repeat wp_step.
  destruct (first_player_within _ _ _) as [[j [id player]]|];
    repeat wp_step.
  - by apply placed_remove_bullet_if_present.
  - by eapply drop_place_next.
Qed.

(** One round of the loop: the bullet in hand stands at place [i], and
    the next bullet of the copy stands at the place returned. *)
Lemma bullet_step_place i b rest s :
  placed i (b :: rest) s →
  wp (bullet_step i b) (λ i', placed i' rest) (λ _, True) s.
Proof.
  intros Hp. unfold bullet_step. repeat wp_step.
  assert (placed i (move_bullet b :: rest)
            (store_bullet i (move_bullet b) s).2) as Hp'.
  { unfold on_world. cbn. by eapply drop_insert_place. }
  destruct (out_of_bounds _).
  - repeat wp_step.
    eapply wp_mono; [by apply placed_remove_bullet| |done].
    intros [] s1 Hs1. by repeat wp_step.
  - assert (∀ (r1 r2 : bool) s1,
      placed (if r1 || r2 then i else S i) rest s1 →
      wp powerup_pass
        (λ _ s2, wp (mret (if r1 || r2 then i else S i))
                   (λ i', placed i' rest) (λ _, True) s2)
        (λ _, True) s1) as Hpass.
    { intros r1 r2 s1 Hs1. eapply placed_frame; [|exact Hs1|done].
      intros P ? ? ? ?. by apply frame_powerup_pass. }
    repeat wp_step.
    destruct (decide (Bullet.owner (move_bullet b) ≠ ENEMY_OWNER)) as [Hne|He].
    + eapply wp_mono; [by apply placed_bullet_vs_enemies| |done].
      intros r1 s1 Hs1. wp_step.
      rewrite decide_False by done. repeat wp_step.
      apply (Hpass r1 false). by rewrite orb_false_r.
    + repeat wp_step.
      destruct (decide (Bullet.owner (move_bullet b) = ENEMY_OWNER)).
      * eapply wp_mono; [by apply placed_bullet_vs_players| |done].
        intros r2 s1 Hs1. repeat wp_step. by apply (Hpass false r2).
      * repeat wp_step. apply (Hpass false false). cbn.
        by eapply drop_place_next.
Qed.

(** The loop over the copy is the loop that reads the live list at the
    tracked place. *)
Lemma bullets_loop_reads_live snapshot : ∀ i s,
  drop i (GameState.bullets (GameServer.game_state s)) = snapshot →
  bullets_loop i snapshot s = bullets_loop_live i (length snapshot) s.
Proof.
  induction snapshot as [|b rest IH]; intros i s Hdrop; [done|].
  cbn [bullets_loop bullets_loop_live length].
  assert (GameState.bullets (GameServer.game_state s) !! i = Some b) as Hi.
  { rewrite <- (Nat.add_0_r i), <- lookup_drop, Hdrop. done. }
  pose proof (bullet_step_place i b rest s Hdrop) as Hstep.
  unfold wp in Hstep. unfold mbind, M_bind, gets. cbn. rewrite Hi.
  destruct (bullet_step i b s) as [[i'|x] s']; [|done].
  by apply IH.
Qed.

(** In a tick the loop starts at place 0 on a copy of the whole list. *)
Lemma update_game_state_loop_reads_live s :
  let bs := GameState.bullets (GameServer.game_state s) in
  bullets_loop 0 bs s = bullets_loop_live 0 (length bs) s.
Proof. by apply bullets_loop_reads_live. Qed.

End Places.

Lemma fresh_server_returned :
  @GameServer_init ExactFloat calm screen_1280x720 (blank_server 0)
  = (Ok tt, fresh_server).
Proof.
  unfold fresh_server.
  refine (returned (@GameServer_init ExactFloat calm screen_1280x720) tt
            (blank_server 0) _).
  vm_compute; reflexivity.
Qed.

Lemma fresh_server_reachable :
  @reachable ExactFloat calm screen_1280x720 fresh_server.
Proof. exact (reachable_init 0 _ fresh_server_returned). Qed.

(** * The constructor, and the health of the enemies *)

Section Construction.
Context `{Oracle} `{Screen}.

Lemma spawn_enemy_run d s :
  screen_ok →
  ∃ e, spawn_enemy d s = (Ok e, set_calls (GameServer.calls s + 7) s)
       ∧ Enemy.health e = enemy_health d
       ∧ Enemy.max_health e = enemy_health d.
Proof.
  intros [Hw Hh]. unfold spawn_enemy, random_randint.
  rewrite !decide_False by (unfold ENEMY_FIRE_RATE; lia).
  eexists. split.
  - cbv [mbind M_bind mret M_ret next_call random_uniform random_choice].
    cbn. f_equal. unfold set_calls. f_equal. lia.
  - done.
Qed.

Lemma spawn_enemies_run n : ∀ s,
  screen_ok →
  ∃ es, spawn_enemies n s = (Ok es, set_calls (GameServer.calls s + 7 * n) s)
        ∧ length es = n
        ∧ Forall (λ e, Enemy.health e = enemy_health normal
                       ∧ Enemy.max_health e = enemy_health normal) es.
Proof.
  intros s Hscreen. revert s.
  induction n as [|n IH]; intros s.
  - exists []. cbn. rewrite Nat.add_0_r, set_calls_id. done.
  - destruct (spawn_enemy_run normal s Hscreen) as (e & He & Hh & Hm).
    destruct (IH (set_calls (GameServer.calls s + 7) s)) as (es & Hes & Hl & Hall).
    exists (e :: es). cbn [spawn_enemies]. unfold mbind, M_bind.
    rewrite He, Hes. cbn. split_and!.
    + f_equal. rewrite set_calls_twice. f_equal. cbn. lia.
    + by rewrite Hl.
    + by constructor.
Qed.

Lemma spawn_enemy_raises d s :
  ¬ screen_ok →
  ∃ n, spawn_enemy d s = (Raise (ValueError "empty range"), set_calls n s).
Proof.
  intros Hscreen. unfold spawn_enemy, random_randint.
  destruct (decide (WIDTH - 50 < 50)).
  - exists (GameServer.calls s). by rewrite set_calls_id.
  - destruct (decide (HEIGHT - 50 < 50)).
    + by exists (S (GameServer.calls s)).
    + exfalso. apply Hscreen. unfold screen_ok. lia.
Qed.

End Construction.

Section Alive.
Context `{Oracle} `{Screen}.

Local Abbreviation A := (on_world all_alive).

Lemma alive_enemy_step i e : 0 < Enemy.health e → keeps A (enemy_step i e).
Proof.
  intros He. unfold enemy_step. keeps_tac.
  all: apply keeps_modify; intros g Hg; try assumption.
  all: by apply Forall_insert.
Qed.

Lemma alive_enemies_loop es : ∀ i,
  Forall (λ e, 0 < Enemy.health e) es → keeps A (enemies_loop i es).
Proof.
  induction es as [|e es IH]; intros i Hes; cbn [enemies_loop]; keeps_tac.
  - apply alive_enemy_step. by inversion Hes.
  - apply IH. by inversion Hes.
Qed.

(** The enemy brought to zero health or below is the one [remove] takes
    out, and the enemy that replaces it is at full health. *)
Lemma alive_kill_enemy b e k es s :
  Forall (λ e, 0 < Enemy.health e) es →
  (k < length es)%nat →
  Enemy.health e ≤ 0 →
  GameState.enemies (GameServer.game_state s) = <[k := e]> es →
  wp (kill_enemy b e) (λ _, A) A s.
Proof.
  intros Hes Hk Hdead Hs.
  unfold kill_enemy, drop_powerup, remove_enemy, reward_kill.
  repeat wp_step.
  destruct (list_remove e (<[k := e]> es)) as [es'|] eqn:Hrm.
  2:{ apply list_remove_None in Hrm. exfalso. apply Hrm.
      eapply list_elem_of_lookup_2. by apply list_lookup_insert_eq. }
  assert (Forall (λ e, 0 < Enemy.health e) es') as Hes'.
  { eapply (list_remove_restores _ e k); [exact Hes| |exact Hrm]. lia. }
  assert (∀ fresh, Enemy.health fresh = enemy_health (GameServer.difficulty s)
            → Forall (λ e, 0 < Enemy.health e) (es' ++ [fresh])) as Hall.
  { intros fresh Hfresh. apply Forall_app. split; [done|].
    apply Forall_singleton. rewrite Hfresh.
    by destruct (GameServer.difficulty s). }
  destruct (fltb _ _); repeat wp_step.
  - cbn. rewrite Hs, Hrm. repeat wp_step. apply wp_spawn_enemy.
    + intros fresh n Hfresh. repeat wp_step. cbn.
      destruct (list_find _ _) as [[j [id player]]|]; repeat wp_step.
      all: by apply Hall.
    + intros _ n. exact Hes'.
  - cbn. rewrite Hs, Hrm. repeat wp_step. apply wp_spawn_enemy.
    + intros fresh n Hfresh. repeat wp_step. cbn.
      destruct (list_find _ _) as [[j [id player]]|]; repeat wp_step.
      all: by apply Hall.
    + intros _ n. exact Hes'.
Qed.

Lemma alive_bullet_vs_enemies i b : keeps A (bullet_vs_enemies i b).
Proof.
  apply keeps_wp. intros s HA. unfold bullet_vs_enemies. repeat wp_step.
  destruct (list_find _ _) as [[k e]|] eqn:Hfind; [|by wp_step].
  apply list_find_Some in Hfind as (Hk & _ & _).
  assert (∀ s1,
    GameState.enemies (GameServer.game_state s1)
    = <[k := hit_enemy b e]> (GameState.enemies (GameServer.game_state s)) →
    ∀ r : bool,
    wp (if decide (Enemy.health (hit_enemy b e) ≤ 0)
        then kill_enemy b (hit_enemy b e) else mret tt)
      (λ _ s2, wp (mret r) (λ _, A) A s2) A s1) as Hrest.
  { intros s1 Hs1 r. destruct (decide (Enemy.health (hit_enemy b e) ≤ 0)).
    - eapply wp_mono; [eapply alive_kill_enemy; eauto| |done].
      + by eapply lookup_lt_Some.
      + intros [] s2 Hs2. by wp_step.
    - repeat wp_step. unfold on_world, all_alive. rewrite Hs1.
      apply Forall_insert; [done|lia]. }
  repeat wp_step. destruct (decide (Bullet.penetration (spent b) ≤ 0)).
  - unfold remove_bullet_if_present. repeat wp_step.
    destruct (list_remove _ _); repeat wp_step; by apply Hrest.
  - repeat wp_step. by apply Hrest.
Qed.

Lemma alive_bullet_step i b : keeps A (bullet_step i b).
Proof.
  pose proof alive_bullet_vs_enemies. unfold bullet_step. keeps_apart.
Qed.

Lemma alive_bullets_loop bs : ∀ i, keeps A (bullets_loop i bs).
Proof.
  induction bs as [|b bs IH]; intros i; cbn [bullets_loop]; keeps_tac.
  apply alive_bullet_step.
Qed.

Lemma alive_update_game_state : keeps A update_game_state.
Proof.
  apply keeps_wp. intros s HA. unfold update_game_state. wp_step.
  apply wp_keeps with (I := A); [keeps_tac|done| |done].
  intros t s1 HA1. wp_step.
  apply wp_keeps with (I := A); [keeps_apart|done| |done].
  intros [] s2 HA2. repeat wp_step.
  apply wp_keeps with (I := A); [|done| |done].
  { unfold spawn_powerup. keeps_apart. }
  intros [] s3 HA3. wp_step.
  apply wp_keeps with (I := A); [unfold expire_powerups; keeps_apart|done| |done].
  intros [] s4 HA4. repeat wp_step.
  apply wp_keeps with (I := A); [by apply alive_enemies_loop|done| |done].
  intros [] s5 HA5. repeat wp_step.
  apply keeps_run; [|done]. apply alive_bullets_loop.
Qed.

Lemma perform_all_alive ev s :
  all_alive (GameServer.game_state s) →
  all_alive (GameServer.game_state (perform ev s)).
Proof.
  intros HA. destruct ev as [|id|id data|id|d]; cbn [perform].
  - by apply alive_update_game_state.
  - done.
  - unfold all_alive.
    by destruct (handle_message_world id data s) as (_ & -> & _).
  - unfold all_alive.
    by destruct (disconnect_world id s) as (_ & -> & _).
  - done.
Qed.

End Alive.

Section Replacement.
Context `{Oracle} `{Screen}.

(** Among enemies that are all alive, the enemy a hit has brought to zero
    or below is the one [list.remove] finds. *)
Lemma list_remove_dead (es : list Enemy.t) k e dead :
  Forall (λ e, 0 < Enemy.health e) es →
  es !! k = Some e → Enemy.health dead ≤ 0 →
  list_remove dead (<[k := dead]> es) = Some (delete k es).
Proof.
  intros Hes Hk Hdead.
  destruct (list_remove dead (<[k := dead]> es)) as [es'|] eqn:Hrm.
  - apply list_remove_Some in Hrm as (j & Hj & -> & _).
    assert (j = k) as ->.
    { destruct (decide (j = k)) as [|Hne]; [done|].
      rewrite list_lookup_insert_ne in Hj by done.
      eapply Forall_lookup_1 in Hes; [|exact Hj]. cbn in Hes. lia. }
    by rewrite delete_insert_same.
  - apply list_remove_None in Hrm. exfalso. apply Hrm.
    eapply list_elem_of_lookup_2, list_lookup_insert_eq.
    by eapply lookup_lt_Some.
Qed.

(** What the resolution of a bullet that hits leaves of the enemies. *)
Lemma bullet_vs_enemies_enemies i bullet w k e :
  screen_ok →
  all_alive (GameServer.game_state w) →
  list_find (λ e, hits_enemy bullet e = true)
    (GameState.enemies (GameServer.game_state w)) = Some (k, e) →
  let es := GameState.enemies (GameServer.game_state w) in
  let es' := GameState.enemies
               (GameServer.game_state (bullet_vs_enemies i bullet w).2) in
  if decide (Enemy.health e - Bullet.damage bullet ≤ 0)
  then ∃ fresh, es' = delete k es ++ [fresh]
                ∧ Enemy.health fresh = enemy_health (GameServer.difficulty w)
  else es' = <[k := hit_enemy bullet e]> es.
Proof.
  intros Hscreen Halive Hfind. cbv zeta.
  apply list_find_Some in Hfind as Hk. destruct Hk as (Hk & _ & _).
  case_decide as Hdead.
  - destruct (bullet_vs_enemies_kill i bullet w k e Hscreen Hfind Hdead)
      as (_ & (es' & fresh & Hrm & -> & Hfresh) & _).
    exists fresh. split; [|done].
    rewrite (list_remove_dead _ k e) in Hrm by done. by simplify_eq.
  - assert (wp (bullet_vs_enemies i bullet)
              (λ _ s', GameState.enemies (GameServer.game_state s')
                       = <[k := hit_enemy bullet e]>
                           (GameState.enemies (GameServer.game_state w)))
              (λ _, False) w) as Hwp.
    { unfold bullet_vs_enemies. repeat wp_step. rewrite Hfind.
      repeat wp_step.
      destruct (decide (Bullet.penetration (spent bullet) ≤ 0)).
      - unfold remove_bullet_if_present. repeat wp_step. cbn.
        destruct (list_remove (spent bullet) _); repeat wp_step.
        all: rewrite decide_False by done; by repeat wp_step.
      - repeat wp_step. rewrite decide_False by done. by repeat wp_step. }
    unfold wp in Hwp.
    by destruct (bullet_vs_enemies i bullet w) as [[r|x] s'].
Qed.

(** The constructor leaves enemies at full health. *)
Lemma GameServer_init_alive n s :
  GameServer_init (blank_server n) = (Ok tt, s) →
  all_alive (GameServer.game_state s).
Proof.
  intros Hinit. apply GameServer_init_Ok in Hinit as Hscreen.
  destruct Hscreen as [Hscreen _].
  destruct (spawn_enemies_run NUM_ENEMIES (blank_server n) Hscreen)
    as (es & Hes & _ & Hall).
  unfold GameServer_init, mbind, M_bind in Hinit. rewrite Hes in Hinit.
  cbv [time_time next_call mbind M_bind mret M_ret modify
       set_last_powerup_time] in Hinit.
  simplify_eq. unfold all_alive. cbn.
  eapply list.Forall_impl; [exact Hall|]. by intros e [-> _].
Qed.

End Replacement.

(** * The claims of the specification *)



(** The scenario of C1 as a whole tick: the bullet moves from 90 to 95,
    reaches the player, and is gone; shield 10 becomes 0 and health 100
    becomes 95. *)
Example shield_scenario_tick :
  let r := tick calm (shield_world 90) in
  r.1 = Ok tt
  ∧ length (GameState.bullets (GameServer.game_state r.2)) = 0%nat
  ∧ (Player.shield <$> dict_get "p1"
       (GameState.players (GameServer.game_state r.2))) = Some (Some 0)
  ∧ (Player.health <$> dict_get "p1"
       (GameState.players (GameServer.game_state r.2))) = Some 95.
Proof. repeat split; vm_compute; reflexivity. Qed.

(** C2.  In every server a run reaches, and after any further events
    (ticks, merged payloads, connections, cleanups, changes of
    difficulty), whether they return or raise, the enemies are as many as
    the constructor spawned, and none of them has health 0 or below.
    For in every state of such a server whose enemies are all alive, the
    states in the middle of a tick included, the resolution of a bullet
    that hits an enemy leaves the collection at its length: when the hit
    brings the health of the enemy to 0 or below, that enemy is removed
    and a freshly spawned one, at the full health of the difficulty, is
    appended within that same resolution; otherwise the enemy stays at
    its place with its health lowered. *)
Theorem enemy_count_constant `{Oracle} `{Screen}
    (s : GameServer.t) (evs : list Event) :
  reachable s →
  let g' := GameServer.game_state (run evs s) in
  length (GameState.enemies g') = NUM_ENEMIES
  ∧ all_alive g'
  ∧ ∀ (w : GameServer.t) (i : nat) (bullet : Bullet.t) (k : nat)
      (e : Enemy.t),
      all_alive (GameServer.game_state w) →
      list_find (λ e, hits_enemy bullet e = true)
        (GameState.enemies (GameServer.game_state w)) = Some (k, e) →
      let es := GameState.enemies (GameServer.game_state w) in
      let es' := GameState.enemies
                   (GameServer.game_state (bullet_vs_enemies i bullet w).2) in
      length es' = length es
      ∧ if decide (Enemy.health e - Bullet.damage bullet ≤ 0)
        then ∃ fresh,
               es' = delete k es ++ [fresh]
               ∧ Enemy.health fresh = enemy_health (GameServer.difficulty w)
        else es' = <[k := hit_enemy bullet e]> es.
Proof.
  intros Hreach. pose proof (reachable_screen_ok s Hreach) as Hscreen.
  cbv zeta. split_and!.
  - rewrite run_enemy_count by done.
    induction Hreach as [n s Hinit|ev s Hreach IH].
    + by apply GameServer_init_Ok in Hinit as (_ & ? & _).
    + by rewrite perform_enemy_count.
  - assert (all_alive (GameServer.game_state s)) as Halive.
    { induction Hreach as [n s Hinit|ev s Hreach IH].
      - by apply GameServer_init_alive in Hinit.
      - by apply perform_all_alive, IH. }
    clear Hreach. revert s Halive.
    induction evs as [|ev evs IH]; intros s Halive; [done|].
    cbn. by apply IH, perform_all_alive.
  - intros w i bullet k e Halive Hfind.
    pose proof (bullet_vs_enemies_enemies i bullet w k e Hscreen Halive Hfind)
      as Hes.
    cbv zeta in Hes. apply list_find_Some in Hfind as (Hk & _).
    apply lookup_lt_Some in Hk.
    case_decide.
    + destruct Hes as (fresh & Hes & Hfresh). split; [|by exists fresh].
      rewrite Hes, length_app, length_delete by (by eapply lookup_lt_is_Some).
      cbn. lia.
    + split; [|done]. by rewrite Hes, length_insert.
Qed.

Lemma enemy_count_constant_witness :
  @reachable ExactFloat calm screen_1280x720 fresh_server
  ∧ (let g' := GameServer.game_state
                 (@run ExactFloat calm screen_1280x720
                    [Tick; Message "p1" lethal_payload; Tick] fresh_server) in
     length (GameState.enemies g') = 6%nat ∧ all_alive g')
  ∧ ∃ fresh,
      GameState.enemies
        (GameServer.game_state
           (@bullet_vs_enemies ExactFloat calm screen_1280x720 0 (round 487)
              (kill_world 502 487 [])).2)
      = [fresh]
      ∧ Enemy.health fresh = 30.
Proof.
  pose proof fresh_server_reachable as Hr.
  destruct (@enemy_count_constant ExactFloat calm screen_1280x720
              fresh_server [Tick; Message "p1" lethal_payload; Tick] Hr)
    as (Hlen & Halive & Hkill).
  split; [exact Hr|]. split; [exact (conj Hlen Halive)|].
  assert (all_alive (GameServer.game_state (kill_world 502 487 [])))
    as Hfive.
  { apply Forall_singleton. cbn. lia. }
  destruct (Hkill (kill_world 502 487 []) 0%nat (round 487) 0%nat
              (an_enemy (at_xy 502 500) 5) Hfive eq_refl)
    as [_ Hdead].
  rewrite decide_True in Hdead by (cbn; lia).
  exact Hdead.
Defined.

(** The run of the witness kills an enemy.  In its second tick the
    bullet of "p1" reaches the first of the six enemies, which stand at
    the same place, and takes its 30 points of health: afterwards the
    five others have moved on, a fresh enemy at full health is last in
    the list, at the place where the constructor's draws put it, the
    bullet is spent and "p1" has the 10 points of experience of a
    kill. *)
Example a_run_with_a_kill :
  let s := @run ExactFloat calm screen_1280x720
             [Tick; Message "p1" lethal_payload; Tick] fresh_server in
  (λ e, (Enemy.pos e, Enemy.health e))
    <$> GameState.enemies (GameServer.game_state s)
  = [(Fin (266 # 5), Fin 50, 30); (Fin (266 # 5), Fin 50, 30);
     (Fin (266 # 5), Fin 50, 30); (Fin (266 # 5), Fin 50, 30);
     (Fin (266 # 5), Fin 50, 30); (Fin 50, Fin 50, 30)]
  ∧ GameState.bullets (GameServer.game_state s) = []
  ∧ (Player.xp <$> dict_get "p1"
       (GameState.players (GameServer.game_state s))) = Some (Some 10).
Proof. repeat split; vm_compute; reflexivity. Qed.

(** C3, as the code has it.  The handler stores the penetration a client
    sends unchecked.  The counters here are ints, as the enemies and the
    game's own client make them.  Among bullets that all entered with a
    penetration of at least 1, the counter of every bullet of the
    collection stays at least 1 through every event whose payload
    bullets have a penetration of at least 1; a hit on an enemy lowers
    the counter by exactly 1, and the bullet leaves the collection in
    that same resolution exactly when its counter was 1, and otherwise
    stays in place with the lowered counter.  (A counter that is no int
    is outside the embedding: the code takes 1.5 to 0.5 at the first
    hit, where the bullet stays, and removes it at -0.5.) *)
Theorem penetration_spent_on_hits `{Oracle} `{Screen} (s : GameServer.t) :
  live_bullets (GameServer.game_state s) →
  (∀ ev,
     (∀ id data, ev = Message id data →
        Forall (λ b, 1 ≤ NewBullet.penetration b)
          (default [] (Player.new_bullets data))) →
     live_bullets (GameServer.game_state (perform ev s)))
  ∧ (∀ bullet, Bullet.penetration (spent bullet)
               = Bullet.penetration bullet - 1)
  ∧ (∀ i bullet k e,
       GameState.bullets (GameServer.game_state s) !! i = Some bullet →
       list_find (λ e, hits_enemy bullet e = true)
         (GameState.enemies (GameServer.game_state s)) = Some (k, e) →
       GameState.bullets
         (GameServer.game_state (bullet_vs_enemies i bullet s).2)
       = if decide (Bullet.penetration bullet = 1)
         then delete i (GameState.bullets (GameServer.game_state s))
         else <[i := spent bullet]>
                (GameState.bullets (GameServer.game_state s))).
Proof.
  intros Hlive. split_and!.
  - intros ev Hev. destruct ev as [|id|id data|id|d]; cbn [perform].
    + by apply live_update_game_state.
    + done.
    + unfold live_bullets.
      destruct (handle_message_world id data s) as (_ & _ & -> & _).
      apply Forall_app. split; [done|]. unfold fired.
      apply Forall_fmap. exact (Hev id data eq_refl).
    + unfold live_bullets.
      by destruct (disconnect_world id s) as (_ & _ & -> & _).
    + done.
  - done.
  - intros i bullet k e Hi Hfind.
    rewrite (bullet_vs_enemies_bullets i bullet s k e Hfind). cbv zeta.
    assert (1 ≤ Bullet.penetration bullet) as Hpen.
    { eapply Forall_lookup_1 in Hlive; [|exact Hi]. done. }
    destruct (decide (Bullet.penetration bullet = 1)) as [Hone|Hmore].
    + rewrite decide_True by (cbn; lia).
      erewrite list_remove_spent; [done|exact Hlive|exact Hi|cbn; lia].
    + rewrite decide_False by (cbn; lia). done.
Qed.

Lemma penetration_spent_on_hits_witness :
  live_bullets (GameServer.game_state (kill_world 502 487 []))
  ∧ GameState.bullets (GameServer.game_state
      (@bullet_vs_enemies ExactFloat calm screen_1280x720 0 (round 487)
         (kill_world 502 487 [])).2) = [].
Proof.
  assert (live_bullets (GameServer.game_state (kill_world 502 487 [])))
    as Hlive.
  { constructor; [cbn; lia|constructor]. }
  split; [exact Hlive|].
  pose proof (@penetration_spent_on_hits ExactFloat calm screen_1280x720
                (kill_world 502 487 []) Hlive) as (_ & _ & Hhit).
  exact (Hhit 0%nat (round 487) 0%nat (an_enemy (at_xy 502 500) 5)
           eq_refl eq_refl).
Defined.

(** C3, as stated, fails: a client's payload puts a bullet of
    penetration -1 into the world of a reachable server. *)
Lemma injected_penetration_is_negative :
  ¬ ∀ s : GameServer.t,
      @reachable ExactFloat calm screen_1280x720 s →
      Forall (λ b, 0 ≤ Bullet.penetration b)
        (GameState.bullets (GameServer.game_state s)).
Proof.
  intros Hall.
  specialize (Hall (@perform ExactFloat calm screen_1280x720
                      (Message "p1" rogue_payload) fresh_server)).
  pose proof fresh_server_reachable as Hr.
  specialize (Hall (reachable_step _ _ Hr)). cbn [perform] in Hall.
  destruct (@handle_message_world ExactFloat calm "p1" rogue_payload
              fresh_server) as (_ & _ & Hbs & _).
  rewrite Hbs in Hall. apply Forall_app in Hall as [_ Hall].
  unfold fired in Hall. cbn in Hall.
  apply Forall_cons_1 in Hall as [Hbad _]. by apply Hbad.
Qed.

(** A bullet injected with penetration 0 is not removed at 0: it stays in
    the collection until a hit takes it to -1. *)
Example injected_penetration_zero_stays :
  let zero := Bullet.mk (at_xy 480 300) (Fin 0) 0 10 "p1" in
  let r := tick calm (a_world [("p1", novice)] [an_enemy (at_xy 500 500) 5]
                        [zero] []) in
  r.1 = Ok tt
  ∧ Bullet.penetration <$> GameState.bullets (GameServer.game_state r.2)
    = [0].
Proof. repeat split; vm_compute; reflexivity. Qed.

(** A counter that is not an int is outside the rule as well.  Sent as
    1.5, it is 0.5 after the first hit, and the bullet stays; the second
    hit takes it to -0.5 and the bullet goes. *)
Example fractional_penetration_outlives_a_hit :
  @float_counter_after_hit ExactFloat (Fin (3 # 2)) = (Fin (1 # 2), false)
  ∧ @float_counter_after_hit ExactFloat (Fin (1 # 2)) = (Fin (-1 # 2), true).
Proof. split; vm_compute; reflexivity. Qed.


(** C4 fails on the code.  The pass over the powerups sits in the body of
    the loop over the bullets, so a tick that processes no bullet picks
    nothing up: here a wounded player stands 10 away from a health
    powerup, within the pickup radius of 25, and after the tick the
    powerup is still there and the player's health is still 50. *)
Theorem powerup_left_when_no_bullet_flies :
  let r := tick calm (pickup_world []) in
  first_player_within 25 (Powerup.pos medkit)
    (GameState.players (GameServer.game_state (pickup_world [])))
  = Some (0%nat, ("p1", wounded))
  ∧ r.1 = Ok tt
  ∧ seen <$> GameState.powerups (GameServer.game_state r.2)
    = [(health_up, 100, 110)]
  ∧ (Player.health <$> dict_get "p1"
       (GameState.players (GameServer.game_state r.2))) = Some 50.
Proof.
  split; [reflexivity|]. repeat split; vm_compute; reflexivity.
Qed.

(** The same world with one bullet in flight far from everything: now
    the pass runs, the powerup is taken and the player healed to 75. *)
Example powerup_taken_when_a_bullet_flies :
  let stray := Bullet.mk (at_xy 900 300) (Fin 0) 1 10 "p1" in
  let r := tick calm (pickup_world [stray]) in
  r.1 = Ok tt
  ∧ seen <$> GameState.powerups (GameServer.game_state r.2) = []
  ∧ (Player.health <$> dict_get "p1"
       (GameState.players (GameServer.game_state r.2))) = Some 75.
Proof. repeat split; vm_compute; reflexivity. Qed.

Section Pickup.
Context `{Oracle} `{Screen}.

(** A loop over no bullets does nothing, the pass over the powerups
    included. *)
Lemma bullets_loop_nil i s : bullets_loop i [] s = (Ok tt, s).
Proof. done. Qed.

(** One pass does what C4 asks of a tick: the first player in reach of a
    powerup receives its effect and the powerup leaves the collection,
    once. *)
Lemma pick_up_takes powerup i id player s :
  first_player_within 25 (Powerup.pos powerup)
    (GameState.players (GameServer.game_state s)) = Some (i, (id, player)) →
  Powerup.type powerup ≠ xp_up →
  powerup ∈ GameState.powerups (GameServer.game_state s) →
  ∃ player',
    (pick_up powerup s).1 = Ok tt
    ∧ GameState.players (GameServer.game_state (pick_up powerup s).2)
      = <[i := (id, player')]> (GameState.players (GameServer.game_state s))
    ∧ list_remove powerup (GameState.powerups (GameServer.game_state s))
      = Some (GameState.powerups (GameServer.game_state (pick_up powerup s).2))
    ∧ match Powerup.type powerup with
      | health_up =>
          Player.health player'
          = Z.min (Player.health player + 25)
              (default 100 (Player.max_health player))
      | shield_up =>
          Player.shield player' = Some 30
          ∧ is_Some (Player.shield_end_time player')
      | speed_up =>
          is_Some (Player.movement_speed_boost player')
          ∧ is_Some (Player.speed_end_time player')
      | damage_up =>
          Player.damage_boost player' = Some 5
          ∧ is_Some (Player.damage_end_time player')
      | xp_up => True
      end.
Proof.
  intros Hfirst Hty Hin.
  destruct (list_remove powerup
              (GameState.powerups (GameServer.game_state s)))
    as [pus'|] eqn:Hrm; [|by apply list_remove_None in Hrm].
  assert (wp (pick_up powerup)
            (λ _ s', ∃ player',
               GameState.players (GameServer.game_state s')
               = <[i := (id, player')]>
                   (GameState.players (GameServer.game_state s))
               ∧ pus' = GameState.powerups (GameServer.game_state s')
               ∧ match Powerup.type powerup with
                 | health_up =>
                     Player.health player'
                     = Z.min (Player.health player + 25)
                         (default 100 (Player.max_health player))
                 | shield_up =>
                     Player.shield player' = Some 30
                     ∧ is_Some (Player.shield_end_time player')
                 | speed_up =>
                     is_Some (Player.movement_speed_boost player')
                     ∧ is_Some (Player.speed_end_time player')
                 | damage_up =>
                     Player.damage_boost player' = Some 5
                     ∧ is_Some (Player.damage_end_time player')
                 | xp_up => True
                 end)
            (λ _, False) s) as Hwp.
  { unfold pick_up. repeat wp_step. rewrite Hfirst. wp_step.
    unfold apply_powerup, remove_powerup.
    destruct (Powerup.type powerup); [| | | |done].
    all: repeat wp_step; cbn; rewrite Hrm; repeat wp_step; cbn.
    all: eexists; split_and!; try reflexivity; eauto. }
  unfold wp in Hwp.
  destruct (pick_up powerup s) as [[[]|x] s']; [|done].
  destruct Hwp as (player' & Hps & -> & Heffect).
  exists player'. by split_and!.
Qed.

End Pickup.

(** What holds of the rule of C5.  A grant of experience that brings a
    player to or over the threshold levels the player up once: level up
    by 1, the threshold taken off the experience, the threshold grown by
    half, one more upgrade point, whatever experience remains.  This
    holds for the award of a kill and, for a player record that has a
    level, for the "xp" powerup.  With experience 90, threshold 100 and
    the powerup's 30: experience 20, threshold 150. *)
Lemma level_up_once_per_grant `{Oracle} `{Screen} (player : Player.t) :
  let xp0 := default 0 (Player.xp player) in
  let threshold := default 100 (Player.xp_to_next_level player) in
  (∀ d, threshold ≤ xp0 + kill_xp d →
     levelled (default 1 (Player.level player)) (xp0 + kill_xp d) threshold
       player (award_kill_xp d player))
  ∧ (∀ s i id level0,
       Player.level player = Some level0 → threshold ≤ xp0 + 30 →
       ∃ player',
         apply_powerup i id xp_up player s
         = (Ok tt, (store_player i id player' s).2)
         ∧ levelled level0 (xp0 + 30) threshold player player')
  ∧ (∀ s i id level0,
       Player.level player = Some level0 →
       Player.xp player = Some 90 →
       Player.xp_to_next_level player = Some 100 →
       ∃ player',
         apply_powerup i id xp_up player s
         = (Ok tt, (store_player i id player' s).2)
         ∧ Player.level player' = Some (level0 + 1)
         ∧ Player.xp player' = Some 20
         ∧ Player.xp_to_next_level player' = Some 150
         ∧ Player.upgrade_points player'
           = Some (default 0 (Player.upgrade_points player) + 1)).
Proof.
  cbv zeta. split_and!.
  - intros d Hge. by apply award_kill_xp_levels.
  - intros s i id level0 Hlevel Hge. by apply apply_xp_powerup_levels.
  - intros s i id level0 Hlevel Hxp Hthr.
    destruct (apply_xp_powerup_levels i id player level0 s Hlevel)
      as (player' & Hrun & Hl & Hx & Ht & Hu & _).
    { rewrite Hxp, Hthr. cbn. lia. }
    rewrite Hxp, Hthr in *. cbn in *. by exists player'.
Qed.

Lemma level_up_once_per_grant_witness :
  Player.level (a_player (at_xy 100 100) 100 None (Some 3) (Some 90)
                  (Some 100)) = Some 3
  ∧ ∃ player',
      @apply_powerup ExactFloat calm 0 "p1" xp_up
        (a_player (at_xy 100 100) 100 None (Some 3) (Some 90) (Some 100))
        (a_world [] [] [] [])
      = (Ok tt, (store_player 0 "p1" player' (a_world [] [] [] [])).2)
      ∧ Player.level player' = Some 4
      ∧ Player.xp player' = Some 20
      ∧ Player.xp_to_next_level player' = Some 150
      ∧ Player.upgrade_points player' = Some 1.
Proof.
  split; [reflexivity|].
  exact (proj2 (proj2 (@level_up_once_per_grant ExactFloat calm
                         screen_1280x720
                         (a_player (at_xy 100 100) 100 None (Some 3)
                            (Some 90) (Some 100))))
           (a_world [] [] [] []) 0%nat "p1" 3 eq_refl eq_refl eq_refl).
Defined.

Section NoLevel.
Context `{Oracle} `{Screen}.

(** The "xp" branch on a record without level: the experience is granted
    and written, then [player["level"] += 1] raises. *)
Lemma apply_xp_powerup_without_level i id player s :
  Player.level player = None →
  let xp1 := default 0 (Player.xp player) + 30 in
  let threshold := default 100 (Player.xp_to_next_level player) in
  threshold ≤ xp1 →
  apply_powerup i id xp_up player s
  = (Raise (KeyError "level"),
     (store_player i id
        (with_xp_to_next_level threshold (with_xp xp1 player)) s).2).
Proof.
  cbv zeta. intros Hlevel Hge. unfold apply_powerup.
  rewrite decide_True by done. by rewrite Hlevel.
Qed.

End NoLevel.

(** C5 fails on the code.  A grant that brings a player to its threshold
    is to level the player up once.  The award of a kill does, whatever
    keys the record holds: it supplies the defaults.  The "xp" powerup
    does not on a record that holds no key "level", which the handler
    stores as any other: here such a player, at experience 90 of 100,
    stands 10 away from an "xp" powerup.  The tick grants the 30 points
    and raises [KeyError] at [player["level"] += 1]: the player is left
    at experience 120 of 100, without level and without upgrade point,
    and the powerup is still there.  The award of a kill on the same
    record gives level 2, experience 0 of 150 and one upgrade point; and
    the same tick with a record that holds level 1 returns with level 2,
    experience 20 of 150, one upgrade point, and the powerup taken. *)
Theorem xp_powerup_needs_a_level :
  let r := tick calm (xp_world rookie) in
  first_player_within 25 (Powerup.pos gem)
    (GameState.players (GameServer.game_state (xp_world rookie)))
  = Some (0%nat, ("p1", rookie))
  ∧ progress rookie = (None, Some 90, Some 100, None)
  ∧ r.1 = Raise (KeyError "level")
  ∧ (progress <$> dict_get "p1"
       (GameState.players (GameServer.game_state r.2)))
    = Some (None, Some 120, Some 100, None)
  ∧ seen <$> GameState.powerups (GameServer.game_state r.2)
    = [(xp_up, 100, 110)]
  ∧ progress (award_kill_xp normal rookie)
    = (Some 2, Some 0, Some 150, Some 1)
  ∧ let r' := tick calm (xp_world (with_level 1 rookie)) in
    r'.1 = Ok tt
    ∧ (progress <$> dict_get "p1"
         (GameState.players (GameServer.game_state r'.2)))
      = Some (Some 2, Some 20, Some 150, Some 1)
    ∧ GameState.powerups (GameServer.game_state r'.2) = [].
Proof.
  split; [reflexivity|]. repeat split; vm_compute; reflexivity.
Qed.

(** The award of a kill is 10 times the multiplier of the difficulty. *)
Lemma kill_xp_is_ten_times_multiplier d :
  (inject_Z (kill_xp d) == 10 * xp_multiplier d)%Q.
Proof. by destruct d. Qed.



(** The scenario of C6 as a whole tick, with an oracle that drops no
    powerup: the enemy moves to 502, the bullet to 487 and into it. *)
Example kill_scenario_tick :
  let r := tick calm (kill_world 500 480 []) in
  r.1 = Ok tt
  ∧ length (GameState.enemies (GameServer.game_state r.2)) = 1%nat
  ∧ Enemy.health <$> GameState.enemies (GameServer.game_state r.2) = [30]
  ∧ length (GameState.bullets (GameServer.game_state r.2)) = 0%nat
  ∧ (Player.xp <$> dict_get "p1"
       (GameState.players (GameServer.game_state r.2))) = Some (Some 10).
Proof. repeat split; vm_compute; reflexivity. Qed.

(** C7.  Merging a payload replaces [players[id]] by the payload as a
    whole, and merging the same payload, one without new bullets, a
    second time leaves [players] (so [players[id]]) and [bullets] as the
    first merge left them. *)
Theorem merge_is_idempotent `{Oracle} `{Screen}
    (s : GameServer.t) (id : string) (data : Player.t) :
  default [] (Player.new_bullets data) = [] →
  let s1 := (handle_message id data s).2 in
  let s2 := (handle_message id data s1).2 in
  dict_get id (GameState.players (GameServer.game_state s1)) = Some data
  ∧ dict_get id (GameState.players (GameServer.game_state s2)) = Some data
  ∧ GameState.players (GameServer.game_state s2)
    = GameState.players (GameServer.game_state s1)
  ∧ GameState.bullets (GameServer.game_state s2)
    = GameState.bullets (GameServer.game_state s1).
Proof.
  intros Hnone. cbv zeta.
  destruct (handle_message_world id data s) as (Hps1 & _ & Hbs1 & _).
  destruct (handle_message_world id data (handle_message id data s).2)
    as (Hps2 & _ & Hbs2 & _).
  rewrite Hps2, Hbs2, Hps1. unfold fired. rewrite Hnone.
  split_and!.
  - apply dict_get_set_eq.
  - apply dict_get_set_eq.
  - apply dict_set_set.
  - apply app_nil_r.
Qed.

Lemma merge_is_idempotent_witness :
  default [] (Player.new_bullets idle_payload) = []
  ∧ dict_get "p1"
      (GameState.players (GameServer.game_state
         (@handle_message ExactFloat calm "p1" idle_payload
            (@handle_message ExactFloat calm "p1" idle_payload
               fresh_server).2).2))
    = Some idle_payload.
Proof.
  split; [reflexivity|].
  exact (proj1 (proj2
    (@merge_is_idempotent ExactFloat calm screen_1280x720 fresh_server
       "p1" idle_payload eq_refl))).
Defined.

(** A payload that does carry bullets is not merged idempotently on
    [bullets]: each merge appends them again. *)
Lemma merge_appends_each_time `{Oracle} `{Screen}
    (s : GameServer.t) (id : string) (data : Player.t) :
  let s1 := (handle_message id data s).2 in
  let s2 := (handle_message id data s1).2 in
  GameState.bullets (GameServer.game_state s2)
  = GameState.bullets (GameServer.game_state s)
    ++ fired id data ++ fired id data.
Proof.
  cbv zeta.
  destruct (handle_message_world id data s) as (_ & _ & Hbs1 & _).
  destruct (handle_message_world id data (handle_message id data s).2)
    as (_ & _ & Hbs2 & _).
  by rewrite Hbs2, Hbs1, <- app_assoc.
Qed.

(** C8, as the code has it.  The periodic spawn is skipped, with no
    effect at all and no error, when the collection already holds 5
    powerups or more.  The drop of a dead enemy has no cap: when the
    random draw is below 0.1 it appends a powerup at the enemy's place
    whatever the size of the collection. *)
Theorem periodic_spawn_is_capped `{Oracle} `{Screen} (s : GameServer.t) :
  (5 ≤ length (GameState.powerups (GameServer.game_state s)))%nat →
  spawn_powerup s = (Ok tt, s)
  ∧ (∀ enemy,
       fltb (rand_unit (GameServer.calls s)) (flit (1 # 10)) = true →
       (drop_powerup enemy s).1 = Ok tt
       ∧ ∃ powerup,
           Powerup.pos powerup = Enemy.pos enemy
           ∧ GameState.powerups
               (GameServer.game_state (drop_powerup enemy s).2)
             = GameState.powerups (GameServer.game_state s) ++ [powerup]).
Proof.
  intros Hfull. split.
  - unfold spawn_powerup, mbind, M_bind. cbn.
    by rewrite decide_True.
  - intros enemy Hdraw.
    assert (wp (drop_powerup enemy)
              (λ _ s', ∃ powerup,
                 Powerup.pos powerup = Enemy.pos enemy
                 ∧ GameState.powerups (GameServer.game_state s')
                   = GameState.powerups (GameServer.game_state s)
                     ++ [powerup])
              (λ _, False) s) as Hwp.
    { unfold drop_powerup. repeat wp_step. rewrite Hdraw.
      repeat wp_step. cbn. eexists. split; [|reflexivity]. done. }
    unfold wp in Hwp. by destruct (drop_powerup enemy s) as [[[]|x] s'].
Qed.

Lemma periodic_spawn_is_capped_witness :
  (5 ≤ length (GameState.powerups
                 (GameServer.game_state (kill_world 502 487 five_powerups))))%nat
  ∧ @spawn_powerup ExactFloat eager screen_1280x720
      (kill_world 502 487 five_powerups)
    = (Ok tt, kill_world 502 487 five_powerups).
Proof.
  split; [cbn; lia|].
  refine (proj1 (@periodic_spawn_is_capped ExactFloat eager screen_1280x720
                   (kill_world 502 487 five_powerups) _)).
  cbn; lia.
Defined.

(** C8, as stated, fails for the drop: a tick that starts with 5 powerups
    and kills an enemy, the draw being below 0.1, ends with 6. *)
Lemma drop_exceeds_the_cap :
  let r := tick eager (kill_world 500 480 five_powerups) in
  length (GameState.powerups
            (GameServer.game_state (kill_world 500 480 five_powerups)))
  = 5%nat
  ∧ r.1 = Ok tt
  ∧ length (GameState.powerups (GameServer.game_state r.2)) = 6%nat
  ∧ (seen <$> GameState.powerups (GameServer.game_state r.2)) !! 5%nat
    = Some (health_up, 502, 500).
Proof. repeat split; vm_compute; reflexivity. Qed.

(** The ["send_time"] of a snapshot is the reading of the server's own
    clock at the merge, not the stamp of the payload. *)
Lemma snapshot_stamp_is_the_servers `{Oracle} `{Screen} id data s snapshot :
  (handle_message id data s).1 = Ok snapshot →
  GameState.send_time snapshot = Some (clock (GameServer.calls s)).
Proof.
  pose proof (handle_message_spec id data s) as Hs. unfold wp in Hs.
  destruct (handle_message id data s) as [[g|x] s']; [|done].
  cbn. intros [= ->]. by destruct Hs as (_ & _ & _ & _ & _ & ->).
Qed.

(** C9, as the code has it.  A received snapshot replaces the cached one
    whole; the latency becomes [int((receive_time - send_time) * 1000)]
    whenever the snapshot carries a ["send_time"], and is left as it was
    otherwise.  Nothing else is consulted: the client keeps no stamp of
    its own sends.  For a snapshot the server's handler sends, the stamp
    is the server's clock at the merge. *)
Theorem snapshot_replaces_cache `{Oracle} `{Screen}
    (g : GameState.t) (receive_time : float) (c : NetworkClient.t) :
  let c' := receive_data (Snapshot g) receive_time c in
  NetworkClient.game_state c' = g
  ∧ NetworkClient.last_received c' = receive_time
  ∧ NetworkClient.connected c' = NetworkClient.connected c
  ∧ NetworkClient.ping c'
    = match GameState.send_time g with
      | Some st => ftrunc (fmul (fsub receive_time st) (of_int 1000))
      | None => NetworkClient.ping c
      end
  ∧ (∀ id data s,
       (handle_message id data s).1 = Ok g →
       NetworkClient.ping c'
       = ftrunc (fmul (fsub receive_time (clock (GameServer.calls s)))
                   (of_int 1000))).
Proof.
  cbv zeta. split_and!; try done.
  intros id data s Hsent. cbn.
  by rewrite (snapshot_stamp_is_the_servers id data s g Hsent).
Qed.

Lemma snapshot_replaces_cache_witness :
  let sent := @handle_message ExactFloat calm "p1" idle_payload
                (a_world [] [] [] []) in
  let c := connect true (NetworkClient_init (Fin 0)) in
  sent.1 = Ok (GameServer.game_state sent.2)
  ∧ NetworkClient.ping
      (receive_data (Snapshot (GameServer.game_state sent.2)) (Fin 7) c)
    = 7000.
Proof.
  cbv zeta.
  assert ((@handle_message ExactFloat calm "p1" idle_payload
             (a_world [] [] [] [])).1
          = Ok (GameServer.game_state
                  (@handle_message ExactFloat calm "p1" idle_payload
                     (a_world [] [] [] [])).2)) as Hsent by reflexivity.
  split; [exact Hsent|].
  exact (proj2 (proj2 (proj2 (proj2
    (@snapshot_replaces_cache ExactFloat calm screen_1280x720
       (GameServer.game_state
          (@handle_message ExactFloat calm "p1" idle_payload
             (a_world [] [] [] [])).2)
       (Fin 7) (connect true (NetworkClient_init (Fin 0)))))))
    "p1" idle_payload (a_world [] [] [] []) Hsent).
Defined.

(** C9, as stated, fails: a client that is connected and has sent nothing
    receives the snapshot the handler sends on connection, stamped 42 by
    the server's constructor, at time 45, and computes a latency of 3000;
    as specified it would compute none. *)
Lemma latency_computed_without_a_send :
  let c := connect true (NetworkClient_init (Fin 0)) in
  let g := GameServer.game_state fresh_server in
  GameState.send_time g = Some (Fin 42)
  ∧ NetworkClient.ping (receive_data (Snapshot g) (Fin 45) c) = 3000
  ∧ NetworkClient.ping
      (receive_data_as_specified None (Snapshot g) (Fin 45) c) = 0.
Proof. repeat split; vm_compute; reflexivity. Qed.

(** The stamp the latency is taken from is not the client's own: a
    payload stamped 0 by the client comes back in a snapshot stamped 44
    by the server, and the client, receiving it at 50, computes 6000 and
    not 50000. *)
Example latency_is_taken_from_the_servers_stamp :
  let c := connect true (NetworkClient_init (Fin 0)) in
  let g := GameServer.game_state
             (@handle_message ExactFloat calm "p1" idle_payload
                fresh_server).2 in
  (Player.send_time <$> dict_get "p1" (GameState.players g))
  = Some (Some (Fin 0))
  ∧ GameState.send_time g = Some (Fin 44)
  ∧ NetworkClient.ping (receive_data (Snapshot g) (Fin 50) c) = 6000.
Proof. repeat split; vm_compute; reflexivity. Qed.

(** C10.  A tick leaves the identifiers of [players] as they are; no
    event but the cleanup of a player's own handler takes the player's
    identifier out; and the damage of an enemy's bullet on a player
    without a positive shield comes off health whatever health is, so
    that [n] hits take [n] times the damage. *)
Theorem players_leave_only_on_disconnect `{Oracle} `{Screen}
    (s : GameServer.t) :
  dict_keys (GameState.players (GameServer.game_state (update_game_state s).2))
  = dict_keys (GameState.players (GameServer.game_state s))
  ∧ (∀ ev id,
       id ∈ dict_keys (GameState.players (GameServer.game_state s)) →
       ev ≠ Disconnect id →
       id ∈ dict_keys
              (GameState.players (GameServer.game_state (perform ev s))))
  ∧ (∀ damage player,
       (∀ sh, Player.shield player = Some sh → sh ≤ 0) →
       Player.health (damage_player damage player)
       = Player.health player - damage)
  ∧ (∀ damage player n,
       Player.shield player = None →
       Player.health (Nat.iter n (damage_player damage) player)
       = Player.health player - Z.of_nat n * damage).
Proof.
  split_and!.
  - apply update_game_state_keys.
  - intros ev id. apply perform_keeps_player.
  - intros damage player Hsh. unfold damage_player.
    destruct (Player.shield player) as [sh|]; [|done].
    specialize (Hsh sh eq_refl). by rewrite decide_False by lia.
  - intros damage player n Hsh.
    assert (Player.shield (Nat.iter n (damage_player damage) player) = None
            ∧ Player.health (Nat.iter n (damage_player damage) player)
              = Player.health player - Z.of_nat n * damage) as [_ Hn];
      [|done].
    induction n as [|n [IHs IHh]]; [split; [done|cbn; lia]|].
    rewrite Nat.iter_succ. unfold damage_player at 1 3. rewrite IHs. cbn.
    split; [done|]. rewrite IHh. lia.
Qed.

Lemma players_leave_only_on_disconnect_witness :
  ("p1" ∈ dict_keys
            (GameState.players (GameServer.game_state (shield_world 90)))
   ∧ Tick ≠ Disconnect "p1")
  ∧ "p1" ∈ dict_keys
             (GameState.players (GameServer.game_state
                (@perform ExactFloat calm screen_1280x720 Tick
                   (shield_world 90)))).
Proof.
  assert ("p1" ∈ dict_keys
            (GameState.players (GameServer.game_state (shield_world 90))))
    as Hin by apply list_elem_of_here.
  assert (@Tick ExactFloat ≠ Disconnect "p1") as Hev by discriminate.
  split; [by split|].
  exact (proj1 (proj2
    (@players_leave_only_on_disconnect ExactFloat calm screen_1280x720
       (shield_world 90))) Tick "p1" Hin Hev).
Defined.

(** A player at health 5 hit for 15 is left in [players] at health -10. *)
Example health_goes_negative :
  let frail := a_player (at_xy 100 100) 5 None (Some 1) (Some 0) (Some 100) in
  let r := tick calm (a_world [("p1", frail)] [an_enemy (at_xy 500 500) 30]
                        [shot 90] []) in
  r.1 = Ok tt
  ∧ dict_keys (GameState.players (GameServer.game_state r.2)) = ["p1"]
  ∧ (Player.health <$> dict_get "p1"
       (GameState.players (GameServer.game_state r.2))) = Some (-10).
Proof. repeat split; vm_compute; reflexivity. Qed.

(** * Further properties of the code

    Properties of the server, the client and the local player beyond the
    claims of the specification, read off the code. *)

Section Sweeps.
Context {A : Type} `{EqDecision A}.

(** [remove] takes the element in hand when no equal element stands
    before it. *)
Lemma list_remove_middle (x : A) (done rest : list A) :
  x ∉ done → list_remove x (done ++ x :: rest) = Some (done ++ rest).
Proof.
  intros Hx. unfold list_remove.
  rewrite list_find_app_r.
  - cbn. rewrite decide_True by done. cbn.
    by rewrite delete_middle.
  - apply list_find_None, Forall_forall. intros y Hy ->.
    by apply Hx, list_elem_of_In.
Qed.

End Sweeps.

(** X1.  [GameServer.__init__] on a play field of at least 100 x 100
    returns: the world has [NUM_ENEMIES] enemies, each at the full health
    of difficulty "normal", no player, no bullet and no powerup; the time
    stamp and the powerup timer are the two clock readings that follow the
    seven random draws of each enemy. *)
Theorem constructor_builds_the_world `{Oracle} `{Screen} (n : nat) :
  screen_ok →
  ∃ s, GameServer_init (blank_server n) = (Ok tt, s)
       ∧ length (GameState.enemies (GameServer.game_state s)) = NUM_ENEMIES
       ∧ Forall (λ e, Enemy.health e = 30 ∧ Enemy.max_health e = 30)
           (GameState.enemies (GameServer.game_state s))
       ∧ GameState.players (GameServer.game_state s) = []
       ∧ GameState.bullets (GameServer.game_state s) = []
       ∧ GameState.powerups (GameServer.game_state s) = []
       ∧ GameState.send_time (GameServer.game_state s)
         = Some (clock (n + 7 * NUM_ENEMIES))
       ∧ GameServer.last_powerup_time s = clock (n + 7 * NUM_ENEMIES + 1)
       ∧ GameServer.clients s = []
       ∧ GameServer.difficulty s = normal.
Proof.
  intros Hscreen.
  destruct (spawn_enemies_run NUM_ENEMIES (blank_server n) Hscreen)
    as (es & Hes & Hlen & Hall).
  eexists. split.
  - unfold GameServer_init, mbind, M_bind. rewrite Hes. cbn. reflexivity.
  - cbn. split_and!; try done.
    f_equal. f_equal. lia.
Qed.

Lemma constructor_builds_the_world_witness :
  @screen_ok screen_1280x720
  ∧ ∃ s, @GameServer_init ExactFloat calm screen_1280x720 (blank_server 0)
         = (Ok tt, s)
       ∧ length (GameState.enemies (GameServer.game_state s)) = NUM_ENEMIES
       ∧ Forall (λ e, Enemy.health e = 30 ∧ Enemy.max_health e = 30)
           (GameState.enemies (GameServer.game_state s))
       ∧ GameState.players (GameServer.game_state s) = []
       ∧ GameState.bullets (GameServer.game_state s) = []
       ∧ GameState.powerups (GameServer.game_state s) = []
       ∧ GameState.send_time (GameServer.game_state s)
         = Some (@clock _ calm (0 + 7 * NUM_ENEMIES))
       ∧ GameServer.last_powerup_time s = @clock _ calm (0 + 7 * NUM_ENEMIES + 1)
       ∧ GameServer.clients s = []
       ∧ GameServer.difficulty s = normal.
Proof.
  assert (@screen_ok screen_1280x720) as Hscreen by (split; cbn; lia).
  split; [exact Hscreen|].
  exact (@constructor_builds_the_world ExactFloat calm screen_1280x720 0%nat
           Hscreen).
Defined.

(** X2.  On a play field narrower or lower than 100, [random.randint(50,
    WIDTH - 50)] or [random.randint(50, HEIGHT - 50)] of the first
    [spawn_enemy] has an empty range: the constructor raises [ValueError]
    and no server is built.  The module's initial [WIDTH, HEIGHT = 0, 0]
    is such a field. *)
Theorem constructor_needs_room `{Oracle} `{Screen} (n : nat) :
  ¬ screen_ok →
  (GameServer_init (blank_server n)).1 = Raise (ValueError "empty range").
Proof.
  intros Hscreen. unfold GameServer_init, mbind, M_bind.
  unfold NUM_ENEMIES. cbn [spawn_enemies]. unfold mbind, M_bind.
  destruct (spawn_enemy_raises normal (blank_server n) Hscreen) as [k ->].
  done.
Qed.

Lemma constructor_needs_room_witness :
  ¬ @screen_ok no_display
  ∧ (@GameServer_init ExactFloat calm no_display (blank_server 0)).1
    = Raise (ValueError "empty range").
Proof.
  assert (¬ @screen_ok no_display) as Hscreen.
  { unfold screen_ok. cbn. lia. }
  split; [exact Hscreen|].
  exact (@constructor_needs_room ExactFloat calm no_display 0%nat Hscreen).
Defined.

(** Destructs the test at the head of a computation under [wp]. *)
Ltac wp_case :=
  lazymatch goal with
  | |- wp (if ?c then _ else _) _ _ _ => destruct c eqn:?
  | |- wp (match ?x with _ => _ end) _ _ _ => destruct x eqn:?
  end.

Section Sweep.
Context `{Float}.
Variable gone : Powerup.t → Prop.
Context `{∀ x, Decision (gone x)}.
Variable Inv : GameServer.t → Prop.
Variable E : GameServer.t → Prop.
Variable body : Powerup.t → M unit.

(** The body leaves the powerup in hand where it is, or takes it out. *)
Hypothesis body_spec : ∀ x kept rest s,
  Inv s →
  GameState.powerups (GameServer.game_state s) = kept ++ x :: rest →
  Forall (λ y, ¬ gone y) kept →
  wp (body x)
    (λ _ s', Inv s'
             ∧ GameState.powerups (GameServer.game_state s')
               = if decide (gone x) then kept ++ rest else kept ++ x :: rest)
    E s.

(** A loop over a copy of [powerups] whose body removes the powerups that
    are [gone] leaves the others, in their order. *)
Lemma wp_sweep rest : ∀ kept s,
  Inv s →
  GameState.powerups (GameServer.game_state s) = kept ++ rest →
  Forall (λ y, ¬ gone y) kept →
  wp (for_each rest body)
    (λ _ s', Inv s'
             ∧ GameState.powerups (GameServer.game_state s')
               = kept ++ filter (λ y, ¬ gone y) rest)
    E s.
Proof.
  induction rest as [|x rest IH]; intros kept s HI Hp Hkept; cbn [for_each].
  - apply wp_ret. rewrite app_nil_r in Hp.
    split; [done|]. by rewrite filter_nil, app_nil_r.
  - apply wp_bind.
    eapply wp_mono; [by apply body_spec| |done].
    intros [] s' [HI' Hp']. destruct (decide (gone x)) as [Hx|Hx].
    + rewrite filter_cons_False by tauto. by apply IH.
    + rewrite filter_cons_True by done.
      rewrite cons_middle, app_assoc in Hp' |- *.
      apply IH; [done|done|].
      apply Forall_app. split; [done|]. by apply Forall_singleton.
Qed.

End Sweep.

Section Expiry.
Context `{Float}.

(** The server with its powerups replaced, all else as in [s]. *)
Local Abbreviation with_powerups pus s := (modify (set_powerups pus) s).2.

Lemma with_powerups_id (s : GameServer.t) :
  with_powerups (GameState.powerups (GameServer.game_state s)) s = s.
Proof. by destruct s as [c [] t d n]. Qed.

Lemma expire_powerups_run t s :
  wp (expire_powerups t)
    (λ _ s', s' = with_powerups
                    (filter (λ pu, ¬ expired t pu)
                       (GameState.powerups (GameServer.game_state s))) s)
    (λ _, False) s.
Proof.
  unfold expire_powerups. repeat wp_step.
  eapply wp_mono;
    [apply (wp_sweep (λ pu, Is_true (expired t pu))
              (λ s', ∃ pus, s' = with_powerups pus s) (λ _, False))
       with (kept := [])
    | |done].
  - intros x kept rest s1 [pus ->] Hp Hkept. fold (expired t x).
    destruct (expired t x) eqn:Hx.
    + unfold remove_powerup. repeat wp_step. rewrite Hp.
      rewrite list_remove_middle.
      2:{ intros Hin. eapply Forall_forall in Hkept;
            [|by apply list_elem_of_In]. apply Hkept. by rewrite Hx. }
      repeat wp_step. rewrite decide_True by done.
      split; [by eexists|done].
    + repeat wp_step. rewrite decide_False by (by intros []).
      split; [by eexists|done].
  - exists (GameState.powerups (GameServer.game_state s)).
    by rewrite with_powerups_id.
  - done.
  - done.
  - intros [] s' [[pus ->] Hp]. cbn in Hp. by rewrite Hp.
Qed.

End Expiry.

(** X3.  Below the cap of five and on a play field with room, the
    periodic spawn returns and appends exactly one powerup, stamped with
    the clock reading that follows its three random draws; nothing else
    of the world changes. *)
Theorem periodic_spawn_adds_one `{Oracle} `{Screen} (s : GameServer.t) :
  screen_ok →
  (length (GameState.powerups (GameServer.game_state s)) < 5)%nat →
  ∃ pu,
    spawn_powerup s
    = (Ok tt, (append_powerup pu (set_calls (GameServer.calls s + 4) s)).2)
    ∧ Powerup.creation_time pu = clock (GameServer.calls s + 3).
Proof.
  intros [Hw Hh] Hlen. unfold spawn_powerup, random_randint.
  eexists. split.
  - cbv [mbind M_bind gets]. rewrite decide_False by lia.
    rewrite !decide_False by lia.
    cbv [mbind M_bind mret M_ret next_call random_choice time_time
         append_powerup modify]. cbn.
    do 2 f_equal. lia.
  - cbn. f_equal. lia.
Qed.

Lemma periodic_spawn_adds_one_witness :
  @screen_ok screen_1280x720
  ∧ (length (GameState.powerups (GameServer.game_state (shield_world 95)))
     < 5)%nat
  ∧ ∃ pu,
      @spawn_powerup ExactFloat calm screen_1280x720 (shield_world 95)
      = (Ok tt, (append_powerup pu
                   (set_calls (GameServer.calls (shield_world 95) + 4)
                      (shield_world 95))).2)
      ∧ Powerup.creation_time pu
        = @clock _ calm (GameServer.calls (shield_world 95) + 3).
Proof.
  assert (@screen_ok screen_1280x720) as Hscreen by (split; cbn; lia).
  assert (length (GameState.powerups (GameServer.game_state (shield_world 95)))
          < 5)%nat as Hlen by (cbn; lia).
  split; [exact Hscreen|]. split; [exact Hlen|].
  exact (@periodic_spawn_adds_one ExactFloat calm screen_1280x720
           (shield_world 95) Hscreen Hlen).
Defined.

(** X4.  The expiry loop of a tick never raises and leaves exactly the
    powerups that are not older than 30 seconds, in their order, also
    when equal powerups stand in the list more than once; nothing else
    of the server changes. *)
Theorem expiry_keeps_the_young `{Float} (t : float) (s : GameServer.t) :
  expire_powerups t s
  = (Ok tt,
     (modify (set_powerups
                (filter (λ pu, ¬ expired t pu)
                   (GameState.powerups (GameServer.game_state s)))) s).2).
Proof.
  pose proof (expire_powerups_run t s) as Hwp. unfold wp in Hwp.
  destruct (expire_powerups t s) as [[[]|x] s']; [|done]. by subst.
Qed.

Section EnemyPhase.
Context `{Oracle} `{Screen}.

(** What an enemy's turn leaves: the enemy at its place, moved, and at
    most one bullet more, fired only when there is a player. *)
Local Abbreviation turn_of i e s := (λ (_ : unit) (s' : GameServer.t),
  let g := GameServer.game_state s in
  let g' := GameServer.game_state s' in
  GameState.players g' = GameState.players g
  ∧ GameState.powerups g' = GameState.powerups g
  ∧ GameServer.difficulty s' = GameServer.difficulty s
  ∧ (∃ e', GameState.enemies g' = <[i := e']> (GameState.enemies g)
           ∧ turned e e')
  ∧ (GameState.bullets g' = GameState.bullets g
     ∨ ∃ b, GameState.bullets g' = GameState.bullets g ++ [b]
            ∧ fired_by (GameServer.difficulty s) e b
            ∧ GameState.players g ≠ [])).

Lemma enemy_step_spec i e s :
  wp (enemy_step i e) (turn_of i e s) (λ _, False) s.
Proof.
  unfold enemy_step. repeat (wp_step || wp_case).
  all: cbn; split_and!; eauto.
  all: try (eexists; split; [done|]; unfold turned, fires_now;
            match goal with Hf : fleb _ _ = _ |- _ => rewrite Hf end;
            by eauto).
  all: right; eexists; split_and!; try done; cbn in *; congruence.
Qed.

Lemma enemies_loop_spec es : ∀ i s,
  drop i (GameState.enemies (GameServer.game_state s)) = es →
  wp (enemies_loop i es)
    (λ _ s',
       let g := GameServer.game_state s in
       let g' := GameServer.game_state s' in
       GameState.players g' = GameState.players g
       ∧ GameState.powerups g' = GameState.powerups g
       ∧ GameServer.difficulty s' = GameServer.difficulty s
       ∧ take i (GameState.enemies g') = take i (GameState.enemies g)
       ∧ Forall2 turned es (drop i (GameState.enemies g'))
       ∧ ∃ new, GameState.bullets g' = GameState.bullets g ++ new
                ∧ Forall (λ b, ∃ e, e ∈ es
                                    ∧ fired_by (GameServer.difficulty s) e b)
                    new
                ∧ (length new ≤ length es)%nat
                ∧ (GameState.players g = [] → new = []))
    (λ _, False) s.
Proof.
  induction es as [|e es IH]; intros i s Hdrop; cbn [enemies_loop].
  - apply wp_ret. cbn. split_and!; try done.
    + rewrite Hdrop. constructor.
    + exists []. by rewrite app_nil_r.
  - assert (GameState.enemies (GameServer.game_state s) !! i = Some e) as Hi.
    { rewrite <- (Nat.add_0_r i), <- lookup_drop, Hdrop. done. }
    apply wp_bind.
    eapply wp_mono; [apply enemy_step_spec| |done].
    intros [] s1 (Hps & Hpus & Hd & (e' & Hes & He') & Hbs). cbn in *.
    eapply wp_mono; [apply (IH (S i) s1)| |done].
    + rewrite Hes, drop_insert_lt by lia. by eapply drop_place_next.
    + intros [] s2
        (Hps2 & Hpus2 & Hd2 & Htake & Hturned & new & Hbs2 & Hnew & Hlen
         & Hnone).
      cbn in *. rewrite Hps2, Hpus2, Hd2, Hps, Hpus, Hd.
      assert (GameState.enemies (GameServer.game_state s2) !! i = Some e')
        as Hi2.
      { rewrite <- (lookup_take_lt _ (S i)) by lia. rewrite Htake.
        rewrite lookup_take_lt by lia. rewrite Hes.
        apply list_lookup_insert_eq. by eapply lookup_lt_Some. }
      split_and!; try done.
      * apply (f_equal (take i)) in Htake.
        rewrite !take_take, Nat.min_l in Htake by lia.
        by rewrite Htake, Hes, take_insert_ge by lia.
      * rewrite (drop_S _ e' _ Hi2). by constructor.
      * rewrite Hbs2.
        assert (Forall (λ b, ∃ e0, e0 ∈ e :: es
                                   ∧ fired_by (GameServer.difficulty s) e0 b)
                  new) as Hnew'.
        { eapply list.Forall_impl; [exact Hnew|]. intros b (e0 & Hin & Hb).
          exists e0. split; [by right|]. by rewrite <- Hd. }
        destruct Hbs as [->|(b & -> & Hb & Hsome)].
        -- exists new. split_and!; try done; [lia|]. by rewrite <- Hps.
        -- exists (b :: new). rewrite <- app_assoc. split_and!; try done.
           ++ constructor; [|done]. exists e. split; [left|done].
           ++ cbn. lia.
Qed.

End EnemyPhase.

(** X5.  The enemy phase of a tick, over players whose records hold a
    position.  Every enemy moves by its speed along its angle and keeps
    its place in the list, its health, maximal health, speed, type and
    size; its fire timer goes down by 1, or, when that brings it to 0 or
    below, is reset to [ENEMY_FIRE_RATE] times a draw between 0.8 and
    1.2.  The players and the powerups are as they were.  The bullets
    only grow, by at most one bullet an enemy: each new bullet is fired
    by an enemy whose timer ran out on this turn, from where that enemy
    stands after its move, is owned by "enemy", has penetration 1 and the
    damage of the server's difficulty; without players no enemy fires. *)
Theorem enemies_only_move_and_fire `{Oracle} `{Screen} (s : GameServer.t) :
  let g := GameServer.game_state s in
  let g' := GameServer.game_state (enemies_loop 0 (GameState.enemies g) s).2 in
  GameState.players g' = GameState.players g
  ∧ GameState.powerups g' = GameState.powerups g
  ∧ Forall2 turned (GameState.enemies g) (GameState.enemies g')
  ∧ ∃ new, GameState.bullets g' = GameState.bullets g ++ new
           ∧ Forall (λ b, ∃ e, e ∈ GameState.enemies g
                               ∧ fired_by (GameServer.difficulty s) e b) new
           ∧ (length new ≤ length (GameState.enemies g))%nat
           ∧ (GameState.players g = [] → new = []).
Proof.
  cbv zeta.
  pose proof (enemies_loop_spec
                (GameState.enemies (GameServer.game_state s)) 0 s eq_refl)
    as Hwp.
  unfold wp in Hwp.
  destruct (enemies_loop 0 _ s) as [[[]|x] s']; [|done].
  cbn in *. destruct Hwp as (? & ? & _ & _ & ? & ?). done.
Qed.

(** * The registry of clients and the players' identifiers *)

Section MoreDicts.
Context {V : Type}.

Lemma dict_get_None (k : string) (d : list (string * V)) :
  dict_get k d = None ↔ k ∉ dict_keys d.
Proof.
  unfold dict_keys. induction d as [|[k' v] d IH]; csimpl.
  - split; [|done]. intros _. apply not_elem_of_nil.
  - destruct (decide (k' = k)) as [->|Hne].
    + split; [done|]. intros []. left.
    + rewrite IH, not_elem_of_cons. split; [by intros ?|by intros [_ ?]].
Qed.

Lemma dict_get_del_ne (k k0 : string) (d : list (string * V)) :
  k ≠ k0 → dict_get k0 (dict_del k d) = dict_get k0 d.
Proof.
  intros Hne. induction d as [|[k' v] d IH]; csimpl; [done|].
  destruct (decide (k' = k)) as [->|Hne']; csimpl.
  - by rewrite decide_False.
  - by rewrite IH.
Qed.

Lemma dict_keys_del_NoDup (k : string) (d : list (string * V)) :
  NoDup (dict_keys d) →
  NoDup (dict_keys (dict_del k d)) ∧ k ∉ dict_keys (dict_del k d).
Proof.
  unfold dict_keys. induction d as [|[k' v] d IH]; csimpl.
  - intros _. split; [constructor|apply not_elem_of_nil].
  - intros [Hk' Hd]%list.NoDup_cons. destruct (IH Hd) as [IH1 IH2].
    destruct (decide (k' = k)) as [->|Hne]; csimpl; [done|].
    split.
    + apply list.NoDup_cons. split; [|done].
      intros Hin. by apply Hk', (dict_keys_del_subseteq k d).
    + apply not_elem_of_cons. split; [done|done].
Qed.

Lemma dict_keys_set_NoDup (k : string) (v : V) (d : list (string * V)) :
  NoDup (dict_keys d) → NoDup (dict_keys (dict_set k v d)).
Proof.
  intros Hd. rewrite dict_keys_set. case_decide as Hin; [done|].
  apply list.NoDup_app. split_and!; [done| |apply NoDup_singleton].
  intros x Hx ->%list_elem_of_singleton. done.
Qed.

End MoreDicts.

(** The tick, and every part of it, leaves alone what is neither the
    world, nor the powerup timer, nor the count of oracle calls. *)
Section Registry.
Context `{Oracle} `{Screen}.
Variable R : list string → Difficulty → Prop.

Local Abbreviation I :=
  (λ s : GameServer.t, R (GameServer.clients s) (GameServer.difficulty s)).

Lemma registry_modify f : keeps I (modify f).
Proof. by intros s. Qed.
Lemma registry_next_call : keeps I next_call.
Proof. by intros s. Qed.
Lemma registry_set_last_powerup_time t : keeps I (set_last_powerup_time t).
Proof. by intros s. Qed.

Hint Resolve registry_modify registry_next_call
  registry_set_last_powerup_time : keeps.
Hint Extern 1 (keeps _ (store_bullet _ _)) => apply registry_modify : keeps.
Hint Extern 1 (keeps _ (store_enemy _ _)) => apply registry_modify : keeps.
Hint Extern 1 (keeps _ (store_player _ _ _)) => apply registry_modify : keeps.
Hint Extern 1 (keeps _ (append_bullet _)) => apply registry_modify : keeps.
Hint Extern 1 (keeps _ (append_powerup _)) => apply registry_modify : keeps.

Local Ltac registry := repeat first [progress keeps_tac | progress unfold
  random_random, random_uniform, random_randint, random_choice, time_time,
  spawn_enemy, spawn_powerup, remove_powerup, remove_enemy, remove_bullet,
  remove_bullet_if_present, expire_powerups, apply_powerup, pick_up,
  powerup_pass, drop_powerup, reward_kill, kill_enemy, bullet_vs_enemies,
  bullet_vs_players, bullet_step, enemy_step].

Lemma registry_enemies_loop es : ∀ i, keeps I (enemies_loop i es).
Proof.
  induction es as [|e es IH]; intros i; cbn [enemies_loop]; registry.
Qed.

Lemma registry_bullets_loop bs : ∀ i, keeps I (bullets_loop i bs).
Proof.
  induction bs as [|b bs IH]; intros i; cbn [bullets_loop]; registry.
Qed.

Lemma registry_update_game_state : keeps I update_game_state.
Proof.
  unfold update_game_state. registry.
  - apply registry_enemies_loop.
  - apply registry_bullets_loop.
Qed.

Lemma registry_GameServer_init : keeps I GameServer_init.
Proof.
  assert (∀ n, keeps I (spawn_enemies n)) as Hspawn.
  { induction n as [|n IH]; cbn [spawn_enemies]; registry. }
  unfold GameServer_init. registry.
Qed.

Lemma registry_handle_message id data : keeps I (handle_message id data).
Proof. unfold handle_message. registry. Qed.

End Registry.

Section UniqueIds.
Context `{Oracle} `{Screen}.

Lemma perform_ids_unique ev s :
  ids_unique_in s → ids_unique_in (perform ev s).
Proof.
  intros [Hps Hcs]. destruct ev as [|id|id data|id|d]; cbn [perform].
  - split.
    + by rewrite update_game_state_keys.
    + by apply (registry_update_game_state (λ cs _, NoDup cs)).
  - split; [done|]. unfold accept, mbind, M_bind. cbn.
    case_decide; [done|].
    apply list.NoDup_app. split_and!; [done| |apply NoDup_singleton].
    by intros x Hx ->%list_elem_of_singleton.
  - split.
    + destruct (handle_message_world id data s) as (-> & _).
      by apply dict_keys_set_NoDup.
    + by apply (registry_handle_message (λ cs _, NoDup cs)).
  - split.
    + destruct (disconnect_world id s) as (-> & _).
      by apply dict_keys_del_NoDup.
    + unfold disconnect, mbind, M_bind. cbn.
      case_decide; cbn; case_decide; cbn; try done.
      all: by apply list.NoDup_filter.
  - done.
Qed.

End UniqueIds.

Section Reached.
Context `{Oracle} `{Screen}.

Lemma reachable_run evs : ∀ s, reachable s → reachable (run evs s).
Proof.
  induction evs as [|ev evs IH]; intros s Hs; [done|].
  cbn. apply IH. by apply reachable_step.
Qed.

Lemma reachable_ids_unique s : reachable s → ids_unique_in s.
Proof.
  induction 1 as [n s Hinit|ev s _ IH].
  - apply GameServer_init_Ok in Hinit as Hw.
    destruct Hw as (_ & _ & Hps & _).
    pose proof (registry_GameServer_init (λ cs _, cs = [])
                  (blank_server n) eq_refl) as Hcs.
    rewrite Hinit in Hcs. cbn in Hcs.
    unfold ids_unique_in. rewrite Hps, Hcs. split; constructor.
  - by apply perform_ids_unique.
Qed.

End Reached.

(** X6.  The merge of a well-formed payload: a record whose entries of
    "new_bullets" have five elements each and whose "send_time", if
    present, is a number.  The snapshot that the round then sends is the
    world the merge leaves; the bullets of the payload stand at the end
    of [bullets], in their order, one for each entry of "new_bullets" and
    each owned by the sender, whatever the payload says; the sender's
    record is the payload, and the record of every other player is as it
    was. *)
Theorem merge_tags_bullets_with_the_sender `{Oracle} `{Screen}
    (id : string) (data : Player.t) (s : GameServer.t) :
  let g := GameServer.game_state s in
  let r := handle_message id data s in
  let g' := GameServer.game_state r.2 in
  r.1 = Ok g'
  ∧ GameState.bullets g' = GameState.bullets g ++ fired id data
  ∧ length (fired id data) = length (default [] (Player.new_bullets data))
  ∧ Forall (λ b, Bullet.owner b = id) (fired id data)
  ∧ dict_get id (GameState.players g') = Some data
  ∧ ∀ id', id' ≠ id →
      dict_get id' (GameState.players g')
      = dict_get id' (GameState.players g).
Proof.
  cbv zeta.
  pose proof (handle_message_spec id data s) as Hs. unfold wp in Hs.
  destruct (handle_message id data s) as [[snapshot|e] s']; [|done].
  destruct Hs as (Hsnap & Hps & _ & Hbs & _). cbn [fst snd].
  rewrite <- Hsnap. split_and!; try done.
  - unfold fired. by rewrite length_fmap.
  - unfold fired. apply Forall_fmap, Forall_true. done.
  - rewrite Hps. apply dict_get_set_eq.
  - intros id' Hne. rewrite Hps. by apply dict_get_set_ne.
Qed.

(** X7.  In every server a run reaches, no identifier stands twice among
    the keys of [players] or in the registry of clients: the association
    lists of the embedding are dictionaries. *)
Theorem identifiers_stay_unique `{Oracle} `{Screen} (s : GameServer.t) :
  reachable s → ids_unique_in s.
Proof. apply reachable_ids_unique. Qed.

Lemma identifiers_stay_unique_witness :
  @reachable ExactFloat calm screen_1280x720
    (@perform ExactFloat calm screen_1280x720 (Message "p1" idle_payload)
       fresh_server)
  ∧ ids_unique_in
      (@perform ExactFloat calm screen_1280x720 (Message "p1" idle_payload)
         fresh_server).
Proof.
  assert (@reachable ExactFloat calm screen_1280x720
            (@perform ExactFloat calm screen_1280x720
               (Message "p1" idle_payload) fresh_server)) as Hr.
  { apply reachable_step. exact fresh_server_reachable. }
  split; [exact Hr|].
  exact (@identifiers_stay_unique ExactFloat calm screen_1280x720 _ Hr).
Defined.

(** X8.  The cleanup of a handler never raises.  On a server whose
    identifiers are unique it leaves the identifier neither among the
    players nor in the registry, leaves every other player and client,
    the enemies, the powerups and the bullets (those of the departed
    player too) as they were, and a second cleanup changes nothing. *)
Theorem cleanup_forgets_the_player `{Float} (id : string)
    (s : GameServer.t) :
  ids_unique_in s →
  let g := GameServer.game_state s in
  let r := disconnect id s in
  let g' := GameServer.game_state r.2 in
  r.1 = Ok tt
  ∧ (id ∉ dict_keys (GameState.players g'))
  ∧ (id ∉ GameServer.clients r.2)
  ∧ (∀ id', id' ≠ id →
       dict_get id' (GameState.players g') = dict_get id' (GameState.players g)
       ∧ (id' ∈ GameServer.clients r.2 ↔ id' ∈ GameServer.clients s))
  ∧ GameState.enemies g' = GameState.enemies g
  ∧ GameState.bullets g' = GameState.bullets g
  ∧ GameState.powerups g' = GameState.powerups g
  ∧ disconnect id r.2 = (Ok tt, r.2).
Proof.
  intros [Hps Hcs]. cbv zeta.
  destruct (disconnect_world id s) as (Hps' & Hes' & Hbs' & Hpus').
  assert ((disconnect id s).1 = Ok tt) as Hok.
  { pose proof (disconnect_spec id s) as Hs. unfold wp in Hs.
    by destruct (disconnect id s) as [[[]|e] s']. }
  assert (GameServer.clients (disconnect id s).2
          = if decide (id ∈ GameServer.clients s)
            then filter (λ c, c ≠ id) (GameServer.clients s)
            else GameServer.clients s) as Hcs'.
  { unfold disconnect, mbind, M_bind. cbn.
    case_decide as Hin; cbn; by case_decide. }
  destruct (dict_keys_del_NoDup id _ Hps) as [_ Hgone].
  assert (id ∉ GameServer.clients (disconnect id s).2) as Hgone'.
  { rewrite Hcs'. case_decide; [|done].
    intros [Hne _]%list_elem_of_filter. done. }
  split_and!; try done.
  - by rewrite Hps'.
  - intros id' Hne. split.
    + rewrite Hps'. by apply dict_get_del_ne.
    + rewrite Hcs'. case_decide; [|done].
      rewrite list_elem_of_filter. split; [by intros [_ ?]|done].
  - rewrite <- Hps' in Hgone. revert Hgone Hgone'.
    generalize (disconnect id s).2. intros s' Hgone Hgone'.
    unfold disconnect, mbind, M_bind. cbn.
    rewrite decide_False by done. cbn. by rewrite decide_False.
Qed.

Lemma cleanup_forgets_the_player_witness :
  ids_unique_in (shield_world 95)
  ∧ let s := shield_world 95 in
    let g := GameServer.game_state s in
    let r := disconnect "p1" s in
    let g' := GameServer.game_state r.2 in
    r.1 = Ok tt
    ∧ ("p1" ∉ dict_keys (GameState.players g'))
    ∧ ("p1" ∉ GameServer.clients r.2)
    ∧ (∀ id', id' ≠ "p1" →
         dict_get id' (GameState.players g')
         = dict_get id' (GameState.players g)
         ∧ (id' ∈ GameServer.clients r.2 ↔ id' ∈ GameServer.clients s))
    ∧ GameState.enemies g' = GameState.enemies g
    ∧ GameState.bullets g' = GameState.bullets g
    ∧ GameState.powerups g' = GameState.powerups g
    ∧ disconnect "p1" r.2 = (Ok tt, r.2).
Proof.
  assert (ids_unique_in (shield_world 95)) as Hu.
  { split; apply NoDup_singleton. }
  split; [exact Hu|].
  exact (@cleanup_forgets_the_player ExactFloat "p1" (shield_world 95) Hu).
Defined.

Section HandlerEnds.
Context `{Oracle} `{Screen}.

Lemma last_round_world id e s :
  let g := GameServer.game_state s in
  let s' := (last_round id e s).2 in
  let g' := GameServer.game_state s' in
  GameServer.clients s' = GameServer.clients s
  ∧ GameState.players g'
    = match e with
      | Hangup | Garbled => GameState.players g
      | Truncated data | Unsent data =>
          dict_set id data (GameState.players g)
      end
  ∧ GameState.enemies g' = GameState.enemies g
  ∧ GameState.bullets g' = GameState.bullets g ++ left_behind id e
  ∧ GameState.powerups g' = GameState.powerups g.
Proof.
  cbv zeta. destruct e as [| |data|data]; cbn [last_round left_behind].
  - cbn. by rewrite app_nil_r.
  - cbn. by rewrite app_nil_r.
  - unfold mbind, M_bind. cbn [modify fst snd].
    rewrite for_each_append_bullets. done.
  - assert ((handle_message id data ;; mret tt) s
            = (match (handle_message id data s).1 with
               | Ok _ => Ok tt | Raise x => Raise x end,
               (handle_message id data s).2)) as Hrun.
    { unfold mbind, M_bind. by destruct (handle_message id data s) as [[]]. }
    rewrite Hrun. cbn [snd].
    destruct (handle_message_world id data s) as (-> & -> & -> & ->).
    split; [|done].
    by apply (registry_handle_message
                (λ cs _, cs = GameServer.clients s) id data s).
Qed.

Lemma last_round_returns id e s : (last_round id e s).1 = Ok tt.
Proof.
  destruct e as [| |data|data]; cbn [last_round]; try done.
  - unfold mbind, M_bind. cbn [modify fst snd].
    by rewrite for_each_append_bullets.
  - unfold mbind, M_bind.
    destruct (handle_message_returns id data s) as [g Hg].
    by destruct (handle_message id data s) as [[]]; simplify_eq/=.
Qed.

Lemma end_of_handler_run id e s :
  end_of_handler id e s = disconnect id (last_round id e s).2.
Proof.
  unfold end_of_handler. unfold mbind at 1. unfold M_bind.
  pose proof (last_round_returns id e s) as Hr.
  by destruct (last_round id e s) as [[[]|x] s1]; simplify_eq/=.
Qed.

(** What the [finally] block leaves of the registry and the players. *)
Lemma disconnect_forgets id s :
  ids_unique_in s →
  let s' := (disconnect id s).2 in
  (id ∉ dict_keys (GameState.players (GameServer.game_state s')))
  ∧ (id ∉ GameServer.clients s')
  ∧ ∀ id', id' ≠ id →
      dict_get id' (GameState.players (GameServer.game_state s'))
      = dict_get id' (GameState.players (GameServer.game_state s))
      ∧ (id' ∈ GameServer.clients s' ↔ id' ∈ GameServer.clients s).
Proof.
  intros [Hps Hcs]. cbv zeta.
  destruct (disconnect_world id s) as (Hps' & _).
  assert (GameServer.clients (disconnect id s).2
          = if decide (id ∈ GameServer.clients s)
            then filter (λ c, c ≠ id) (GameServer.clients s)
            else GameServer.clients s) as Hcs'.
  { unfold disconnect, mbind, M_bind. cbn.
    case_decide as Hin; cbn; by case_decide. }
  destruct (dict_keys_del_NoDup id _ Hps) as [_ Hgone].
  split_and!.
  - by rewrite Hps'.
  - rewrite Hcs'. case_decide; [|done].
    intros [Hne _]%list_elem_of_filter. done.
  - intros id' Hne. split.
    + rewrite Hps'. by apply dict_get_del_ne.
    + rewrite Hcs'. case_decide; [|done].
      rewrite list_elem_of_filter. split; [by intros [_ ?]|done].
Qed.

End HandlerEnds.

(** X27.  The end of a handler, on a server whose identifiers are unique.
    However its last round goes (an empty read, a payload that cannot be
    unpickled, a payload with a bullet entry of fewer than five elements,
    a snapshot that cannot be sent), the handler forgets its player: the
    identifier is neither among the players nor in the registry
    afterwards, and every other player and client, the enemies and the
    powerups are as they were.  The bullets that the last round had
    appended before it failed stay in the world, owned by the player
    that is gone: those of the payload whose snapshot could not be sent,
    and of a payload with a short entry those that precede it. *)
Theorem handler_end_forgets_the_player `{Oracle} `{Screen} (id : string)
    (e : Ending) (s : GameServer.t) :
  ids_unique_in s →
  let g := GameServer.game_state s in
  let s' := (end_of_handler id e s).2 in
  let g' := GameServer.game_state s' in
  (id ∉ dict_keys (GameState.players g'))
  ∧ (id ∉ GameServer.clients s')
  ∧ (∀ id', id' ≠ id →
       dict_get id' (GameState.players g') = dict_get id' (GameState.players g)
       ∧ (id' ∈ GameServer.clients s' ↔ id' ∈ GameServer.clients s))
  ∧ GameState.enemies g' = GameState.enemies g
  ∧ GameState.powerups g' = GameState.powerups g
  ∧ GameState.bullets g' = GameState.bullets g ++ left_behind id e
  ∧ Forall (λ b, Bullet.owner b = id) (left_behind id e).
Proof.
  intros [Hps Hcs]. cbv zeta. rewrite end_of_handler_run.
  destruct (last_round_world id e s) as (Hcs1 & Hps1 & Hes1 & Hbs1 & Hpus1).
  assert (ids_unique_in (last_round id e s).2) as Huniq.
  { split; [|by rewrite Hcs1]. rewrite Hps1.
    destruct e; try done; by apply dict_keys_set_NoDup. }
  destruct (disconnect_forgets id _ Huniq) as (Hgone & Hgone' & Hothers).
  destruct (disconnect_world id (last_round id e s).2)
    as (_ & Hes2 & Hbs2 & Hpus2).
  split_and!; try done.
  - intros id' Hne. destruct (Hothers id' Hne) as [-> ->].
    rewrite Hps1, Hcs1. split; [|done].
    destruct e; try done; by apply dict_get_set_ne.
  - by rewrite Hes2.
  - by rewrite Hpus2.
  - by rewrite Hbs2.
  - destruct e; cbn; try done.
    all: unfold fired; apply Forall_fmap, Forall_true; done.
Qed.

Lemma handler_end_forgets_the_player_witness :
  ids_unique_in fresh_server
  ∧ let s' := (@end_of_handler ExactFloat calm "p1" (Truncated rogue_payload)
                 fresh_server).2 in
    ("p1" ∉ dict_keys (GameState.players (GameServer.game_state s')))
    ∧ GameState.bullets (GameServer.game_state s')
      = GameState.bullets (GameServer.game_state fresh_server)
        ++ fired "p1" rogue_payload.
Proof.
  assert (ids_unique_in fresh_server) as Huniq.
  { split; vm_compute; constructor. }
  split; [exact Huniq|].
  pose proof (@handler_end_forgets_the_player ExactFloat calm screen_1280x720
                "p1" (Truncated rogue_payload) fresh_server Huniq) as Hend.
  cbv zeta in Hend. destruct Hend as (Hgone & _ & _ & _ & _ & Hbs & _).
  split; [exact Hgone|exact Hbs].
Defined.

Section WpMore.
Context `{Float}.

Lemma wp_conj {A} (m : M A) (Q1 Q2 : A → GameServer.t → Prop)
    (E1 E2 : GameServer.t → Prop) s :
  wp m Q1 E1 s → wp m Q2 E2 s →
  wp m (λ a s', Q1 a s' ∧ Q2 a s') (λ s', E1 s' ∧ E2 s') s.
Proof. unfold wp. by destruct (m s) as [[a|e] s']. Qed.

End WpMore.

Section InReach.
Context `{Float}.

Lemma in_reach_positions ps ps' pu :
  positions ps = positions ps' → in_reach ps pu ↔ in_reach ps' pu.
Proof.
  set (Q := λ pos, fltb (dist (Powerup.pos pu) pos) (of_int 25) = true).
  assert (∀ ps : list (string * Player.t),
    in_reach ps pu ↔ is_Some (list_find Q (positions ps))) as Hchar.
  { intros l. unfold positions.
    rewrite (list_find_fmap (λ kv : string * Player.t, Player.pos kv.2) Q).
    by rewrite fmap_is_Some. }
  intros Hpos. by rewrite !Hchar, Hpos.
Qed.

End InReach.

(** Reads the fields of a state written by [modify]. *)
Ltac world :=
  cbn [fst snd modify set_players set_enemies set_bullets set_powerups
       set_send_time set_last_ping set_calls
       GameServer.game_state GameServer.clients GameServer.difficulty
       GameServer.calls GameServer.last_powerup_time
       GameState.players GameState.enemies GameState.bullets
       GameState.powerups GameState.send_time GameState.last_ping] in *.

Section Pass.
Context `{Oracle} `{Screen}.

(** What a part of the tick leaves alone when it only rewrites players
    where they stand and removes powerups. *)
Local Abbreviation bystanders s s' :=
  (GameState.bullets (GameServer.game_state s')
   = GameState.bullets (GameServer.game_state s)
   ∧ GameState.enemies (GameServer.game_state s')
     = GameState.enemies (GameServer.game_state s)
   ∧ GameServer.difficulty s' = GameServer.difficulty s).

Lemma positions_store (ps : list (string * Player.t)) i id p p' :
  ps !! i = Some (id, p) → Player.pos p' = Player.pos p →
  positions (<[i := (id, p')]> ps) = positions ps
  ∧ dict_keys (<[i := (id, p')]> ps) = dict_keys ps.
Proof.
  intros Hi Hpos. split; [|by eapply dict_keys_store].
  unfold positions. rewrite list_fmap_insert. cbn. rewrite Hpos.
  apply list_insert_id. by rewrite list_lookup_fmap, Hi.
Qed.

(** The effect of a powerup on a player that has a level: the record is
    rewritten at its place, the player stays where it stands and keeps a
    level. *)
Lemma apply_powerup_spec i id ty player s :
  GameState.players (GameServer.game_state s) !! i = Some (id, player) →
  is_Some (Player.level player) →
  wp (apply_powerup i id ty player)
    (λ _ s',
       (∃ p', GameState.players (GameServer.game_state s')
              = <[i := (id, p')]> (GameState.players (GameServer.game_state s))
              ∧ Player.pos p' = Player.pos player
              ∧ is_Some (Player.level p'))
       ∧ GameState.powerups (GameServer.game_state s')
         = GameState.powerups (GameServer.game_state s)
       ∧ bystanders s s')
    (λ _, False) s.
Proof.
  intros Hi [level0 Hlevel]. unfold apply_powerup. rewrite Hlevel.
  destruct ty; repeat (wp_step || wp_case).
  all: cbn; split_and!; try done; eexists; split_and!;
    [first [done|by rewrite list_insert_insert_eq]|done|].
  all: cbn; by rewrite ?Hlevel.
Qed.

Lemma pick_up_spec s0 x kept rest s :
  (has_level (GameServer.game_state s)
   ∧ positions (GameState.players (GameServer.game_state s))
     = positions (GameState.players (GameServer.game_state s0))
   ∧ dict_keys (GameState.players (GameServer.game_state s))
     = dict_keys (GameState.players (GameServer.game_state s0))
   ∧ bystanders s0 s) →
  GameState.powerups (GameServer.game_state s) = kept ++ x :: rest →
  Forall (λ y, ¬ in_reach (GameState.players (GameServer.game_state s0)) y)
    kept →
  wp (pick_up x)
    (λ _ s',
       (has_level (GameServer.game_state s')
        ∧ positions (GameState.players (GameServer.game_state s'))
          = positions (GameState.players (GameServer.game_state s0))
        ∧ dict_keys (GameState.players (GameServer.game_state s'))
          = dict_keys (GameState.players (GameServer.game_state s0))
        ∧ bystanders s0 s')
       ∧ GameState.powerups (GameServer.game_state s')
         = if decide (in_reach (GameState.players (GameServer.game_state s0))
                        x)
           then kept ++ rest else kept ++ x :: rest)
    (λ _, False) s.
Proof.
  intros (Hlev & Hpos & Hkeys & Hbs & Hes & Hd) Hpus Hkept.
  unfold pick_up. repeat wp_step.
  destruct (first_player_within _ _ _) as [[i [id player]]|] eqn:Hfind.
  - assert (in_reach (GameState.players (GameServer.game_state s0)) x)
      as Hreach.
    { apply (in_reach_positions _ _ x Hpos). unfold in_reach.
      by rewrite Hfind. }
    rewrite decide_True by done.
    apply first_player_within_lookup in Hfind as Hi.
    assert (is_Some (Player.level player)) as Hlevel.
    { by eapply Forall_lookup_1 in Hlev; [|exact Hi]. }
    wp_step.
    eapply wp_mono; [by apply apply_powerup_spec| |done].
    intros [] s1 ((p' & Hps1 & Hpos1 & Hlev1) & Hpus1 & Hbs1 & Hes1 & Hd1).
    cbn in *. destruct (positions_store _ _ _ _ p' Hi Hpos1) as [Hp1 Hk1].
    unfold remove_powerup. repeat wp_step. rewrite Hpus1, Hpus.
    rewrite list_remove_middle.
    2:{ intros Hin. eapply Forall_forall in Hkept;
          [|by apply list_elem_of_In]. done. }
    repeat wp_step. split_and!; world; try congruence.
    unfold has_level. world. rewrite Hps1. by apply Forall_insert.
  - rewrite decide_False.
    2:{ intros Hreach. apply (in_reach_positions _ _ x Hpos) in Hreach.
        unfold in_reach in Hreach. rewrite Hfind in Hreach.
        by destruct Hreach. }
    by repeat wp_step.
Qed.

(** The pass over the powerups, when it runs: every powerup within reach
    of a player is taken, the others stay in their order. *)
Lemma powerup_pass_spec s :
  has_level (GameServer.game_state s) →
  wp powerup_pass
    (λ _ s',
       (has_level (GameServer.game_state s')
        ∧ positions (GameState.players (GameServer.game_state s'))
          = positions (GameState.players (GameServer.game_state s))
        ∧ dict_keys (GameState.players (GameServer.game_state s'))
          = dict_keys (GameState.players (GameServer.game_state s))
        ∧ bystanders s s')
       ∧ GameState.powerups (GameServer.game_state s')
         = filter (λ pu, ¬ in_reach (GameState.players
                                       (GameServer.game_state s)) pu)
             (GameState.powerups (GameServer.game_state s)))
    (λ _, False) s.
Proof.
  intros Hlev. unfold powerup_pass. repeat wp_step.
  apply (wp_sweep
           (in_reach (GameState.players (GameServer.game_state s)))
           (λ s1, has_level (GameServer.game_state s1)
                  ∧ positions (GameState.players (GameServer.game_state s1))
                    = positions (GameState.players (GameServer.game_state s))
                  ∧ dict_keys (GameState.players (GameServer.game_state s1))
                    = dict_keys (GameState.players (GameServer.game_state s))
                  ∧ bystanders s s1)
           (λ _, False) pick_up) with (kept := []); try done.
  intros x kept rest s1. apply pick_up_spec.
Qed.

End Pass.



(** * What a tick never raises *)

Section Returns.
Context `{Oracle} `{Screen}.
Hypothesis Hscreen : screen_ok.

Local Abbreviation levelled_world :=
  (λ s : GameServer.t, has_level (GameServer.game_state s)).
Local Abbreviation placed j rest :=
  (on_world (λ g, drop j (GameState.bullets g) = rest)).

Lemma award_kill_xp_has_level d p : is_Some (Player.level (award_kill_xp d p)).
Proof. unfold award_kill_xp. case_decide; by eexists. Qed.

Lemma damage_player_level d p :
  Player.level (damage_player d p) = Player.level p.
Proof.
  unfold damage_player. destruct (Player.shield p); [|done].
  repeat case_decide; done.
Qed.

Lemma has_level_rewarded d owner (g : GameState.t) :
  has_level g →
  has_level (set_players (rewarded d owner (GameState.players g)) g).
Proof.
  unfold has_level, rewarded. world. intros Hg.
  destruct (list_find _ _) as [[j [id player]]|]; [|done].
  apply Forall_insert; [done|]. apply award_kill_xp_has_level.
Qed.

Lemma spawn_powerup_returns s :
  wp spawn_powerup
    (λ _ s', GameState.players (GameServer.game_state s')
             = GameState.players (GameServer.game_state s))
    (λ _, False) s.
Proof.
  destruct Hscreen as [Hw Hh].
  unfold spawn_powerup. repeat (wp_step || wp_case); [done|].
  apply wp_random_randint; [|lia]. intros _. wp_step.
  apply wp_random_randint; [|lia]. intros _. by repeat wp_step.
Qed.

Lemma bullet_vs_enemies_returns i b s :
  levelled_world s →
  wp (bullet_vs_enemies i b) (λ _, levelled_world) (λ _, False) s.
Proof.
  intros Hlev. unfold bullet_vs_enemies. repeat wp_step.
  destruct (list_find _ _) as [[k e]|] eqn:Hfind; [|by wp_step].
  apply list_find_Some in Hfind as (Hk & _ & _).
  assert (∀ (removed : bool) s1,
    GameState.enemies (GameServer.game_state s1)
      = <[k := hit_enemy b e]> (GameState.enemies (GameServer.game_state s)) →
    levelled_world s1 →
    wp (if decide (Enemy.health (hit_enemy b e) ≤ 0)
        then kill_enemy b (hit_enemy b e) else mret tt)
      (λ _ s', wp (mret removed) (λ _, levelled_world) (λ _, False) s')
      (λ _, False) s1) as Hkill.
  { intros removed s1 Hes Hlev1. case_decide; [|by wp_step].
    eapply wp_mono; [apply kill_enemy_spec; [done|]| |done].
    - rewrite Hes. eapply list_elem_of_lookup_2, list_lookup_insert_eq.
      by eapply lookup_lt_Some.
    - intros [] s' (_ & Hps' & _). wp_step. world.
      unfold has_level. rewrite Hps'. by apply has_level_rewarded. }
  repeat wp_step. destruct (decide (Bullet.penetration (spent b) ≤ 0)).
  - unfold remove_bullet_if_present. repeat wp_step.
    destruct (list_remove _ _); repeat wp_step; by apply Hkill.
  - repeat wp_step. by apply Hkill.
Qed.

Lemma bullet_vs_players_returns b s :
  levelled_world s →
  wp (bullet_vs_players b) (λ _, levelled_world) (λ _, False) s.
Proof.
  intros Hlev. unfold bullet_vs_players. repeat wp_step.
  destruct (first_player_within _ _ _) as [[j [id player]]|] eqn:Hfind;
    [|by wp_step].
  apply first_player_within_lookup in Hfind.
  assert (is_Some (Player.level player)) as Hlevel.
  { by eapply Forall_lookup_1 in Hlev; [|exact Hfind]. }
  repeat wp_step. unfold remove_bullet_if_present. repeat wp_step.
  destruct (list_remove _ _); repeat wp_step.
  all: unfold has_level; world; apply Forall_insert; [done|].
  all: cbn; by rewrite damage_player_level.
Qed.

Lemma bullet_step_returns i b rest s :
  placed i (b :: rest) s → levelled_world s →
  wp (bullet_step i b) (λ _, levelled_world) (λ _, False) s.
Proof.
  intros Hp Hlev. unfold bullet_step. repeat wp_step.
  destruct (out_of_bounds _).
  - unfold remove_bullet. repeat wp_step. world.
    destruct (list_remove_placed (move_bullet b)
                (<[i := move_bullet b]>
                   (GameState.bullets (GameServer.game_state s))) rest i)
      as (l' & -> & _); [by eapply drop_insert_place|].
    by repeat wp_step.
  - assert (∀ (r1 r2 : bool) s1,
      levelled_world s1 →
      wp powerup_pass
        (λ _ s2, wp (mret (if r1 || r2 then i else S i))
                   (λ _, levelled_world) (λ _, False) s2)
        (λ _, False) s1) as Hpass.
    { intros r1 r2 s1 Hs1.
      eapply wp_mono; [by apply powerup_pass_spec| |done].
      intros [] s2 ((? & _) & _). by wp_step. }
    wp_step. case_decide.
    + eapply wp_mono; [by apply bullet_vs_enemies_returns| |done].
      intros r1 s1 Hs1. wp_step. rewrite decide_False by done.
      repeat wp_step. by apply Hpass.
    + repeat wp_step. case_decide.
      * eapply wp_mono; [by apply bullet_vs_players_returns| |done].
        intros r2 s1 Hs1. wp_step. by apply Hpass.
      * repeat wp_step. by apply Hpass.
Qed.

Lemma bullets_loop_returns snapshot : ∀ i s,
  placed i snapshot s → levelled_world s →
  wp (bullets_loop i snapshot) (λ _, levelled_world) (λ _, False) s.
Proof.
  induction snapshot as [|b rest IH]; intros i s Hp Hlev;
    cbn [bullets_loop]; [by wp_step|].
  wp_step.
  eapply wp_mono;
    [exact (wp_conj _ _ _ _ _ _ (bullet_step_place i b rest s Hp)
              (bullet_step_returns i b rest s Hp Hlev))| |].
  - intros i' s' [Hp' Hlev']. by apply IH.
  - by intros s' [_ ?].
Qed.

Lemma update_game_state_returns s :
  levelled_world s →
  wp update_game_state (λ _, levelled_world) (λ _, False) s.
Proof.
  intros Hlev. unfold update_game_state. repeat wp_step.
  assert (∀ s1,
    GameState.players (GameServer.game_state s1)
      = GameState.players (GameServer.game_state s) → levelled_world s1)
    as Hsame.
  { intros s1 Hps. unfold has_level. by rewrite Hps. }
  set (t := clock (GameServer.calls s)).
  assert (∀ s1,
    GameState.players (GameServer.game_state s1)
      = GameState.players (GameServer.game_state s) →
    wp (expire_powerups t ;;
        es ← gets GameState.enemies; enemies_loop 0 es ;;
        bs ← gets GameState.bullets; bullets_loop 0 bs)
      (λ _, levelled_world) (λ _, False) s1) as Hrest.
  { intros s1 Hps1. wp_step.
    eapply wp_mono; [apply expire_powerups_run| |done].
    intros [] s2 ->. repeat wp_step.
    eapply wp_mono; [by apply enemies_loop_spec| |done].
    intros [] s3 (Hps3 & _). world. repeat wp_step.
    apply bullets_loop_returns; [done|].
    apply Hsame. by rewrite Hps3. }
  wp_case.
  - wp_step.
    eapply wp_mono; [apply spawn_powerup_returns| |done].
    intros [] s1 Hps1. wp_step. by apply Hrest.
  - wp_step. by apply Hrest.
Qed.

End Returns.

(** X10.  On a play field with room to spawn, a tick over players that
    all have a level raises none of the three exceptions that the data
    it keeps could cause: no [list.remove] misses its element
    ([ValueError]), no range of [randint] is empty ([ValueError]), and no
    record lacks the key "level" ([KeyError]).  The bullets, enemies and
    powerups that the tick removes by value are in their lists when it
    removes them, though it mutates them while it iterates over copies.
    (Values outside the embedding can still make the code raise: an
    infinite angle in [math.cos], a record without "pos".) *)
Theorem tick_misses_nothing `{Oracle} `{Screen} (s : GameServer.t) :
  screen_ok →
  has_level (GameServer.game_state s) →
  Forall (λ x, (update_game_state s).1 ≠ Raise x) tick_errors.
Proof.
  intros Hscreen Hlev.
  pose proof (update_game_state_returns Hscreen s Hlev) as Hwp.
  unfold wp in Hwp.
  destruct (update_game_state s) as [[[]|x] s']; [|done].
  unfold tick_errors. by repeat constructor.
Qed.

Lemma tick_misses_nothing_witness :
  @screen_ok screen_1280x720
  ∧ has_level (GameServer.game_state (kill_world 470 460 five_powerups))
  ∧ Forall (λ x, (@update_game_state ExactFloat eager screen_1280x720
                    (kill_world 470 460 five_powerups)).1 ≠ Raise x)
      tick_errors.
Proof.
  assert (@screen_ok screen_1280x720) as Hscreen by (split; cbn; lia).
  assert (has_level (GameServer.game_state (kill_world 470 460 five_powerups)))
    as Hlev.
  { apply Forall_singleton. by eexists. }
  split; [exact Hscreen|]. split; [exact Hlev|].
  exact (@tick_misses_nothing ExactFloat eager screen_1280x720
           (kill_world 470 460 five_powerups) Hscreen Hlev).
Defined.

Section Bystanders.
Context `{Oracle} `{Screen}.

Lemma award_kill_xp_vitals d id p :
  vitals (id, award_kill_xp d p) = vitals (id, p).
Proof. unfold award_kill_xp. by case_decide. Qed.

Lemma rewarded_vitals d owner (ps : list (string * Player.t)) :
  vitals <$> rewarded d owner ps = vitals <$> ps.
Proof.
  unfold rewarded.
  destruct (list_find _ _) as [[j [id player]]|] eqn:Hfind; [|done].
  apply dict_find_key in Hfind as [Hj _].
  rewrite list_fmap_insert, award_kill_xp_vitals.
  apply list_insert_id. by rewrite list_lookup_fmap, Hj.
Qed.

Lemma reward_kill_run d owner s :
  reward_kill d owner s
  = (Ok tt,
     (modify (λ g, set_players (rewarded d owner (GameState.players g)) g)
        s).2).
Proof.
  unfold reward_kill, rewarded, mbind, M_bind, gets. cbn.
  destruct (list_find _ _) as [[j [id player]]|]; [done|].
  by destruct s as [c [] t d' n].
Qed.

Lemma vitals_reward_kill X d owner :
  keeps (on_world (λ g, vitals <$> GameState.players g = X))
    (reward_kill d owner).
Proof.
  intros s Hs. rewrite reward_kill_run. unfold on_world in *. cbn.
  by rewrite rewarded_vitals.
Qed.

Lemma vitals_bullet_vs_enemies X i b :
  keeps (on_world (λ g, vitals <$> GameState.players g = X))
    (bullet_vs_enemies i b).
Proof.
  pose proof vitals_reward_kill. keeps_apart.
Qed.

Lemma enemies_bullet_step X i b :
  Bullet.owner b = ENEMY_OWNER →
  keeps (on_world (λ g, GameState.enemies g = X)) (bullet_step i b).
Proof.
  intros Hb. unfold bullet_step.
  change (Bullet.owner (move_bullet b)) with (Bullet.owner b).
  rewrite (decide_False (P := Bullet.owner b ≠ ENEMY_OWNER))
    by (intros Hne; by apply Hne).
  keeps_apart.
Qed.

End Bystanders.

(** X11.  The resolution of a bullet against the enemies, whether it
    returns or raises, leaves every player where it stands and at the
    health and shield it had, under the same identifier and in the same
    order: a kill changes the experience of the owner only. *)
Theorem bullet_on_enemies_spares_players `{Oracle} `{Screen}
    (i : nat) (b : Bullet.t) (s : GameServer.t) :
  vitals <$> GameState.players
               (GameServer.game_state (bullet_vs_enemies i b s).2)
  = vitals <$> GameState.players (GameServer.game_state s).
Proof. by apply (vitals_bullet_vs_enemies _ i b s). Qed.

(** X12.  The step of the loop for a bullet owned by "enemy", whether it
    returns or raises, leaves the enemies as they were: such a bullet is
    tested against the players only. *)
Theorem enemy_bullet_spares_enemies `{Oracle} `{Screen}
    (i : nat) (b : Bullet.t) (s : GameServer.t) :
  Bullet.owner b = ENEMY_OWNER →
  GameState.enemies (GameServer.game_state (bullet_step i b s).2)
  = GameState.enemies (GameServer.game_state s).
Proof. intros Hb. by apply (enemies_bullet_step _ i b Hb s). Qed.

Lemma enemy_bullet_spares_enemies_witness :
  Bullet.owner (shot 95) = ENEMY_OWNER
  ∧ GameState.enemies
      (GameServer.game_state
         (@bullet_step ExactFloat calm screen_1280x720 0 (shot 95)
            (shield_world 95)).2)
    = GameState.enemies (GameServer.game_state (shield_world 95)).
Proof.
  split; [reflexivity|].
  exact (@enemy_bullet_spares_enemies ExactFloat calm screen_1280x720 0%nat
           (shot 95) (shield_world 95) eq_refl).
Defined.

Section MoreCombat.
Context `{Oracle} `{Screen}.

Lemma dict_get_find {V} (d : list (string * V)) (k : string) j kv :
  list_find (λ kv : string * V, kv.1 = k) d = Some (j, kv) →
  dict_get k d = Some kv.2
  ∧ ∀ v', dict_get k (<[j := (k, v')]> d) = Some v'.
Proof.
  revert j. induction d as [|[k' v] d IH]; intros j Hfind; [done|].
  cbn in Hfind. destruct (decide (k' = k)) as [->|Hne].
  - simplify_eq. cbn. split; [|intros v']; by rewrite decide_True.
  - destruct (list_find _ d) as [[j' kv']|] eqn:Hd; [|done].
    cbn in Hfind. simplify_eq. destruct (IH _ eq_refl) as [IH1 IH2].
    cbn. split; [|intros v']; by rewrite decide_False.
Qed.

Lemma dict_get_store_ne {V} (d : list (string * V)) j (k k0 : string)
    (v v' : V) :
  d !! j = Some (k, v) → k0 ≠ k →
  dict_get k0 (<[j := (k, v')]> d) = dict_get k0 d.
Proof.
  revert j. induction d as [|[k' w] d IH]; intros [|j] Hj Hne; try done.
  - cbn in Hj. simplify_eq. cbn. by rewrite !decide_False.
  - cbn in Hj |- *. destruct (decide (k' = k0)); [done|]. by eapply IH.
Qed.

Lemma list_find_key_None {V} (d : list (string * V)) (k : string) :
  list_find (λ kv : string * V, kv.1 = k) d = None ↔ k ∉ dict_keys d.
Proof.
  rewrite list_find_None. unfold dict_keys.
  rewrite <- (Forall_fmap fst (λ k', k' ≠ k)).
  rewrite Forall_forall. split.
  - intros Hall Hin. apply list_elem_of_In in Hin. by apply (Hall k).
  - intros Hnin k' Hin%list_elem_of_In ->. done.
Qed.

End MoreCombat.

(** X13.  A bullet that its move takes off the play field is removed in
    that same step, from a list in which it has a place: the step
    returns the place it had, [bullets] is one shorter, and nothing else
    of the server changes: no collision is tested, no powerup is picked
    up, no random number is drawn. *)
Theorem stray_bullet_is_dropped `{Oracle} `{Screen}
    (i : nat) (b : Bullet.t) (s : GameServer.t) :
  out_of_bounds (move_bullet b) = true →
  (i < length (GameState.bullets (GameServer.game_state s)))%nat →
  ∃ bs',
    list_remove (move_bullet b)
      (<[i := move_bullet b]> (GameState.bullets (GameServer.game_state s)))
    = Some bs'
    ∧ bullet_step i b s = (Ok i, (modify (set_bullets bs') s).2)
    ∧ S (length bs') = length (GameState.bullets (GameServer.game_state s)).
Proof.
  intros Hout Hi.
  destruct (list_remove (move_bullet b)
              (<[i := move_bullet b]>
                 (GameState.bullets (GameServer.game_state s))))
    as [bs'|] eqn:Hrm.
  - exists bs'. split_and!; [done| |].
    + assert (wp (bullet_step i b)
                (λ i' s', (Ok i', s')
                          = (Ok i, (modify (set_bullets bs') s).2))
                (λ _, False) s) as Hwp.
      { unfold bullet_step. repeat wp_step. rewrite Hout.
        unfold remove_bullet. repeat wp_step. world. rewrite Hrm.
        by repeat wp_step. }
      unfold wp in Hwp. by destruct (bullet_step i b s) as [[i'|x] s'].
    + apply list_remove_length in Hrm. by rewrite length_insert in Hrm.
  - apply list_remove_None in Hrm. exfalso. apply Hrm.
    eapply list_elem_of_lookup_2. by apply list_lookup_insert_eq.
Qed.

Lemma stray_bullet_is_dropped_witness :
  @out_of_bounds ExactFloat screen_1280x720 (move_bullet (shot 1278)) = true
  ∧ (0 < length (GameState.bullets
                   (GameServer.game_state (shield_world 1278))))%nat
  ∧ ∃ bs',
      list_remove (move_bullet (shot 1278))
        (<[0%nat := move_bullet (shot 1278)]>
           (GameState.bullets (GameServer.game_state (shield_world 1278))))
      = Some bs'
      ∧ @bullet_step ExactFloat calm screen_1280x720 0 (shot 1278)
          (shield_world 1278)
        = (Ok 0%nat, (modify (set_bullets bs') (shield_world 1278)).2)
      ∧ S (length bs')
        = length (GameState.bullets
                    (GameServer.game_state (shield_world 1278))).
Proof.
  assert (@out_of_bounds ExactFloat screen_1280x720
            (move_bullet (shot 1278)) = true) as Hout
    by (vm_compute; reflexivity).
  assert (0 < length (GameState.bullets
                        (GameServer.game_state (shield_world 1278))))%nat
    as Hi by (cbn; lia).
  split; [exact Hout|]. split; [exact Hi|].
  exact (@stray_bullet_is_dropped ExactFloat calm screen_1280x720 0%nat
           (shot 1278) (shield_world 1278) Hout Hi).
Defined.

(** X14.  A hit that leaves the enemy alive returns, and changes one
    enemy only: the first in the list within its size of the bullet loses
    the bullet's damage, also when further enemies are in range.  The
    players and the powerups are as they were and no random number is
    drawn; the bullet stays at its place with its counter one lower, or
    is removed when the counter is spent. *)
Theorem hit_wounds_the_first_enemy_in_range `{Oracle} `{Screen}
    (i : nat) (b : Bullet.t) (s : GameServer.t) (k : nat) (e : Enemy.t) :
  list_find (λ e, hits_enemy b e = true)
    (GameState.enemies (GameServer.game_state s)) = Some (k, e) →
  0 < Enemy.health e - Bullet.damage b →
  let g := GameServer.game_state s in
  let r := bullet_vs_enemies i b s in
  let g' := GameServer.game_state r.2 in
  (∃ removed, r.1 = Ok removed)
  ∧ GameState.enemies g' = <[k := hit_enemy b e]> (GameState.enemies g)
  ∧ Enemy.health (hit_enemy b e) = Enemy.health e - Bullet.damage b
  ∧ GameState.players g' = GameState.players g
  ∧ GameState.powerups g' = GameState.powerups g
  ∧ GameServer.calls r.2 = GameServer.calls s
  ∧ GameState.bullets g'
    = let bs := <[i := spent b]> (GameState.bullets g) in
      if decide (Bullet.penetration b ≤ 1)
      then default bs (list_remove (spent b) bs) else bs.
Proof.
  intros Hfind Halive. cbv zeta.
  unfold bullet_vs_enemies, mbind, M_bind, gets. cbn.
  rewrite Hfind. cbn.
  rewrite (decide_False (P := Enemy.health e - Bullet.damage b ≤ 0)) by lia.
  destruct (decide (Bullet.penetration b - 1 ≤ 0)) as [Hp|Hp].
  - rewrite decide_True by lia.
    unfold remove_bullet_if_present, mbind, M_bind, gets. cbn.
    destruct (list_remove _ _) as [bs'|]; cbn; split_and!; eauto.
  - rewrite decide_False by lia. cbn. split_and!; eauto.
Qed.

Lemma hit_wounds_the_first_enemy_in_range_witness :
  list_find (λ e, hits_enemy (round 460) e = true)
    (GameState.enemies (GameServer.game_state skirmish))
  = Some (0%nat, an_enemy (at_xy 470 500) 30)
  ∧ 0 < Enemy.health (an_enemy (at_xy 470 500) 30)
        - Bullet.damage (round 460)
  ∧ let g := GameServer.game_state skirmish in
    let r := @bullet_vs_enemies ExactFloat calm screen_1280x720 0
               (round 460) skirmish in
    let g' := GameServer.game_state r.2 in
    (∃ removed, r.1 = Ok removed)
    ∧ GameState.enemies g'
      = <[0%nat := hit_enemy (round 460) (an_enemy (at_xy 470 500) 30)]>
          (GameState.enemies g)
    ∧ Enemy.health (hit_enemy (round 460) (an_enemy (at_xy 470 500) 30))
      = Enemy.health (an_enemy (at_xy 470 500) 30)
        - Bullet.damage (round 460)
    ∧ GameState.players g' = GameState.players g
    ∧ GameState.powerups g' = GameState.powerups g
    ∧ GameServer.calls r.2 = GameServer.calls skirmish
    ∧ GameState.bullets g'
      = let bs := <[0%nat := spent (round 460)]> (GameState.bullets g) in
        if decide (Bullet.penetration (round 460) ≤ 1)
        then default bs (list_remove (spent (round 460)) bs) else bs.
Proof.
  assert (list_find (λ e, hits_enemy (round 460) e = true)
            (GameState.enemies (GameServer.game_state skirmish))
          = Some (0%nat, an_enemy (at_xy 470 500) 30)) as Hfind
    by reflexivity.
  assert (0 < Enemy.health (an_enemy (at_xy 470 500) 30)
              - Bullet.damage (round 460)) as Halive by (cbn; lia).
  split; [exact Hfind|]. split; [exact Halive|].
  exact (@hit_wounds_the_first_enemy_in_range ExactFloat calm
           screen_1280x720 0%nat (round 460) skirmish 0%nat
           (an_enemy (at_xy 470 500) 30) Hfind Halive).
Defined.

(** X15.  Whatever the damage, [damage_player] takes it from health and
    shield together: their sum (an absent shield counting 0) drops by
    exactly the damage.  A shield that was not negative is not negative
    afterwards; the key "shield" is neither added nor removed, and the
    position and the progression of the player are untouched. *)
Theorem damage_is_taken_once `{Float} (damage : Z) (p : Player.t) :
  let p' := damage_player damage p in
  Player.health p' + default 0 (Player.shield p')
  = Player.health p + default 0 (Player.shield p) - damage
  ∧ (0 ≤ default 0 (Player.shield p) → 0 ≤ default 0 (Player.shield p'))
  ∧ (is_Some (Player.shield p') ↔ is_Some (Player.shield p))
  ∧ Player.pos p' = Player.pos p
  ∧ Player.level p' = Player.level p
  ∧ Player.xp p' = Player.xp p.
Proof.
  cbv zeta. unfold damage_player.
  destruct (Player.shield p) as [sh|] eqn:Hsh.
  - repeat case_decide; cbn; rewrite ?Hsh; cbn; split_and!; try done;
      try lia.
    all: split; by eexists.
  - cbn. rewrite Hsh. cbn. split_and!; try done; lia.
Qed.


Section ClientLoop.
Context `{Float}.

Lemma receive_loop_disconnected reads c :
  NetworkClient.connected c = false → receive_loop reads c = c.
Proof. intros Hc. destruct reads as [|[r t] rest]; cbn; by rewrite ?Hc. Qed.

Lemma receive_loop_snapshots (snaps : list (GameState.t * float)) : ∀ rest c,
  NetworkClient.connected c = true →
  let c' := receive_loop ((λ gt, (Snapshot gt.1, gt.2)) <$> snaps) c in
  receive_loop (((λ gt, (Snapshot gt.1, gt.2)) <$> snaps) ++ rest) c
  = receive_loop rest c'
  ∧ NetworkClient.connected c' = true
  ∧ NetworkClient.game_state c'
    = default (NetworkClient.game_state c) (list.last snaps.*1)
  ∧ NetworkClient.last_received c'
    = default (NetworkClient.last_received c) (list.last snaps.*2).
Proof.
  induction snaps as [|[g t] snaps IH]; intros rest c Hc; [done|].
  cbn [fmap list_fmap app receive_loop]. rewrite Hc. cbn [fst snd].
  destruct (IH rest (receive_data (Snapshot g) t c) Hc)
    as (-> & Hc' & Hg' & Ht').
  split_and!; [done|done| |].
  - rewrite Hg'. csimpl. rewrite last_cons. by destruct (list.last snaps.*1).
  - rewrite Ht'. csimpl. rewrite last_cons. by destruct (list.last snaps.*2).
Qed.

End ClientLoop.

(** X17.  A payload that a connected client sends is stamped with the
    clock reading [now]; merged by the server and sent back, it is what
    the client then finds under its own identifier in its cache, with
    its bullets at the end of the cached bullets.  The latency it
    computes is measured from the clock reading of the server's merge,
    not from its own stamp. *)
Theorem round_trip_shows_the_payload `{Oracle} `{Screen}
    (now receive_time : float) (data : Player.t) (id : string)
    (c : NetworkClient.t) (s : GameServer.t) :
  NetworkClient.connected c = true →
  ∃ payload snapshot s',
    send_data now true data c = (Some payload, c)
    ∧ Player.send_time payload = Some now
    ∧ handle_message id payload s = (Ok snapshot, s')
    ∧ let c' := receive_data (Snapshot snapshot) receive_time c in
      NetworkClient.connected c' = true
      ∧ dict_get id (GameState.players (NetworkClient.game_state c'))
        = Some payload
      ∧ GameState.bullets (NetworkClient.game_state c')
        = GameState.bullets (GameServer.game_state s) ++ fired id data
      ∧ NetworkClient.ping c'
        = ftrunc (fmul (fsub receive_time (clock (GameServer.calls s)))
                    (of_int 1000)).
Proof.
  intros Hc. unfold send_data. rewrite Hc.
  eexists.
  pose proof (handle_message_spec id
    (Player.mk (Player.pos data) (Player.angle data) (Player.health data)
       (Player.shield data) (Player.level data) (Player.xp data)
       (Player.xp_to_next_level data) (Player.new_bullets data)
       (Player.upgrade_points data) (Some now) (Player.max_health data)
       (Player.shield_end_time data) (Player.movement_speed_boost data)
       (Player.speed_end_time data) (Player.damage_boost data)
       (Player.damage_end_time data)) s) as Hs.
  unfold wp in Hs.
  destruct (handle_message id _ s) as [[snapshot|e] s'] eqn:Hm; [|done].
  destruct Hs as (Hsnap & Hps & _ & Hbs & _ & Hst).
  exists snapshot, s'.
  split; [done|]. split; [done|]. split; [exact Hm|].
  cbn. rewrite Hst, Hps, Hbs. split_and!; try done.
  apply dict_get_set_eq.
Qed.

Lemma round_trip_shows_the_payload_witness :
  NetworkClient.connected
    (connect true (NetworkClient_init (Fin 0))) = true
  ∧ ∃ payload snapshot s',
      send_data (Fin 1) true rogue_payload
        (connect true (NetworkClient_init (Fin 0)))
      = (Some payload, connect true (NetworkClient_init (Fin 0)))
      ∧ Player.send_time payload = Some (Fin 1)
      ∧ @handle_message ExactFloat calm "p1" payload fresh_server
        = (Ok snapshot, s')
      ∧ let c' := receive_data (Snapshot snapshot) (Fin 2)
                    (connect true (NetworkClient_init (Fin 0))) in
        NetworkClient.connected c' = true
        ∧ dict_get "p1" (GameState.players (NetworkClient.game_state c'))
          = Some payload
        ∧ GameState.bullets (NetworkClient.game_state c')
          = GameState.bullets (GameServer.game_state fresh_server)
            ++ fired "p1" rogue_payload
        ∧ NetworkClient.ping c'
          = ftrunc (fmul (fsub (Fin 2)
                            (@clock _ calm (GameServer.calls fresh_server)))
                      (of_int 1000)).
Proof.
  split; [reflexivity|].
  exact (@round_trip_shows_the_payload ExactFloat calm screen_1280x720
           (Fin 1) (Fin 2) rogue_payload "p1"
           (connect true (NetworkClient_init (Fin 0))) fresh_server eq_refl).
Defined.

(** X18.  The receive loop ends with the connection.  After any number
    of snapshots, the first read that is empty or raises leaves the
    client disconnected, with the latency last computed, and what the
    socket would yield later is never read.  What the ending round had
    assigned before it ended stays: after an empty read or a failed
    [recv] the cache is the last snapshot received (the initial cache if
    there was none) and [last_received] the time of that snapshot; when
    [pickle.loads] raises, [last_received] is already the time of the
    failed round; when the latency cannot be computed, the cache is
    already the new snapshot as well.  From then on [send_data] puts
    nothing on the wire and changes nothing. *)
Theorem reception_ends_with_the_connection `{Float}
    (snaps : list (GameState.t * float)) (r : Received) (t : float)
    (later : list (Received * float)) (c : NetworkClient.t)
    (now : float) (sent : bool) (data : Player.t) :
  NetworkClient.connected c = true →
  ends_reception r →
  let received := (λ gt, (Snapshot gt.1, gt.2)) <$> snaps in
  let c' := receive_loop (received ++ (r, t) :: later) c in
  c' = receive_loop (received ++ [(r, t)]) c
  ∧ NetworkClient.connected c' = false
  ∧ NetworkClient.ping c' = NetworkClient.ping (receive_loop received c)
  ∧ NetworkClient.game_state c'
    = match r with
      | Unmeasured g => g
      | _ => default (NetworkClient.game_state c) (list.last snaps.*1)
      end
  ∧ NetworkClient.last_received c'
    = match r with
      | Closed | Failed =>
          default (NetworkClient.last_received c) (list.last snaps.*2)
      | _ => t
      end
  ∧ send_data now sent data c' = (None, c').
Proof.
  intros Hc Hr. cbv zeta.
  destruct (receive_loop_snapshots snaps ((r, t) :: later) c Hc)
    as (-> & Hc1 & Hg1 & Ht1).
  destruct (receive_loop_snapshots snaps [(r, t)] c Hc) as (-> & _).
  cbn [receive_loop]. rewrite Hc1.
  assert (NetworkClient.connected
            (receive_data r t
               (receive_loop ((λ gt, (Snapshot gt.1, gt.2)) <$> snaps) c))
          = false) as Hoff.
  { destruct r as [| | |g|g]; try done. destruct Hr as [st Hst].
    cbn. by rewrite Hst. }
  rewrite receive_loop_disconnected by done.
  split; [done|]. split; [done|].
  split; [by destruct r|]. split; [by destruct r|]. split; [by destruct r|].
  unfold send_data. by rewrite Hoff.
Qed.

Lemma reception_ends_with_the_connection_witness :
  let c := connect true (NetworkClient_init (Fin 0)) in
  let world := GameServer.game_state (shield_world 95) in
  NetworkClient.connected c = true
  ∧ ends_reception Undecodable
  ∧ let received := (λ gt, (Snapshot gt.1, gt.2)) <$> [(world, Fin 1)] in
    let c' := receive_loop
                (received ++ (Undecodable, Fin 2) :: [(Snapshot world, Fin 3)])
                c in
    c' = receive_loop (received ++ [(Undecodable, Fin 2)]) c
    ∧ NetworkClient.connected c' = false
    ∧ NetworkClient.ping c' = NetworkClient.ping (receive_loop received c)
    ∧ NetworkClient.game_state c' = world
    ∧ NetworkClient.last_received c' = Fin 2
    ∧ send_data (Fin 4) true idle_payload c' = (None, c').
Proof.
  split; [reflexivity|]. split; [exact I|].
  exact (@reception_ends_with_the_connection ExactFloat
           [(GameServer.game_state (shield_world 95), Fin 1)] Undecodable
           (Fin 2)
           [(Snapshot (GameServer.game_state (shield_world 95)), Fin 3)]
           (connect true (NetworkClient_init (Fin 0))) (Fin 4) true
           idle_payload eq_refl I).
Defined.

Section LocalRules.
Context `{Oracle}.

Lemma update_multiplayer_run sent g :
  Game.multiplayer_mode g = true →
  let connected := NetworkClient.connected (Game.client g) in
  let t1 := clock (if connected then S (Game.calls g) else Game.calls g) in
  let client :=
    NetworkClient.mk (connected && sent)
      (NetworkClient.game_state (Game.client g))
      (NetworkClient.last_received (Game.client g))
      (NetworkClient.ping (Game.client g)) in
  let g3 :=
    Game.mk (Game.player_pos g) (Game.player_angle g) (Game.player_health g)
      (Game.player_shield g) (Game.player_xp g) (Game.player_level g)
      (Game.xp_to_next_level g) (Game.player_upgrade_points g)
      (Game.max_health g) (Game.shield g) (Game.speed_boost g)
      (Game.damage_boost g) (Game.is_dead g) (Game.respawn_time g) []
      true (Game.difficulty g) client (Game.enemies g)
      (if connected then S (S (Game.calls g)) else S (Game.calls g)) in
  update_multiplayer sent g
  = (if connected && sent then Some (player_data t1 g) else None,
     apply_cached_powerups
       (GameState.powerups (NetworkClient.game_state (Game.client g))) g3).
Proof.
  intros Hmode. cbv zeta. unfold update_multiplayer. rewrite Hmode.
  destruct g as [pos a h sh xp lv th up mh e1 e2 e3 dead rt nb mode d
                   [conn cache lr ping] es n].
  cbn in Hmode. subst mode. cbn.
  destruct conn, sent; reflexivity.
Qed.

Lemma Game_apply_powerup_untouched ty g :
  untouched_by_powerups g (Game_apply_powerup ty g).
Proof.
  destruct ty; cbn; try done.
  unfold add_xp. by case_decide.
Qed.

Lemma apply_cached_powerups_untouched pus : ∀ g,
  untouched_by_powerups g (apply_cached_powerups pus g).
Proof.
  unfold apply_cached_powerups.
  induction pus as [|pu pus IH]; intros g; cbn [fold_left]; [done|].
  destruct (fltb _ _); [|apply IH].
  pose proof (Game_apply_powerup_untouched (Powerup.type pu) g)
    as (? & ? & ? & ? & ?).
  destruct (IH (Game_apply_powerup (Powerup.type pu) g))
    as (? & ? & ? & ? & ?).
  repeat split; congruence.
Qed.

(** One frame on a cache that holds one health powerup in reach. *)
Lemma update_multiplayer_heals sent g pu :
  Game.multiplayer_mode g = true →
  GameState.powerups (NetworkClient.game_state (Game.client g)) = [pu] →
  Powerup.type pu = health_up →
  fltb (dist (Powerup.pos pu) (Game.player_pos g)) (of_int 25) = true →
  let g' := (update_multiplayer sent g).2 in
  Game.player_health g'
  = Z.min (Game.player_health g + 25) (Game.max_health g)
  ∧ Game.multiplayer_mode g' = true
  ∧ GameState.powerups (NetworkClient.game_state (Game.client g')) = [pu]
  ∧ Game.player_pos g' = Game.player_pos g
  ∧ Game.max_health g' = Game.max_health g.
Proof.
  intros Hmode Hcache Hty Hreach. cbv zeta.
  rewrite update_multiplayer_run by done. cbn [snd].
  rewrite Hcache. unfold apply_cached_powerups. cbn.
  rewrite Hreach, Hty. cbn. done.
Qed.

End LocalRules.

(** X19.  The local rule and the server's rule for the experience of a
    kill agree: the payload of a game that has run [add_xp] with the
    award of the difficulty is what [award_kill_xp] makes of the payload
    of the game before. *)
Theorem local_and_server_award_agree `{Float} (d : Difficulty) (t : float)
    (g : Game.t) :
  player_data t (add_xp (kill_xp d) g) = award_kill_xp d (player_data t g).
Proof. unfold add_xp, award_kill_xp. cbn. by case_decide. Qed.

(** X20.  The local rule and the server's rule for the hit of an enemy's
    bullet agree: the payload of a game after [move_bullets] has applied
    a hit is what [damage_player] makes of the payload of the game
    before, at the enemy damage of the game's difficulty. *)
Theorem local_and_server_damage_agree `{Oracle} (t : float) (g : Game.t) :
  player_data t (enemy_bullet_hit g)
  = damage_player (enemy_damage (Game.difficulty g)) (player_data t g).
Proof.
  unfold enemy_bullet_hit, damage_player. cbn.
  repeat case_decide; reflexivity.
Qed.

(** X21.  A frame of [update_multiplayer] offers the bullets fired since
    the last frame to the server once: they go on the wire when the
    client is connected and the send succeeds, under the clock reading
    of [send_data], and [new_bullets] is empty afterwards in every case,
    so that bullets whose send failed are never sent again.  The cache
    and the position of the player are as they were. *)
Theorem frame_offers_the_bullets_once `{Oracle} (sent : bool) (g : Game.t) :
  Game.multiplayer_mode g = true →
  let connected := NetworkClient.connected (Game.client g) in
  let r := update_multiplayer sent g in
  r.1 = (if connected && sent
         then Some (player_data (clock (S (Game.calls g))) g) else None)
  ∧ Game.new_bullets r.2 = []
  ∧ NetworkClient.connected (Game.client r.2) = connected && sent
  ∧ NetworkClient.game_state (Game.client r.2)
    = NetworkClient.game_state (Game.client g)
  ∧ Game.player_pos r.2 = Game.player_pos g
  ∧ Game.multiplayer_mode r.2 = true.
Proof.
  intros Hmode. cbv zeta. rewrite update_multiplayer_run by done.
  cbn [fst snd].
  match goal with
  | |- context [apply_cached_powerups ?pus ?g3] =>
      destruct (apply_cached_powerups_untouched pus g3)
        as (-> & _ & -> & -> & ->)
  end.
  cbn. split_and!; try done.
  by destruct (NetworkClient.connected (Game.client g)), sent.
Qed.

Lemma frame_offers_the_bullets_once_witness :
  Game.multiplayer_mode a_game = true
  ∧ let connected := NetworkClient.connected (Game.client a_game) in
    let r := @update_multiplayer ExactFloat calm false a_game in
    r.1 = (if connected && false
           then Some (player_data (@clock _ calm (S (Game.calls a_game)))
                        a_game)
           else None)
    ∧ Game.new_bullets r.2 = []
    ∧ NetworkClient.connected (Game.client r.2) = connected && false
    ∧ NetworkClient.game_state (Game.client r.2)
      = NetworkClient.game_state (Game.client a_game)
    ∧ Game.player_pos r.2 = Game.player_pos a_game
    ∧ Game.multiplayer_mode r.2 = true.
Proof.
  split; [reflexivity|].
  exact (@frame_offers_the_bullets_once ExactFloat calm false a_game
           eq_refl).
Defined.

(** X22.  The local player applies the powerups of its cache on every
    frame: while the cache holds a health powerup within 25 of the
    player and no new snapshot arrives, each frame of
    [update_multiplayer] adds 25 to the health, up to the maximal
    health. *)
Theorem cached_powerup_heals_every_frame `{Oracle} (k : nat) (sent : bool)
    (g : Game.t) (pu : Powerup.t) :
  Game.multiplayer_mode g = true →
  GameState.powerups (NetworkClient.game_state (Game.client g)) = [pu] →
  Powerup.type pu = health_up →
  fltb (dist (Powerup.pos pu) (Game.player_pos g)) (of_int 25) = true →
  Game.player_health (frames (S k) sent g)
  = Z.min (Game.player_health g + 25 * Z.of_nat (S k)) (Game.max_health g).
Proof.
  revert g. induction k as [|k IH]; intros g Hmode Hcache Hty Hreach.
  - cbn [frames].
    destruct (update_multiplayer_heals sent g pu Hmode Hcache Hty Hreach)
      as (-> & _). done.
  - cbn [frames] in IH |- *.
    destruct (update_multiplayer_heals sent g pu Hmode Hcache Hty Hreach)
      as (Hh & Hmode' & Hcache' & Hpos' & Hmax').
    rewrite IH; [|done|done|done|by rewrite Hpos'].
    rewrite Hh, Hmax'. lia.
Qed.

Lemma cached_powerup_heals_every_frame_witness :
  Game.multiplayer_mode a_game = true
  ∧ GameState.powerups (NetworkClient.game_state (Game.client a_game))
    = [medkit]
  ∧ Powerup.type medkit = health_up
  ∧ fltb (dist (Powerup.pos medkit) (Game.player_pos a_game)) (of_int 25)
    = true
  ∧ Game.player_health (@frames ExactFloat calm 2 true a_game)
    = Z.min (Game.player_health a_game + 25 * Z.of_nat 2)
        (Game.max_health a_game).
Proof.
  assert (@fltb ExactFloat
            (dist (Powerup.pos medkit) (Game.player_pos a_game)) (of_int 25)
          = true) as Hreach by (vm_compute; reflexivity).
  split; [reflexivity|]. split; [reflexivity|]. split; [reflexivity|].
  split; [exact Hreach|].
  exact (@cached_powerup_heals_every_frame ExactFloat calm 1%nat true a_game
           medkit eq_refl eq_refl eq_refl Hreach).
Defined.

Section Respawning.
Context `{Oracle} `{Screen}.
Hypothesis Hroom : room_to_respawn.

(** What the tries leave of the player. *)
Local Abbreviation respawned g g' :=
  (Game.is_dead g' = Game.is_dead g
   ∧ Game.player_health g' = Game.player_health g
   ∧ Game.player_shield g' = Game.player_shield g
   ∧ Game.enemies g' = Game.enemies g
   ∧ (Game.player_xp g', Game.player_level g', Game.xp_to_next_level g',
      Game.player_upgrade_points g')
     = (Game.player_xp g, Game.player_level g, Game.xp_to_next_level g,
        Game.player_upgrade_points g)).

Lemma respawn_tries_step left g :
  let x := rand_int (Game.calls g) 100 (WIDTH - 100) in
  let y := rand_int (S (Game.calls g)) 100 (HEIGHT - 100) in
  let g3 := with_player_pos (of_int x, of_int y)
              (count_call (count_call g)) in
  respawn_tries (S left) g
  = if unsafe (Game.player_pos g3) (Game.enemies g3)
    then respawn_tries left g3 else (Ok tt, g3).
Proof.
  destruct Hroom as [Hw Hh].
  cbn [respawn_tries]. unfold Game_randint.
  by rewrite !decide_False by lia.
Qed.

Lemma respawn_tries_spec left : ∀ g,
  ∃ g' n,
    respawn_tries (S left) g = (Ok tt, g')
    ∧ respawned g g'
    ∧ (1 ≤ n ≤ S left)%nat
    ∧ Game.calls g' = (Game.calls g + 2 * n)%nat
    ∧ Game.player_pos g'
      = (of_int (rand_int (Game.calls g + 2 * n - 2) 100 (WIDTH - 100)),
         of_int (rand_int (Game.calls g + 2 * n - 1) 100 (HEIGHT - 100)))
    ∧ (unsafe (Game.player_pos g') (Game.enemies g') = false
       ∨ n = S left).
Proof.
  induction left as [|left IH]; intros g; rewrite respawn_tries_step;
    cbv zeta.
  - destruct (unsafe _ _) eqn:Hunsafe.
    all: eexists _, 1%nat; split; [done|].
    all: cbn; split_and!; try done; try lia; try (by right); try (by left).
    all: do 2 f_equal; f_equal; lia.
  - destruct (unsafe _ _) eqn:Hunsafe.
    + match goal with
      | |- context [respawn_tries (S left) ?g3] =>
          destruct (IH g3)
            as (g' & n & -> & (Hd & Hh & Hs & Hes & Hxp) & Hn & Hcalls
                & Hpos & Hsafe)
      end.
      cbn in Hd, Hh, Hs, Hes, Hxp, Hcalls, Hpos.
      exists g', (S n). split_and!; try done; try lia.
      * rewrite Hpos. do 3 f_equal; lia.
      * destruct Hsafe as [Hsafe|Hsafe]; [by left|right; by rewrite Hsafe].
    + eexists _, 1%nat. split; [done|].
      cbn. split_and!; try done; try lia; try (by left).
      do 2 f_equal; f_equal; lia.
Qed.

End Respawning.



Section Targeting.
Context `{Float}.

(** The step of the search for the closest player. *)
Local Abbreviation closer pos :=
  (λ (acc : option Player.t * float) (kv : string * Player.t),
     if fltb (dist (Player.pos kv.2) pos) acc.2
     then (Some kv.2, dist (Player.pos kv.2) pos) else acc).

Lemma fold_closer (D : list float) pos (ps : list (string * Player.t)) :
  (∀ a, a ∈ D → fltb a a = false) →
  (∀ a b c, a ∈ D → b ∈ D → c ∈ D →
     fltb a b = true → fltb b c = true → fltb a c = true) →
  ∀ acc,
  acc.2 ∈ D →
  (∀ kv, kv ∈ ps → dist (Player.pos kv.2) pos ∈ D) →
  let r := fold_left (closer pos) ps acc in
  r.2 ∈ D
  ∧ (r = acc
     ∨ (∃ kv, kv ∈ ps ∧ r = (Some kv.2, dist (Player.pos kv.2) pos))
       ∧ fltb r.2 acc.2 = true)
  ∧ (∀ x, x ∈ D → fltb x acc.2 = false → fltb x r.2 = false)
  ∧ Forall (λ kv, fltb (dist (Player.pos kv.2) pos) r.2 = false) ps.
Proof.
  intros Hirr Htrans. induction ps as [|kv ps IH]; intros acc Hacc HD.
  - cbn. split_and!; auto.
  - cbn [fold_left].
    assert (dist (Player.pos kv.2) pos ∈ D) as Hd by (apply HD; left).
    assert (∀ kv', kv' ∈ ps → dist (Player.pos kv'.2) pos ∈ D) as HD'.
    { intros kv' Hin. apply HD. by right. }
    destruct (fltb (dist (Player.pos kv.2) pos) acc.2) eqn:Hlt.
    + destruct (IH (Some kv.2, dist (Player.pos kv.2) pos) Hd HD')
        as (Hr & Hwho & Hmono & Hall).
      cbn [fst snd] in *.
      split_and!; [done| | |].
      * right. destruct Hwho as [->|[(kv' & Hin & ->) Hlt']].
        -- split; [|done]. exists kv. split; [left|done].
        -- split; [exists kv'; split; [by right|done]|].
           exact (Htrans _ (dist (Player.pos kv.2) pos) _ (HD' kv' Hin) Hd
                    Hacc Hlt' Hlt).
      * intros x Hx Hxacc. apply Hmono; [done|].
        destruct (fltb x (dist (Player.pos kv.2) pos)) eqn:Hxd; [|done].
        rewrite <- Hxacc. symmetry.
        exact (Htrans _ (dist (Player.pos kv.2) pos) _ Hx Hd Hacc Hxd Hlt).
      * constructor; [|done]. apply Hmono; [done|]. by apply Hirr.
    + destruct (IH acc Hacc HD') as (Hr & Hwho & Hmono & Hall).
      split_and!; [done| |done|].
      * destruct Hwho as [->|[(kv' & Hin & ->) Hlt']]; [by left|].
        right. split; [|done]. exists kv'. split; [by right|done].
      * constructor; [|done]. by apply Hmono.
Qed.

End Targeting.

(** X24.  The search of an enemy for its target, on distances that [<]
    orders: the player found is one of the players, it is nearer than
    infinity and the distance kept is its own, and no player is nearer
    than it; no player is found only when none is nearer than
    infinity. *)
Theorem enemy_aims_at_a_closest_player `{Float} (pos : float * float)
    (ps : list (string * Player.t)) :
  ordered_by_lt (distances pos ps) →
  let r := closest_player pos ps in
  match r.1 with
  | Some p => (∃ id, (id, p) ∈ ps) ∧ r.2 = dist (Player.pos p) pos
              ∧ fltb r.2 finf = true
  | None => r.2 = finf
  end
  ∧ Forall (λ kv, fltb (dist (Player.pos kv.2) pos) r.2 = false) ps.
Proof.
  intros [Hirr Htrans]. cbv zeta. unfold closest_player.
  rewrite list.Forall_forall in Hirr.
  assert (∀ a b c, a ∈ distances pos ps → b ∈ distances pos ps →
            c ∈ distances pos ps →
            fltb a b = true → fltb b c = true → fltb a c = true) as Htrans'.
  { intros a b c Ha Hb Hc.
    rewrite list.Forall_forall in Htrans. specialize (Htrans a Ha).
    rewrite list.Forall_forall in Htrans. specialize (Htrans b Hb).
    rewrite list.Forall_forall in Htrans. by apply Htrans. }
  destruct (fold_closer (distances pos ps) pos ps Hirr Htrans' (None, finf))
    as (Hr & Hwho & _ & Hall).
  - left.
  - intros kv Hin. right.
    by apply (list_elem_of_fmap_2
                (λ kv : string * Player.t, dist (Player.pos kv.2) pos)).
  - split; [|done].
    destruct Hwho as [->|[([id p] & Hin & ->) Hlt]]; [done|].
    cbn in *. split_and!; [by exists id|done|done].
Qed.

Lemma enemy_aims_at_a_closest_player_witness :
  ordered_by_lt (distances (at_xy 100 100) two_players)
  ∧ let r := closest_player (at_xy 100 100) two_players in
    match r.1 with
    | Some p => (∃ id, (id, p) ∈ two_players)
                ∧ r.2 = dist (Player.pos p) (at_xy 100 100)
                ∧ fltb r.2 finf = true
    | None => r.2 = finf
    end
    ∧ Forall (λ kv, fltb (dist (Player.pos kv.2) (at_xy 100 100)) r.2 = false)
        two_players.
Proof.
  assert (ordered_by_lt (distances (at_xy 100 100) two_players)) as Hord.
  { split; repeat constructor; vm_compute; congruence. }
  split; [exact Hord|].
  exact (@enemy_aims_at_a_closest_player ExactFloat (at_xy 100 100)
           two_players Hord).
Defined.

(** X25.  No dead enemy stays in the world.  From a world whose enemies
    all have positive health, after any run of ticks, merges, accepted
    connections, cleanups and changes of difficulty, whether they return
    or raise, every enemy in [enemies] has positive health: the enemy that
    a hit brings to zero or below is the one that [list.remove] takes out
    in the same resolution, as no other enemy of the list is equal to it,
    and the enemy that replaces it starts at the full health of the
    difficulty.  The bullets
    may carry any damage, a negative one too. *)
Theorem no_dead_enemy_stays `{Oracle} `{Screen} (s : GameServer.t)
    (evs : list Event) :
  all_alive (GameServer.game_state s) →
  all_alive (GameServer.game_state (run evs s)).
Proof.
  revert s. induction evs as [|ev evs IH]; intros s HA; [done|].
  cbn. apply IH. by apply perform_all_alive.
Qed.

Lemma no_dead_enemy_stays_witness :
  all_alive (GameServer.game_state (kill_world 470 460 five_powerups))
  ∧ all_alive
      (GameServer.game_state
         (@run ExactFloat eager screen_1280x720 [Tick; Tick]
            (kill_world 470 460 five_powerups))).
Proof.
  assert (all_alive (GameServer.game_state (kill_world 470 460 five_powerups)))
    as HA.
  { apply Forall_singleton. cbn. lia. }
  split; [exact HA|].
  exact (@no_dead_enemy_stays ExactFloat eager screen_1280x720
           (kill_world 470 460 five_powerups) [Tick; Tick] HA).
Defined.

Section Standing.
Context `{Oracle} `{Screen}.
Variable X : list (string * (float * float)).

Local Abbreviation St := (on_world (λ g, standing g = X)).

Lemma standing_store j id p p' s :
  GameState.players (GameServer.game_state s) !! j = Some (id, p) →
  Player.pos p' = Player.pos p →
  St s → St (store_player j id p' s).2.
Proof.
  intros Hj Hpos Hs. unfold on_world, standing in *. cbn.
  rewrite list_fmap_insert. cbn. rewrite Hpos, list_insert_id; [done|].
  by rewrite list_lookup_fmap, Hj.
Qed.

Lemma damage_player_pos d p : Player.pos (damage_player d p) = Player.pos p.
Proof. unfold damage_player. repeat case_match; done. Qed.

Lemma award_kill_xp_pos d p : Player.pos (award_kill_xp d p) = Player.pos p.
Proof. unfold award_kill_xp. by case_decide. Qed.

Lemma standing_reward_kill d owner : keeps St (reward_kill d owner).
Proof.
  apply keeps_wp. intros s Hs. unfold reward_kill. repeat wp_step.
  destruct (list_find _ _) as [[j [id player]]|] eqn:Hfind; repeat wp_step.
  - apply list_find_Some in Hfind as (Hj & _ & _).
    eapply standing_store; [done|apply award_kill_xp_pos|done].
  - done.
Qed.

Lemma standing_bullet_vs_enemies i b : keeps St (bullet_vs_enemies i b).
Proof. pose proof standing_reward_kill. keeps_apart. Qed.

Lemma standing_bullet_vs_players b : keeps St (bullet_vs_players b).
Proof.
  apply keeps_wp. intros s Hs. unfold bullet_vs_players. repeat wp_step.
  destruct (first_player_within _ _ _) as [[j [id player]]|] eqn:Hfind;
    repeat wp_step; [|done].
  apply first_player_within_lookup in Hfind.
  apply wp_keeps with (I := St); [keeps_apart| |done|done].
  eapply standing_store; [done|apply damage_player_pos|done].
Qed.

(** Every write of [apply_powerup] keeps the position, also the one that
    precedes the [KeyError] of a record without level. *)
Lemma standing_apply_powerup i id ty player s :
  GameState.players (GameServer.game_state s) !! i = Some (id, player) →
  St s → St (apply_powerup i id ty player s).2.
Proof.
  intros Hi Hs.
  assert (∀ p' p'' n,
    Player.pos p' = Player.pos player → Player.pos p'' = Player.pos player →
    St (store_player i id p'' (store_player i id p' (set_calls n s)).2).2)
    as Htwice.
  { intros p' p'' n Hp' Hp''. eapply standing_store.
    - cbn. apply list_lookup_insert_eq. by eapply lookup_lt_Some.
    - by rewrite Hp', Hp''.
    - by eapply standing_store. }
  destruct ty; cbn.
  - by eapply standing_store.
  - by eapply (standing_store _ _ _ _ (set_calls _ s)).
  - by eapply (standing_store _ _ _ _ (set_calls _ s)).
  - by eapply (standing_store _ _ _ _ (set_calls _ s)).
  - case_decide; [destruct (Player.level player)|]; cbn.
    + rewrite <- (set_calls_id s). by apply Htwice.
    + by eapply standing_store.
    + by eapply standing_store.
Qed.

Lemma standing_pick_up pu : keeps St (pick_up pu).
Proof.
  apply keeps_wp. intros s Hs. unfold pick_up. repeat wp_step.
  destruct (first_player_within _ _ _) as [[j [id player]]|] eqn:Hfind;
    repeat wp_step; [|done].
  apply first_player_within_lookup in Hfind.
  pose proof (standing_apply_powerup j id (Powerup.type pu) player s Hfind Hs)
    as Happly.
  unfold wp. destruct (apply_powerup _ _ _ _ s) as [[[]|x] s1]; [|done].
  apply keeps_wp; [unfold remove_powerup; keeps_apart|done].
Qed.

Lemma standing_powerup_pass : keeps St powerup_pass.
Proof.
  pose proof standing_pick_up. unfold powerup_pass. keeps_tac.
Qed.

Lemma standing_bullet_step i b : keeps St (bullet_step i b).
Proof.
  pose proof standing_bullet_vs_enemies. pose proof standing_bullet_vs_players.
  pose proof standing_powerup_pass. unfold bullet_step. keeps_apart.
Qed.

Lemma standing_bullets_loop bs : ∀ i, keeps St (bullets_loop i bs).
Proof.
  induction bs as [|b bs IH]; intros i; cbn [bullets_loop]; keeps_tac.
  apply standing_bullet_step.
Qed.

Lemma standing_enemies_loop es : ∀ i, keeps St (enemies_loop i es).
Proof.
  induction es as [|e es IH]; intros i; cbn [enemies_loop]; keeps_tac.
  unfold enemy_step. keeps_apart.
Qed.

Lemma standing_update_game_state : keeps St update_game_state.
Proof.
  pose proof standing_bullets_loop. pose proof standing_enemies_loop.
  unfold update_game_state, spawn_powerup, expire_powerups. keeps_apart.
Qed.

End Standing.

(** X26.  A tick moves no player.  Whether it returns or raises, the
    identifiers of the players, their order and the position of every
    player are after the tick what they were before it: hits, awards and
    powerups rewrite other fields of a record, at its place. *)
Theorem tick_moves_no_player `{Oracle} `{Screen} (s : GameServer.t) :
  standing (GameServer.game_state (update_game_state s).2)
  = standing (GameServer.game_state s).
Proof.
  by apply (standing_update_game_state (standing (GameServer.game_state s))).
Qed.

Section Rounding.

Lemma round53_exact n : Z.abs n < 2 ^ 53 → round53 n = n.
Proof.
  intros Hn. unfold round53. cbv zeta.
  rewrite decide_True; [done|].
  destruct (decide (Z.abs n = 0)) as [->|Hne]; [cbn; lia|].
  assert (Z.log2 (Z.abs n) < 53); [|lia].
  apply Z.log2_lt_pow2; lia.
Qed.

End Rounding.

(** X28.  The growth of the threshold, [int(threshold * 1.5)], as Python
    computes it through binary64, is the exact product truncated toward
    zero whenever three times the threshold has at most 53 bits: for
    every threshold up to 3002399751580330 in absolute value, the
    progression of the embedding is that of the code.  Beyond, the two
    part: at [2^52 - 3] the double rounds up, and Python gives
    6755399441055740 where the exact value is 6755399441055739; at
    [2^1024] the conversion raises [OverflowError]. *)
Theorem threshold_growth_is_exact (t : Z) :
  Z.abs (3 * t) < 2 ^ 53 →
  int_times_1_5_rounded t = Some (int_times_1_5 t)
  ∧ int_times_1_5_rounded (2 ^ 52 - 3) = Some 6755399441055740
  ∧ int_times_1_5 (2 ^ 52 - 3) = 6755399441055739
  ∧ int_times_1_5_rounded (2 ^ 1024) = None.
Proof.
  intros Ht. split; [|repeat split; vm_compute; reflexivity].
  unfold int_times_1_5_rounded. cbv zeta.
  rewrite (round53_exact t) by lia. rewrite (round53_exact (3 * t)) by done.
  assert (2 ^ 53 < 2 ^ 1024) by (apply Z.pow_lt_mono_r; lia).
  assert (2 ^ 1024 < 2 ^ 1025) by (apply Z.pow_lt_mono_r; lia).
  rewrite !decide_False by lia. done.
Qed.

Lemma threshold_growth_is_exact_witness :
  Z.abs (3 * 100) < 2 ^ 53
  ∧ int_times_1_5_rounded 100 = Some 150.
Proof.
  assert (Z.abs (3 * 100) < 2 ^ 53) as Hsmall by (vm_compute; reflexivity).
  split; [exact Hsmall|].
  exact (proj1 (threshold_growth_is_exact 100 Hsmall)).
Defined.
